(** * emailinspect: MX resolution, SMTP probing and the inspection pipeline

    A shallow embedding of [emailinspect/smtp.py] and
    [emailinspect/inspect.py] (Python 2), with the properties of the
    verification pipeline stated over it.

    Everything the program does to the outside world (DNS queries, the
    calls into [smtplib], [uuid.uuid4]) goes through an environment [Env]:
    each call is answered by a function of the history of calls made so
    far, and is appended to that history.  The regular-expression based
    helpers of [base.py] and [utils.py] ([is_valid_address], [split_email],
    [normalize], [is_free], [is_disposable], [is_role]) are pure functions
    of their arguments and are fields of the same environment. *)

From Stdlib Require Import ZArith String Ascii List Permutation Sorted Lia.
From stdpp Require Import base list strings gmap.

Local Open Scope string_scope.
Local Open Scope list_scope.

(** ** Python exceptions *)

(** The exception classes the two modules raise or catch.  In Python 2
    [socket.timeout] is a subclass of [socket.error]; the smtplib
    exceptions are not. *)
Inductive exn : Type :=
| socket_error
| socket_timeout
| SMTPServerDisconnected
| SMTPHeloError
| DNSException
| SMTPSessionError (reason : string)
| StopIteration
| ValueError (extra_opts : list string)
| AssertionError
| IndexError
| AttributeError
| TypeError
| Exception_dnspython.

(** [isinstance(e, socket.error)] *)
Definition is_socket_error (e : exn) : bool :=
  match e with
  | socket_error | socket_timeout => true
  | _ => false
  end.

Inductive Res (A : Type) : Type :=
| Ok (a : A)
| Raise (e : exn).
Arguments Ok {A} a.
Arguments Raise {A} e.

(** ** Values, events and the environment *)

(** Values of the keyword options ([mail_from], [local_hostname] are
    strings, [timeout] and [debuglevel] integers). *)
Inductive OptVal : Type :=
| VStr (s : string)
| VInt (z : Z).

(** One MX record of a DNS answer: [mx.exchange.to_text()] and
    [mx.preference]. *)
Record MX := { mx_exchange_text : string; mx_preference : Z }.

(** Calls that leave the program, most recent first in a [Trace].
    [h] identifies the [smtplib.SMTP] object a call is made on. *)
Inductive Event : Type :=
| EvResolve (qname : string)
| EvDnsQuery (qname : string)
| EvUuid4
| EvSMTP (h : nat) (local_hostname timeout debuglevel : OptVal)
| EvConnect (h : nat) (host : string)
| EvEhlo (h : nat)
| EvMail (h : nat) (sender : OptVal)
| EvRcpt (h : nat) (rcpt : string)
| EvQuit (h : nat).

Definition Trace := list Event.

Record Env := {
  is_valid_address : string -> bool;
  split_email : string -> string * string;
  normalize : string -> list string -> string;
  is_free : string -> bool;
  is_disposable : list string -> bool;
  is_role : string -> bool;
  (** [dns] is [None] when dnspython cannot be imported *)
  dns : bool;
  dns_resolver_query : Trace -> string -> Res (list MX);
  uuid4 : Trace -> string;
  smtp_connect : Trace -> nat -> string -> Res Z;
  smtp_ehlo_or_helo_if_needed : Trace -> nat -> Res unit;
  smtp_mail : Trace -> nat -> OptVal -> Res Z;
  smtp_rcpt : Trace -> nat -> string -> Res Z;
  smtp_quit : Trace -> nat -> Res unit
}.

(** ** smtp.py: constants and records *)

Definition DEFAULT_LOCAL_HOSTNAME : string := "google-public-dns-a.google.com".
Definition DEFAULT_TIMEOUT : Z := 20.
Definition DEFAULT_EMAIL_FROM : string := "hello@google.com".

(** [Exchange = namedtuple('Exchange', 'exchange preference')]; the
    fields carry a prefix because [EmailAddress] has an [exchange]
    attribute too. *)
Record Exchange := { ex_exchange : string; ex_preference : Z }.

(** The keyword arguments [**smtp_opts], a dict. *)
Definition Kwargs := list (string * OptVal).

Fixpoint kwargs_get (k : string) (d : OptVal) (kw : Kwargs) : OptVal :=
  match kw with
  | [] => d
  | (k', v) :: kw' => if String.eqb k k' then v else kwargs_get k d kw'
  end.

Record SMTPSession := {
  host : string;
  mail_from : OptVal;
  local_hostname : OptVal;
  timeout : OptVal;
  debuglevel : OptVal;
  _smtp : option nat
}.

(** [SMTPSession.__init__] *)
Definition SMTPSession_init (host : string) (opts : Kwargs) : SMTPSession :=
  {| host := host;
     mail_from := kwargs_get "mail_from" (VStr DEFAULT_EMAIL_FROM) opts;
     local_hostname := kwargs_get "local_hostname" (VStr DEFAULT_LOCAL_HOSTNAME) opts;
     timeout := kwargs_get "timeout" (VInt DEFAULT_TIMEOUT) opts;
     debuglevel := kwargs_get "debuglevel" (VInt 0) opts;
     _smtp := None |}.

(** The keyword parameters of [SMTPSession.__init__]; any other keyword
    in [**smtp_opts] makes the call raise [TypeError]. *)
Definition SMTPSession_keywords : list string :=
  ["mail_from"; "local_hostname"; "timeout"; "debuglevel"].

Definition unexpected_keywords (opts : Kwargs) : list string :=
  filter (fun k => k ∉ SMTPSession_keywords) (map fst opts).

Definition with_smtp (v : option nat) (s : SMTPSession) : SMTPSession :=
  {| host := host s; mail_from := mail_from s;
     local_hostname := local_hostname s; timeout := timeout s;
     debuglevel := debuglevel s; _smtp := v |}.

(** ** The session monad: a session object, the history, exceptions *)

Definition SM (A : Type) : Type :=
  SMTPSession -> Trace -> Res A * SMTPSession * Trace.

Definition sm_ret {A} (a : A) : SM A := fun s tr => (Ok a, s, tr).

Definition sm_raise {A} (e : exn) : SM A := fun s tr => (Raise e, s, tr).

Definition sm_bind {A B} (m : SM A) (k : A -> SM B) : SM B :=
  fun s tr =>
    match m s tr with
    | (Ok a, s', tr') => k a s' tr'
    | (Raise e, s', tr') => (Raise e, s', tr')
    end.

(** [try: body except <classes matched by handler>: handler] *)
Definition try_except {A} (body : SM A) (handler : exn -> option (SM A)) : SM A :=
  fun s tr =>
    match body s tr with
    | (Ok a, s', tr') => (Ok a, s', tr')
    | (Raise e, s', tr') =>
        match handler e with
        | Some h => h s' tr'
        | None => (Raise e, s', tr')
        end
    end.

Definition get_self : SM SMTPSession := fun s tr => (Ok s, s, tr).

Definition set_smtp (v : option nat) : SM unit :=
  fun s tr => (Ok tt, with_smtp v s, tr).

(** A call into a library: the reply is decided on the history before the
    call, and the call is recorded. *)
Definition call {A} (ev : Event) (reply : Trace -> Res A) : SM A :=
  fun s tr => (reply tr, s, ev :: tr).

Notation "'let!' x := m 'in' k" := (sm_bind m (fun x => k))
  (at level 10, x name, m at level 100, k at level 200, only parsing).
Notation "m >>; k" := (sm_bind m (fun _ => k))
  (at level 100, k at level 200, right associativity, only parsing).

Definition code_in (code : Z) (codes : list Z) : bool :=
  existsb (Z.eqb code) codes.

(** ** String and list operations of the Python runtime *)

(** [s.find(c)] for a one-character [c]: the index of its first
    occurrence, or -1. *)
Fixpoint str_find (c : ascii) (s : string) : Z :=
  match s with
  | EmptyString => (-1)%Z
  | String a s' =>
      if Ascii.eqb a c then 0%Z
      else let i := str_find c s' in
           if (i <? 0)%Z then (-1)%Z else (i + 1)%Z
  end.

Fixpoint str_drop (n : nat) (s : string) : string :=
  match n, s with
  | O, _ => s
  | S _, EmptyString => EmptyString
  | S n', String _ s' => str_drop n' s'
  end.

(** [s[i:]]; a negative [i] counts from the end. *)
Definition slice_from (i : Z) (s : string) : string :=
  if (i <? 0)%Z
  then str_drop (Z.to_nat (Z.max 0 (Z.of_nat (String.length s) + i))) s
  else str_drop (Z.to_nat i) s.

(** [s.rstrip(c)] for a one-character [c]. *)
Fixpoint rstrip (c : ascii) (s : string) : string :=
  match s with
  | EmptyString => EmptyString
  | String a s' =>
      match rstrip c s' with
      | EmptyString => if Ascii.eqb a c then EmptyString else String a EmptyString
      | t => String a t
      end
  end.

(** [list.sort(key=lambda ex: ex.preference)].  Python's sort is stable,
    and a stable sort on a key has one possible result; insertion from the
    right computes it. *)
Fixpoint insert_by_preference (x : Exchange) (l : list Exchange) : list Exchange :=
  match l with
  | [] => [x]
  | y :: l' =>
      if (ex_preference x <=? ex_preference y)%Z then x :: y :: l'
      else y :: insert_by_preference x l'
  end.

Fixpoint sort_by_preference (l : list Exchange) : list Exchange :=
  match l with
  | [] => []
  | x :: l' => insert_by_preference x (sort_by_preference l')
  end.

(** [itertools.groupby(l, key)] with every group turned into a list:
    maximal runs of neighbours with equal keys, each with the key of its
    first element. *)
Fixpoint groupby {A K} `{EqDecision K} (key : A -> K) (l : list A)
  : list (K * list A) :=
  match l with
  | [] => []
  | x :: l' =>
      match groupby key l' with
      | (k, g) :: gs =>
          if decide (key x = k) then (k, x :: g) :: gs
          else (key x, [x]) :: (k, g) :: gs
      | [] => [(key x, [x])]
      end
  end.

Section SMTP.

Variable E : Env.

(** ** smtp.py: [resolve_mx_records] *)

Definition to_Exchange (mx : MX) : Exchange :=
  {| ex_exchange := rstrip "." (mx_exchange_text mx);
     ex_preference := mx_preference mx |}.

(** The name that is looked up: [qname[qname.find('@') + 1:]]. *)
Definition lookup_name (qname : string) : string :=
  slice_from (str_find "@" qname + 1) qname.

(** [raise_exception] is the keyword of that name; the other keywords
    are handed to [dns.resolver.query] unchanged and [inspect_list] passes
    none.  The call itself is recorded as [EvResolve]. *)
Definition resolve_mx_records (qname : string) (raise_exception : bool)
    (tr : Trace) : Res (list Exchange) * Trace :=
  let tr := EvResolve qname :: tr in
  if negb (dns E) then (Raise Exception_dnspython, tr)
  else
    let qname := lookup_name qname in
    match dns_resolver_query E tr qname with
    | Ok answer =>
        (Ok (sort_by_preference (map to_Exchange answer)), EvDnsQuery qname :: tr)
    | Raise DNSException =>
        if raise_exception then (Raise DNSException, EvDnsQuery qname :: tr)
        else (Ok [], EvDnsQuery qname :: tr)
    | Raise e => (Raise e, EvDnsQuery qname :: tr)
    end.

(** ** smtp.py: [SMTPSession] *)

(** [SMTPSession.quit] *)
Definition quit : SM unit :=
  try_except
    (let! self := get_self in
     match _smtp self with
     | Some h => call (EvQuit h) (fun tr => smtp_quit E tr h)
     | None => sm_ret tt
     end)
    (fun e => match e with
              | SMTPServerDisconnected => Some (sm_ret tt)
              | _ => None
              end) >>;
  set_smtp None.

(** [SMTPSession.start] *)
Definition start : SM nat :=
  let! self := get_self in
  let! smtp := (fun s tr =>
             (Ok (length tr), s,
              EvSMTP (length tr) (local_hostname s) (timeout s) (debuglevel s) :: tr)) in
  set_smtp (Some smtp) >>;
  try_except
    (try_except
       (let! code := call (EvConnect smtp (host self))
                      (fun tr => smtp_connect E tr smtp (host self)) in
        if negb (code =? 220)%Z
        then quit >>; sm_raise (SMTPSessionError "invalid_smtp")
        else sm_ret tt)
       (fun e => if is_socket_error e
                 then Some (sm_raise (SMTPSessionError "no_connect"))
                 else None) >>;
     try_except
       (call (EvEhlo smtp) (fun tr => smtp_ehlo_or_helo_if_needed E tr smtp))
       (fun e => match e with
                 | SMTPHeloError =>
                     Some (quit >>; sm_raise (SMTPSessionError "invalid_smtp"))
                 | _ => None
                 end) >>;
     let! code := call (EvMail smtp (mail_from self))
                   (fun tr => smtp_mail E tr smtp (mail_from self)) in
     if negb (code =? 250)%Z
     then quit >>; sm_raise (SMTPSessionError "invalid_smtp")
     else sm_ret smtp)
    (fun e => match e with
              | socket_timeout => Some (sm_raise (SMTPSessionError "timeout"))
              | SMTPServerDisconnected =>
                  Some (sm_raise (SMTPSessionError "invalid_smtp"))
              | _ => None
              end).

(** [SMTPSession.restart] *)
Definition restart : SM unit :=
  quit >>; start >>; sm_ret tt.

(** ** smtp.py: the generator [SMTPSession.recipients]

    A suspended generator is the point where it stopped and the values it
    still needs.  [recipients] stops at one of its two [yield]s. *)
Inductive recipients_gen : Type :=
| R_start (email_addresses : list string)
| R_yield_probed (code : Z) (rest : list string)
| R_yield_inactive (rest : list string)
| R_done.

(** The handler [except (socket.timeout, smtplib.SMTPServerDisconnected)]
    of the loop body: [active_session = False; self.quit()]. *)
Definition lost_connection {A} (inactive : A) (e : exn) : option (SM A) :=
  match e with
  | socket_timeout | SMTPServerDisconnected => Some (quit >>; sm_ret inactive)
  | _ => None
  end.

(** The [for] loop of [recipients] from the top of an iteration up to the
    next [yield] ([Some]) or the end of the loop ([None]). *)
Fixpoint recipients_loop (active_session : bool) (email_addresses : list string)
  : SM (option (string * bool) * recipients_gen) :=
  match email_addresses with
  | [] => sm_ret (None, R_done)
  | email_addr :: rest =>
      if active_session then
        let! probed :=
          try_except
            (let! self := get_self in
             match _smtp self with
             | Some h =>
                 let! code := call (EvRcpt h email_addr)
                                   (fun tr => smtp_rcpt E tr h email_addr) in
                 sm_ret (Some code)
             | None => sm_raise AttributeError
             end)
            (lost_connection None) in
        match probed with
        | Some code =>
            sm_ret (Some (email_addr, code_in code [250; 251]%Z),
                    R_yield_probed code rest)
        | None => recipients_loop false rest
        end
      else sm_ret (Some (email_addr, false), R_yield_inactive rest)
  end.

(** [next()] on the generator. *)
Definition recipients_next (g : recipients_gen)
  : SM (option (string * bool) * recipients_gen) :=
  match g with
  | R_start email_addresses =>
      let! self := get_self in
      match email_addresses, _smtp self with
      | [], _ => sm_raise AssertionError
      | _, None => sm_raise AssertionError
      | _, Some _ => recipients_loop true email_addresses
      end
  | R_yield_probed code rest =>
      if code_in code [552; 554]%Z then
        let! active_session :=
          try_except (restart >>; sm_ret true) (lost_connection false) in
        recipients_loop active_session rest
      else recipients_loop true rest
  | R_yield_inactive rest => recipients_loop false rest
  | R_done => sm_ret (None, R_done)
  end.

(** ** smtp.py: the generator [verify_smtp_recipients] *)

(** What the generator yields: [(email_addr, accepted, reason)]. *)
Definition probe_result : Type := string * bool * string.

Inductive verify_gen : Type :=
| V_start (host : string) (email_addresses : list string) (smtp_opts : Kwargs)
| V_in_session (s : SMTPSession) (email_addresses : list string)
               (g : recipients_gen)
| V_in_except (reason : string) (rest : list string)
| V_done.

(** The loop of the [except SMTPSessionError as e] clause. *)
Definition verify_except_loop (reason : string) (rest : list string) (tr : Trace)
  : Res (option probe_result) * verify_gen * Trace :=
  match rest with
  | [] => (Ok None, V_done, tr)
  | email_addr :: rest' =>
      (Ok (Some (email_addr, false, reason)), V_in_except reason rest', tr)
  end.

(** An exception reaches the [try] of [verify_smtp_recipients]. *)
Definition verify_handle (e : exn) (email_addresses : list string) (tr : Trace)
  : Res (option probe_result) * verify_gen * Trace :=
  match e with
  | SMTPSessionError reason => verify_except_loop reason email_addresses tr
  | _ => (Raise e, V_done, tr)
  end.

(** The body of the [with] block from a resumption of the inner generator
    to the next [yield]; leaving the block calls [__exit__], which is
    [self.quit()]. *)
Definition verify_in_session (s : SMTPSession) (email_addresses : list string)
    (g : recipients_gen) (tr : Trace)
  : Res (option probe_result) * verify_gen * Trace :=
  match recipients_next g s tr with
  | (Ok (Some (email_addr, accepted), g'), s', tr') =>
      let reason := if accepted : bool then "accepted_email" else "rejected_email" in
      (Ok (Some (email_addr, accepted, reason)),
       V_in_session s' email_addresses g', tr')
  | (Ok (None, _), s', tr') =>
      match quit s' tr' with
      | (Ok _, _, tr'') => (Ok None, V_done, tr'')
      | (Raise e, _, tr'') => verify_handle e email_addresses tr''
      end
  | (Raise e, s', tr') =>
      match quit s' tr' with
      | (Ok _, _, tr'') => verify_handle e email_addresses tr''
      | (Raise e', _, tr'') => verify_handle e' email_addresses tr''
      end
  end.

(** [next()] on the generator.  [__enter__] starts the session; when it
    raises, [__exit__] is not called. *)
Definition verify_next (g : verify_gen) (tr : Trace)
  : Res (option probe_result) * verify_gen * Trace :=
  match g with
  | V_start host email_addresses smtp_opts =>
      match unexpected_keywords smtp_opts with
      | _ :: _ => (Raise TypeError, V_done, tr)
      | [] =>
          match start (SMTPSession_init host smtp_opts) tr with
          | (Ok _, s, tr') =>
              verify_in_session s email_addresses (R_start email_addresses) tr'
          | (Raise e, _, tr') => verify_handle e email_addresses tr'
          end
      end
  | V_in_session s email_addresses g' =>
      verify_in_session s email_addresses g' tr
  | V_in_except reason rest => verify_except_loop reason rest tr
  | V_done => (Ok None, V_done, tr)
  end.

(** The generator is dropped while suspended: [GeneratorExit] is raised at
    its [yield]; inside the [with] block this runs [__exit__], and what
    [quit] raises there is ignored. *)
Definition verify_close (g : verify_gen) (tr : Trace) : Trace :=
  match g with
  | V_in_session s _ _ => snd (quit s tr)
  | _ => tr
  end.

(** [verify_smtp_recipients(host, email_addresses, **smtp_opts)]: the call
    only creates the generator.  [email_addresses] is a list here; a single
    string is what [verify_smtp_recipient] wraps into one. *)
Definition verify_smtp_recipients (host : string) (email_addresses : list string)
    (smtp_opts : Kwargs) : verify_gen :=
  V_start host email_addresses smtp_opts.

(** [verify_smtp_recipient]: [.next()] once on a generator that is then
    dropped. *)
Definition verify_smtp_recipient (host email_address : string)
    (smtp_opts : Kwargs) (tr : Trace) : Res probe_result * Trace :=
  match verify_next (verify_smtp_recipients host [email_address] smtp_opts) tr with
  | (Ok (Some r), g, tr') => (Ok r, verify_close g tr')
  | (Ok None, _, tr') => (Raise StopIteration, tr')
  | (Raise e, _, tr') => (Raise e, tr')
  end.

(** [n] calls of [next()], stopping at the first that does not yield; the
    results in the order they were yielded. *)
Fixpoint verify_take (n : nat) (g : verify_gen) (tr : Trace)
  : list probe_result * verify_gen * Trace :=
  match n with
  | O => ([], g, tr)
  | S n' =>
      match verify_next g tr with
      | (Ok (Some r), g', tr') =>
          let '(rs, g'', tr'') := verify_take n' g' tr' in (r :: rs, g'', tr'')
      | (_, g', tr') => ([], g', tr')
      end
  end.

End SMTP.

(** ** inspect.py: [EmailAddress] *)

Inductive Status : Type := DELIVERABLE | UNDELIVERABLE | RISKY | UNKNOWN.

(** Attributes that start as [None] are options. *)
Record EmailAddress := {
  query : string;
  valid : option bool;
  email : option string;
  user : option string;
  domain : option string;
  free : option bool;
  disposable : option bool;
  role : option bool;
  gibberish : bool;
  catch_all : bool;
  exchange : option string;
  all_exchanges : option (list Exchange);
  status : Status;
  reason : option string
}.

(** [EmailAddress.__init__] *)
Definition EmailAddress_init (query : string) : EmailAddress :=
  {| query := query; valid := None; email := None; user := None;
     domain := None; free := None; disposable := None; role := None;
     gibberish := false; catch_all := false; exchange := None;
     all_exchanges := None; status := UNKNOWN; reason := None |}.

(** Truth value of an attribute that is [None] or a bool. *)
Definition truthy (b : option bool) : bool := default false b.

(** Truth value of [addr.all_exchanges]: [None] and the empty list are
    false. *)
Definition has_exchanges (addr : EmailAddress) : bool :=
  match all_exchanges addr with
  | Some (_ :: _) => true
  | _ => false
  end.

(** [str(x)] for an attribute that is [None] or a string. *)
Definition str_of (o : option string) : string := default "None" o.

(** Lines 48-49: the address is not valid. *)
Definition set_invalid (addr : EmailAddress) : EmailAddress :=
  {| query := query addr; valid := Some false; email := email addr;
     user := user addr; domain := domain addr; free := free addr;
     disposable := disposable addr; role := role addr;
     gibberish := gibberish addr; catch_all := catch_all addr;
     exchange := exchange addr; all_exchanges := all_exchanges addr;
     status := UNDELIVERABLE; reason := Some "invalid_email" |}.

(** Lines 101-103 and 109-111. *)
Definition set_probe (reason' : string) (catch_all' : bool) (exchange' : string)
    (addr : EmailAddress) : EmailAddress :=
  {| query := query addr; valid := valid addr; email := email addr;
     user := user addr; domain := domain addr; free := free addr;
     disposable := disposable addr; role := role addr;
     gibberish := gibberish addr; catch_all := catch_all';
     exchange := Some exchange'; all_exchanges := all_exchanges addr;
     status := status addr; reason := Some reason' |}.

Definition set_status (status' : Status) (addr : EmailAddress) : EmailAddress :=
  {| query := query addr; valid := valid addr; email := email addr;
     user := user addr; domain := domain addr; free := free addr;
     disposable := disposable addr; role := role addr;
     gibberish := gibberish addr; catch_all := catch_all addr;
     exchange := exchange addr; all_exchanges := all_exchanges addr;
     status := status'; reason := reason addr |}.

(** Lines 115-121: the status of an address from its reason and flags. *)
Definition final_status (addr : EmailAddress) : Status :=
  match reason addr with
  | Some r =>
      if String.eqb r "accepted_email" then
        if truthy (disposable addr) || gibberish addr || catch_all addr
        then RISKY else DELIVERABLE
      else UNDELIVERABLE
  | None => UNDELIVERABLE
  end.

Definition finalize (addr : EmailAddress) : EmailAddress :=
  set_status (final_status addr) addr.

Section Inspect.

Variable E : Env.

(** ** inspect.py: [inspect_list] *)

Definition valid_opts : list string :=
  ["mail_from"; "timeout"; "local_hostname"; "debuglevel"].

(** [set(smtp_opts.keys()) - valid_opts] *)
Definition extra_opts (smtp_opts : Kwargs) : list string :=
  filter (fun k => ¬ In k valid_opts) (map fst smtp_opts).

(** Lines 52-59: the exchanges of [domain], from the cache or resolved and
    cached. *)
Definition cached_exchanges (domain : string)
    (mx_cache : gmap string (list Exchange)) (tr : Trace)
  : Res (list Exchange * gmap string (list Exchange)) * Trace :=
  match mx_cache !! domain with
  | Some exchanges => (Ok (exchanges, mx_cache), tr)
  | None =>
      match resolve_mx_records E domain false tr with
      | (Ok exchanges, tr') => (Ok (exchanges, <[domain := exchanges]> mx_cache), tr')
      | (Raise e, tr') => (Raise e, tr')
      end
  end.

(** Lines 59-75: the attributes of a valid address. *)
Definition set_resolved (exchanges : list Exchange) (addr : EmailAddress)
  : EmailAddress :=
  let hosts := map ex_exchange exchanges in
  let email' := normalize E (query addr) hosts in
  let '(user', domain') := split_email E email' in
  {| query := query addr; valid := Some true; email := Some email';
     user := Some user'; domain := Some domain';
     free := Some (is_free E domain');
     disposable := Some (is_disposable E (domain' :: hosts));
     role := Some (is_role E user');
     gibberish := gibberish addr; catch_all := catch_all addr;
     exchange := exchange addr; all_exchanges := Some exchanges;
     status := match exchanges with [] => UNDELIVERABLE | _ => status addr end;
     reason := match exchanges with
               | [] => Some "invalid_domain"
               | _ => Some "no_connect"
               end |}.

(** The body of the first loop (lines 43-75) for one address. *)
Definition inspect_address (addr : EmailAddress)
    (mx_cache : gmap string (list Exchange)) (tr : Trace)
  : Res (EmailAddress * gmap string (list Exchange)) * Trace :=
  if negb (is_valid_address E (query addr))
  then (Ok (set_invalid addr, mx_cache), tr)
  else
    let domain := snd (split_email E (query addr)) in
    match cached_exchanges domain mx_cache tr with
    | (Ok (exchanges, mx_cache'), tr') =>
        (Ok (set_resolved exchanges addr, mx_cache'), tr')
    | (Raise e, tr') => (Raise e, tr')
    end.

(** The first loop. *)
Fixpoint inspect_addresses (addresses : list EmailAddress)
    (mx_cache : gmap string (list Exchange)) (tr : Trace)
  : Res (list EmailAddress * gmap string (list Exchange)) * Trace :=
  match addresses with
  | [] => (Ok ([], mx_cache), tr)
  | addr :: rest =>
      match inspect_address addr mx_cache tr with
      | (Ok (addr', mx_cache'), tr') =>
          match inspect_addresses rest mx_cache' tr' with
          | (Ok (rest', mx_cache''), tr'') => (Ok (addr' :: rest', mx_cache''), tr'')
          | (Raise e, tr'') => (Raise e, tr'')
          end
      | (Raise e, tr') => (Raise e, tr')
      end
  end.

(** The objects of [addresses] are shared with [with_exchanges] and with
    every [group]: those hold positions in [addresses], and an assignment
    to an attribute updates the object at its position. *)
Definition with_exchanges (addresses : list EmailAddress) : list nat :=
  filter (fun i => from_option has_exchanges false (addresses !! i) = true)
         (seq 0 (length addresses)).

Definition domain_at (addresses : list EmailAddress) (i : nat) : option string :=
  addresses !! i ≫= domain.

Definition update_all (f : EmailAddress -> EmailAddress) (group : list nat)
    (addresses : list EmailAddress) : list EmailAddress :=
  foldl (fun store i => alter f i store) addresses group.

(** Lines 108-111: [for addr, (_, _, reason) in izip(group, it)]. *)
Fixpoint izip_probe (exchange' : string) (catch_all' : bool) (group : list nat)
    (it : verify_gen) (addresses : list EmailAddress) (tr : Trace)
  : Res (list EmailAddress) * verify_gen * Trace :=
  match group with
  | [] => (Ok addresses, it, tr)
  | i :: group' =>
      match verify_next E it tr with
      | (Ok (Some (_, _, reason')), it', tr') =>
          izip_probe exchange' catch_all' group' it'
            (alter (set_probe reason' catch_all' exchange') i addresses) tr'
      | (Ok None, it', tr') => (Ok addresses, it', tr')
      | (Raise e, it', tr') => (Raise e, it', tr')
      end
  end.

(** Lines 93-112: the exchanges by priority.  [it] is the local variable
    of that name: unbound, or the generator of an earlier group, which is
    dropped when the variable is bound again. *)
Fixpoint probe_exchanges (exchanges : list Exchange) (catch_all_email : string)
    (group : list nat) (emails : list string) (opts : Kwargs)
    (addresses : list EmailAddress) (it : option verify_gen) (tr : Trace)
  : Res (list EmailAddress * option verify_gen) * Trace :=
  match exchanges with
  | [] => (Ok (addresses, it), tr)
  | ex :: exchanges' =>
      let exchange' := ex_exchange ex in
      match verify_smtp_recipient E exchange' catch_all_email opts tr with
      | (Raise e, tr') => (Raise e, tr')
      | (Ok (_, catch_all', reason'), tr') =>
          if String.eqb reason' "no_connect"
          then probe_exchanges exchanges' catch_all_email group emails opts
                 addresses it tr'
          else if catch_all' : bool
          then (Ok (update_all (set_probe reason' catch_all' exchange') group
                      addresses, it), tr')
          else
            let it' := verify_smtp_recipients exchange' emails opts in
            let tr'' := from_option (fun old => verify_close E old tr') tr' it in
            match izip_probe exchange' catch_all' group it' addresses tr'' with
            | (Ok addresses', it'', tr''') => (Ok (addresses', Some it''), tr''')
            | (Raise e, _, tr''') => (Raise e, tr''')
            end
      end
  end.

(** Lines 81-112: one group of the second loop. *)
Definition inspect_group (smtp_opts : Kwargs) (domain' : option string)
    (group : list nat) (addresses : list EmailAddress)
    (it : option verify_gen) (tr : Trace)
  : Res (list EmailAddress * option verify_gen) * Trace :=
  match group with
  | [] => (Raise IndexError, tr)
  | first :: _ =>
      let emails := map (fun i => str_of (addresses !! i ≫= email)) group in
      let opts := smtp_opts in
      let catch_all_email := uuid4 E tr +:+ "@" +:+ str_of domain' in
      probe_exchanges
        (default [] (addresses !! first ≫= all_exchanges))
        catch_all_email group emails opts addresses it (EvUuid4 :: tr)
  end.

(** The second loop. *)
Fixpoint inspect_groups (smtp_opts : Kwargs)
    (groups : list (option string * list nat))
    (addresses : list EmailAddress) (it : option verify_gen) (tr : Trace)
  : Res (list EmailAddress * option verify_gen) * Trace :=
  match groups with
  | [] => (Ok (addresses, it), tr)
  | (domain', group) :: groups' =>
      match inspect_group smtp_opts domain' group addresses it tr with
      | (Ok (addresses', it'), tr') =>
          inspect_groups smtp_opts groups' addresses' it' tr'
      | (Raise e, tr') => (Raise e, tr')
      end
  end.

Definition inspect_list (email_addresses : list string) (smtp_opts : Kwargs)
    (tr : Trace) : Res (list EmailAddress) * Trace :=
  match extra_opts smtp_opts with
  | (_ :: _) as extra => (Raise (ValueError extra), tr)
  | [] =>
      match inspect_addresses (map EmailAddress_init email_addresses) ∅ tr with
      | (Raise e, tr1) => (Raise e, tr1)
      | (Ok (addresses, _), tr1) =>
          let with_exchanges' := with_exchanges addresses in
          match inspect_groups smtp_opts
                  (groupby (domain_at addresses) with_exchanges')
                  addresses None tr1 with
          | (Raise e, tr2) => (Raise e, tr2)
          | (Ok (addresses', it), tr2) =>
              (Ok (update_all finalize with_exchanges' addresses'),
               from_option (fun g => verify_close E g tr2) tr2 it)
          end
      end
  end.

(** [inspect] *)
Definition inspect (email_address : string) (kwargs : Kwargs) (tr : Trace)
  : Res EmailAddress * Trace :=
  match inspect_list [email_address] kwargs tr with
  | (Ok addresses, tr') =>
      match addresses !! 0%nat with
      | Some addr => (Ok addr, tr')
      | None => (Raise IndexError, tr')
      end
  | (Raise e, tr') => (Raise e, tr')
  end.

End Inspect.

(** ** Observations on a history *)

(** How often [resolve_mx_records] was called on [qname]. *)
Fixpoint count_resolve (qname : string) (tr : Trace) : nat :=
  match tr with
  | [] => 0
  | EvResolve q :: tr' =>
      (if String.eqb q qname then 1 else 0) + count_resolve qname tr'
  | _ :: tr' => count_resolve qname tr'
  end.

(** The hosts connected to, most recent first. *)
Fixpoint connects (tr : Trace) : list string :=
  match tr with
  | [] => []
  | EvConnect _ host' :: tr' => host' :: connects tr'
  | _ :: tr' => connects tr'
  end.

(** The recipients of the RCPT commands sent, most recent first. *)
Fixpoint rcpts (tr : Trace) : list string :=
  match tr with
  | [] => []
  | EvRcpt _ r :: tr' => r :: rcpts tr'
  | _ :: tr' => rcpts tr'
  end.

Definition is_resolve (ev : Event) : bool :=
  match ev with EvResolve _ => true | _ => false end.

Definition is_connect (ev : Event) : bool :=
  match ev with EvConnect _ _ => true | _ => false end.

Definition is_rcpt (ev : Event) : bool :=
  match ev with EvRcpt _ _ => true | _ => false end.

(** [tr'] is [tr] with later events that all satisfy [P]. *)
Definition adds (P : Event -> Prop) (tr tr' : Trace) : Prop :=
  exists evs, tr' = evs ++ tr /\ Forall P evs.

Definition no_resolve (ev : Event) : Prop := is_resolve ev = false.

(** A computation of the session monad that only adds events in [P]. *)
Definition sm_adds {A} (P : Event -> Prop) (m : SM A) : Prop :=
  forall s tr, adds P tr (m s tr).2.

(** A computation whose first event is [ev] and whose later events are
    in [P]. *)
Definition sm_adds_after {A} (ev : Event) (P : Event -> Prop) (m : SM A) : Prop :=
  forall s tr, adds P (ev :: tr) (m s tr).2.

(** The attributes that are only written by the first loop. *)
Definition frame (a : EmailAddress)
  : string * option bool * option (list Exchange) * bool :=
  (query a, valid a, all_exchanges a, gibberish a).

(** The cache key of an address: the domain of its query. *)
Definition query_domain (E : Env) (a : EmailAddress) : string :=
  (split_email E (query a)).2.

(** Every cached domain was resolved once since [tr0], no other domain
    at all. *)
Definition cache_counts (tr0 : Trace) (mx_cache : gmap string (list Exchange))
    (tr : Trace) : Prop :=
  forall d, count_resolve d tr =
            count_resolve d tr0 +
            match mx_cache !! d with Some _ => 1 | None => 0 end.

(** What the first loop establishes for an address. *)
Definition resolved_in (E : Env) (mx_cache : gmap string (list Exchange))
    (a : EmailAddress) : Prop :=
  valid a = Some true ->
  is_Some (all_exchanges a) /\ all_exchanges a = mx_cache !! query_domain E a.

(** The order of the sorted exchanges. *)
Definition le_preference (a b : Exchange) : Prop :=
  (ex_preference a <= ex_preference b)%Z.

(** ** Stub environments

    Servers and resolvers with scripted replies.  The string helpers are
    stand-ins that agree with [split_email], [is_valid_address] and
    [normalize] on plain lower-case addresses [local@domain] of domains
    that no provider rule of [normalize] matches. *)

(** [s.partition('@')] without the separator. *)
Fixpoint partition_at (s : string) : string * string :=
  match s with
  | EmptyString => (EmptyString, EmptyString)
  | String a s' =>
      if Ascii.eqb a "@" then (EmptyString, s')
      else let '(u, d) := partition_at s' in (String a u, d)
  end.

Definition stub_env (query' : string -> Res (list MX))
    (connect rcpt : Trace -> nat -> string -> Res Z) : Env :=
  {| is_valid_address := fun s => (0 <=? str_find "@" s)%Z;
     split_email := fun s => let '(u, d) := partition_at s in (u, rstrip "." d);
     normalize := fun q _ => q;
     is_free := fun _ => false;
     is_disposable := fun _ => false;
     is_role := fun _ => false;
     dns := true;
     dns_resolver_query := fun _ q => query' q;
     uuid4 := fun _ => "7d1f0c52-5a3e-4c0b-9a57-0f6f2f1f8e11";
     smtp_connect := connect;
     smtp_ehlo_or_helo_if_needed := fun _ _ => Ok tt;
     smtp_mail := fun _ _ _ => Ok 250%Z;
     smtp_rcpt := rcpt;
     smtp_quit := fun _ _ => Ok tt |}.

(** One MX record [mx.<domain>.] of preference 10 for every domain. *)
Definition one_mx (q : string) : Res (list MX) :=
  Ok [ {| mx_exchange_text := "mx." +:+ q +:+ "."; mx_preference := 10 |} ].

(** Two MX records for every domain, given out of order. *)
Definition two_mx (q : string) : Res (list MX) :=
  Ok [ {| mx_exchange_text := "mx2." +:+ q +:+ "."; mx_preference := 20 |};
       {| mx_exchange_text := "mx1." +:+ q +:+ "."; mx_preference := 10 |} ].

Definition greets (_ : Trace) (_ : nat) (_ : string) : Res Z := Ok 220%Z.

(** A server that accepts every recipient. *)
Definition accept_all : Env :=
  stub_env one_mx greets (fun _ _ _ => Ok 250%Z).

(** A server that accepts [alice@...] and rejects everybody else. *)
Definition accept_alice : Env :=
  stub_env one_mx greets
    (fun _ _ r => if String.prefix "alice@" r then Ok 250%Z else Ok 550%Z).

(** A server that closes the connection on every RCPT. *)
Definition drop_on_rcpt : Env :=
  stub_env one_mx greets (fun _ _ _ => Raise SMTPServerDisconnected).

(** A server that rejects the catch-all probe, closes the connection on
    the RCPT for [alice@...] and would accept everybody else. *)
Definition drop_on_alice : Env :=
  stub_env one_mx greets
    (fun _ _ r => if String.prefix "alice@" r then Raise SMTPServerDisconnected
                  else if String.prefix "7d1f0c52" r then Ok 550%Z
                  else Ok 250%Z).

(** A host whose connect attempt times out. *)
Definition connect_times_out : Env :=
  stub_env one_mx (fun _ _ _ => Raise socket_timeout) (fun _ _ _ => Ok 250%Z).

(** A server that replies 554 to the first RCPT it ever gets and 250 to
    every later one. *)
Definition busy_once : Env :=
  stub_env one_mx greets
    (fun tr _ _ => match rcpts tr with [] => Ok 554%Z | _ => Ok 250%Z end).

(** Two exchanges: the preferred one greets with 554, the other one
    works and accepts every recipient. *)
Definition first_mx_broken : Env :=
  stub_env two_mx
    (fun _ _ h => if String.prefix "mx1." h then Ok 554%Z else Ok 220%Z)
    (fun _ _ _ => Ok 250%Z).

(** ** smtp.py: the context manager and [verify_smtp_connection] *)

(** [SMTPSession.__enter__] *)
Definition SMTPSession_enter (E : Env) : SM unit :=
  let! self := get_self in
  match _smtp self with
  | None => start E >>; sm_ret tt
  | Some _ => sm_ret tt
  end.

(** [SMTPSession.__exit__] *)
Definition SMTPSession_exit (E : Env) : SM unit := quit E.

(** [verify_smtp_connection]: the [return] inside the [with] block runs
    [__exit__]; what [__exit__] raises replaces the return. *)
Definition verify_smtp_connection (E : Env) (host : string) (smtp_opts : Kwargs)
    (tr : Trace) : Res (bool * string) * Trace :=
  let handle e tr' :=
    match e with
    | SMTPSessionError reason => (Ok (false, reason), tr')
    | _ => (Raise e, tr')
    end in
  match unexpected_keywords smtp_opts with
  | _ :: _ => (Raise TypeError, tr)
  | [] =>
      match SMTPSession_enter E (SMTPSession_init host smtp_opts) tr with
      | (Ok _, s, tr') =>
          match SMTPSession_exit E s tr' with
          | (Ok _, _, tr'') => (Ok (true, "valid_smtp"), tr'')
          | (Raise e, _, tr'') => handle e tr''
          end
      | (Raise e, _, tr') => handle e tr'
      end
  end.

(** ** inspect.py: the properties of [EmailAddress] *)

Definition is_deliverable (a : EmailAddress) : bool :=
  match status a with DELIVERABLE => true | _ => false end.

Definition is_risky (a : EmailAddress) : bool :=
  match status a with RISKY => true | _ => false end.

Definition is_undeliverable (a : EmailAddress) : bool :=
  match status a with UNDELIVERABLE => true | _ => false end.

(** ** Reason codes and assumptions on the environment *)

(** The reasons [start] gives. *)
Definition session_reason (r : string) : Prop :=
  r = "no_connect" \/ r = "timeout" \/ r = "invalid_smtp".

(** The reasons a probe of a recipient gives. *)
Definition probe_reason (r : string) : Prop :=
  r = "accepted_email" \/ r = "rejected_email" \/ session_reason r.

(** The reasons of a record that [inspect_list] returns. *)
Definition final_reason (r : option string) : Prop :=
  r = Some "invalid_email" \/ r = Some "invalid_domain" \/
  exists r', r = Some r' /\ probe_reason r'.

(** An exception that is not a [SMTPSessionError] with a reason of the
    program's own invention. *)
Definition known_reason (e : exn) : Prop :=
  forall r, e = SMTPSessionError r -> session_reason r.

(** The library does not raise the program's [SMTPSessionError]. *)
Definition from_library (e : exn) : Prop :=
  forall r, e <> SMTPSessionError r.

Definition smtplib_env (E : Env) : Prop :=
  (forall tr h x e, smtp_connect E tr h x = Raise e -> from_library e) /\
  (forall tr h e, smtp_ehlo_or_helo_if_needed E tr h = Raise e -> from_library e) /\
  (forall tr h x e, smtp_mail E tr h x = Raise e -> from_library e) /\
  (forall tr h x e, smtp_rcpt E tr h x = Raise e -> from_library e) /\
  (forall tr h e, smtp_quit E tr h = Raise e -> from_library e).

(** dnspython is there and a lookup answers or raises [DNSException]. *)
Definition dns_env (E : Env) : Prop :=
  dns E = true /\
  forall tr q e, dns_resolver_query E tr q = Raise e -> e = DNSException.

(** No host can be connected to. *)
Definition unreachable (E : Env) : Prop :=
  forall tr h x, exists e,
    smtp_connect E tr h x = Raise e /\ is_socket_error e = true.

(** Every host greets, accepts the sender and accepts every recipient. *)
Definition accepts_all (E : Env) : Prop :=
  (forall tr h x, smtp_connect E tr h x = Ok 220%Z) /\
  (forall tr h, smtp_ehlo_or_helo_if_needed E tr h = Ok tt) /\
  (forall tr h x, smtp_mail E tr h x = Ok 250%Z) /\
  (forall tr h x, smtp_rcpt E tr h x = Ok 250%Z) /\
  (forall tr h, smtp_quit E tr h = Ok tt \/
                smtp_quit E tr h = Raise SMTPServerDisconnected).

(** A computation of the session monad that raises only exceptions in
    [Q]. *)
Definition sm_raises {A} (Q : exn -> Prop) (m : SM A) : Prop :=
  forall s tr e, (m s tr).1.1 = Raise e -> Q e.

(** A suspended [verify_smtp_recipients] whose [except] clause, if it is
    in it, reports a reason of [start]. *)
Definition gen_known (g : verify_gen) : Prop :=
  match g with
  | V_in_except r _ => session_reason r
  | _ => True
  end.

(** What the SMTP phase may have done to a record: nothing, or the
    assignments of lines 101-103 or 109-111 if the record has exchanges. *)
Definition touched (Q : string -> Prop) (a a' : EmailAddress) : Prop :=
  a' = a \/
  (has_exchanges a = true /\
   exists r c x, Q r /\ (c = true -> r = "accepted_email") /\
                 a' = set_probe r c x a).

(** A record that [inspect_list] returns for the query [q]. *)
Definition record_of (E : Env) (Q : string -> Prop) (q : string)
    (a : EmailAddress) : Prop :=
  (is_valid_address E q = false /\ a = set_invalid (EmailAddress_init q)) \/
  (is_valid_address E q = true /\
   (a = set_resolved E [] (EmailAddress_init q) \/
    exists ex exs a2,
      touched Q (set_resolved E (ex :: exs) (EmailAddress_init q)) a2 /\
      a = finalize a2)).

(** The positions of a group hold records of [l1] with exchanges. *)
Definition group_ok (l1 : list EmailAddress) (group : list nat) : Prop :=
  Forall (fun i => forall a1, l1 !! i = Some a1 -> has_exchanges a1 = true) group.

(** [a] is [a1] marked by an accepted catch-all probe. *)
Definition marked (a1 a : EmailAddress) : Prop :=
  exists x, a = set_probe "accepted_email" true x a1.

(** [l] is [l1] with some records marked, those at the positions [D]
    among them. *)
Definition catch_all_marks (l1 l : list EmailAddress) (D : list nat) : Prop :=
  Forall2 (fun a1 a => a = a1 \/ marked a1 a) l1 l /\
  forall i, i ∈ D -> exists a1 a, l1 !! i = Some a1 /\ l !! i = Some a /\ marked a1 a.

(** The positions of a group exist in [l1] and hold records with
    exchanges. *)
Definition group_in (l1 : list EmailAddress) (group : list nat) : Prop :=
  Forall (fun i => exists a1, l1 !! i = Some a1 /\ has_exchanges a1 = true) group.

(** A resolver that finds no MX record for any domain. *)
Definition no_mx : Env :=
  stub_env (fun _ => Raise DNSException) greets (fun _ _ _ => Ok 250%Z).

(** The resolver does not raise the program's [SMTPSessionError]. *)
Definition resolver_env (E : Env) : Prop :=
  forall tr q e, dns_resolver_query E tr q = Raise e -> from_library e.

(** ** Where a RCPT is sent

    [recipients] sends a RCPT at one place, the top of the loop body with
    the session active.  [next()] on the suspended [verify_smtp_recipients]
    [g] at the history [tr] comes there for the recipient [e], with the
    session [s], the history [tr0] and the recipients [rest] still to
    come, in three ways: on the first [next()], once the session has
    started; on a resumption after a reply other than 552 and 554; on a
    resumption after 552 or 554, once [restart] has returned.  [all] are
    the recipients of the call. *)
Definition at_rcpt (E : Env) (g : verify_gen) (tr : Trace) (s : SMTPSession)
    (tr0 : Trace) (all : list string) (e : string) (rest : list string) : Prop :=
  match g with
  | V_start host' l opts =>
      unexpected_keywords opts = [] /\ l = e :: rest /\ all = l /\
      exists h, start E (SMTPSession_init host' opts) tr = (Ok h, s, tr0)
  | V_in_session s1 all1 (R_yield_probed c0 l) =>
      l = e :: rest /\ all = all1 /\
      if code_in c0 [552; 554]%Z
      then restart E s1 tr = (Ok tt, s, tr0)
      else s = s1 /\ tr0 = tr
  | _ => False
  end.

(** The replies to the RCPTs for [emails] in turn on the connection [h],
    each on the history the earlier ones have left: [codes], none of them
    552 or 554. *)
Fixpoint ordinary_replies (E : Env) (h : nat) (emails : list string)
    (tr : Trace) (codes : list Z) : Prop :=
  match emails, codes with
  | [], [] => True
  | e :: emails', c :: codes' =>
      smtp_rcpt E tr h e = Ok c /\ code_in c [552; 554]%Z = false /\
      ordinary_replies E h emails' (EvRcpt h e :: tr) codes'
  | _, _ => False
  end.

(** What [verify_smtp_recipients] yields for a recipient with the reply
    [c]. *)
Definition result_of (e : string) (c : Z) : probe_result :=
  (e, code_in c [250; 251]%Z,
   if code_in c [250; 251]%Z then "accepted_email" else "rejected_email").

(** A server that accepts the first recipient of a connection and
    replies 452 to the others. *)
Definition one_per_session : Env :=
  stub_env one_mx greets
    (fun tr _ _ => match tr with
                   | EvRcpt _ _ :: _ => Ok 452%Z
                   | _ => Ok 250%Z
                   end).

(** A server that replies 554 to [bob@...] and 250 to everybody else. *)
Definition busy_for_bob : Env :=
  stub_env one_mx greets
    (fun _ _ r => if String.prefix "bob@" r then Ok 554%Z else Ok 250%Z).

(** The same server, which can be connected to only once. *)
Definition busy_for_bob_then_gone : Env :=
  stub_env one_mx
    (fun tr _ _ => match connects tr with
                   | [] => Ok 220%Z
                   | _ => Raise socket_error
                   end)
    (fun _ _ r => if String.prefix "bob@" r then Ok 554%Z else Ok 250%Z).

(** ** Sessions on one host

    A computation of the session monad that, from a session satisfying
    [I], only adds events in [P] and leaves a session satisfying [I]. *)
Definition sm_keeps {A} (I : SMTPSession -> Prop) (P : Event -> Prop)
    (m : SM A) : Prop :=
  forall s tr, I s -> adds P tr (m s tr).2 /\ I (m s tr).1.2.

Definition host_is (x : string) (s : SMTPSession) : Prop := host s = x.

(** The events of sessions on the host [x] for recipients among [emails]:
    a connect is to [x], a RCPT is for one of [emails]. *)
Definition for_host (x : string) (emails : list string) (ev : Event) : Prop :=
  (forall h y, ev = EvConnect h y -> y = x) /\
  (forall h r, ev = EvRcpt h r -> r ∈ emails).




(** * utils.py and base.py *)

(** ** More string operations of the Python runtime *)

(** [s.split(c)] for a one-character [c]: never an empty list. *)
Fixpoint str_split (c : ascii) (s : string) : list string :=
  match s with
  | EmptyString => [EmptyString]
  | String a s' =>
      if Ascii.eqb a c then EmptyString :: str_split c s'
      else match str_split c s' with
           | p :: ps => String a p :: ps
           | [] => [String a EmptyString]
           end
  end.

(** [sep.join(l)] *)
Fixpoint str_join (sep : string) (l : list string) : string :=
  match l with
  | [] => EmptyString
  | [x] => x
  | x :: l' => x +:+ sep +:+ str_join sep l'
  end.

(** [s.replace(c, '')] for a one-character [c]. *)
Fixpoint str_remove (c : ascii) (s : string) : string :=
  match s with
  | EmptyString => EmptyString
  | String a s' =>
      if Ascii.eqb a c then str_remove c s' else String a (str_remove c s')
  end.

(** [s[:n]] *)
Fixpoint str_take (n : nat) (s : string) : string :=
  match n, s with
  | O, _ => EmptyString
  | S _, EmptyString => EmptyString
  | S n', String a s' => String a (str_take n' s')
  end.

(** [s.endswith(c)] for a one-character [c]. *)
Fixpoint str_endswith (c : ascii) (s : string) : bool :=
  match s with
  | EmptyString => false
  | String a EmptyString => Ascii.eqb a c
  | String _ s' => str_endswith c s'
  end.

(** What utils.py and base.py take from the standard library:
    [email.utils.parseaddr], [unicode.strip], [unicode.lower],
    [re.escape], and a compiled pattern, which is its text here:
    [re_compiles p] tells whether [re.compile(p, re.I)] returns (it raises
    [re.error] otherwise) and [re_search p v] whether the compiled pattern
    finds a match in [v]. *)
Record Lib := {
  parseaddr : string -> string * string;
  strip : string -> string;
  lower : string -> string;
  re_escape : string -> string;
  re_compiles : string -> bool;
  re_search : string -> string -> bool
}.

Module utils.

(** [split_email] *)
Definition split_email (L : Lib) (email : string) : string * string :=
  if String.eqb email "" then ("", "")
  else
    let email := snd (parseaddr L (lower L (strip L email))) in
    let '(user, domain) := partition_at email in
    (user, rstrip "." domain).

(** The exceptions [Checker] can end with: [check()] without a value,
    [range()] with a zero step, [re.compile] on a malformed pattern. *)
Inductive error : Type :=
| ValueError_no_value
| ValueError_range_step
| re_error.

Inductive result (A : Type) : Type :=
| Return (a : A)
| Raised (e : error).
Arguments Return {A} a.
Arguments Raised {A} e.

(** [Checker] and its two subclasses, which differ in [prepare_value]. *)
Inductive Class : Type := Checker_class | UserCheck | DomainCheck.

Record Checker := {
  cls : Class;
  patterns : list string;
  escape : bool;
  chunk_size : Z;
  _compiled_patterns : option (list string)
}.

(** [Checker.__init__]; the defaults are [escape=True], [chunk_size=20]. *)
Definition Checker_init (c : Class) (patterns' : list string) (escape' : bool)
    (chunk_size' : Z) : Checker :=
  {| cls := c; patterns := patterns'; escape := escape';
     chunk_size := chunk_size'; _compiled_patterns := None |}.

Definition with_compiled (res : list string) (self : Checker) : Checker :=
  {| cls := cls self; patterns := patterns self; escape := escape self;
     chunk_size := chunk_size self; _compiled_patterns := Some res |}.

(** [prepare_value] of the three classes. *)
Definition prepare_value (L : Lib) (self : Checker) (value : string) : string :=
  match cls self with
  | Checker_class => value
  | UserCheck => fst (split_email L value)
  | DomainCheck =>
      let '(user, domain) := split_email L value in
      if String.eqb domain "" then user else domain
  end.

(** [Checker.prepare_pattern] *)
Definition prepare_pattern (L : Lib) (self : Checker) (pttrn : string) : string :=
  let pttrn := if escape self then re_escape L pttrn else pttrn in
  let pttrn := if String.prefix "^" pttrn then pttrn else "^" +:+ pttrn in
  if str_endswith "$" pttrn then pttrn else pttrn +:+ "$".

(** [range(0, stop, step)] for [0 <= stop]: [None] is the [ValueError] of
    a zero step. *)
Fixpoint range_from (fuel : nat) (i stop step : Z) : list Z :=
  match fuel with
  | O => []
  | S fuel' =>
      if (i <? stop)%Z then i :: range_from fuel' (i + step) stop step else []
  end.

Definition range0 (stop step : Z) : option (list Z) :=
  if (step =? 0)%Z then None
  else if (step <? 0)%Z then Some []
  else Some (range_from (Z.to_nat stop) 0 stop step).

(** [l[i:j]] for [0 <= i]. *)
Definition slice {A} (i j : Z) (l : list A) : list A :=
  take (Z.to_nat (j - i)) (drop (Z.to_nat i) l).

(** [[l[i:i + n] for i in range(0, len(l), n)]] *)
Definition chunks (l : list string) (n : Z) : option (list (list string)) :=
  match range0 (Z.of_nat (length l)) n with
  | None => None
  | Some starts => Some (map (fun i => slice i (i + n) l) starts)
  end.

(** The loop of [compile_patterns] over the chunks. *)
Fixpoint compile_chunks (L : Lib) (self : Checker) (cs : list (list string))
  : result (list string) :=
  match cs with
  | [] => Return []
  | chunk :: rest =>
      let chunk := map (prepare_pattern L self) chunk in
      let pttrn := "(" +:+ str_join ")|(" chunk +:+ ")" in
      if re_compiles L pttrn then
        match compile_chunks L self rest with
        | Return res => Return (pttrn :: res)
        | Raised e => Raised e
        end
      else Raised re_error
  end.

(** [Checker.compile_patterns] *)
Definition compile_patterns (L : Lib) (self : Checker) : result (list string) :=
  match chunks (patterns self) (chunk_size self) with
  | None => Raised ValueError_range_step
  | Some cs => compile_chunks L self cs
  end.

(** The two loops of [check] with their early [return True]. *)
Definition any_match (L : Lib) (self : Checker) (compiled args : list string)
  : bool :=
  existsb (fun value =>
             existsb (fun pttrn => re_search L pttrn (prepare_value L self value))
                     compiled)
          args.

(** [Checker.check] (and [__call__]): the result and the object after the
    call. *)
Definition check (L : Lib) (self : Checker) (args : list string)
  : result bool * Checker :=
  match args with
  | [] => (Raised ValueError_no_value, self)
  | _ :: _ =>
      match _compiled_patterns self with
      | Some ((_ :: _) as compiled) =>
          (Return (any_match L self compiled args), self)
      | _ =>
          match compile_patterns L self with
          | Return compiled =>
              (Return (any_match L self compiled args),
               with_compiled compiled self)
          | Raised e => (Raised e, self)
          end
      end
  end.

End utils.

(** A standard library for plain lower-case input and patterns of
    letters and digits: [parseaddr] finds the address to be the whole
    string, and there is nothing to strip, to lower or to escape. *)
Definition plain_lib (search : string -> string -> bool) : Lib :=
  {| parseaddr := fun s => ("", s);
     strip := fun s => s;
     lower := fun s => s;
     re_escape := fun s => s;
     re_compiles := fun _ => true;
     re_search := search |}.

(** [s.split(c)[0]] *)
Definition before (c : ascii) (s : string) : string :=
  default EmptyString (head (str_split c s)).

(** ** [str.format] with keyword arguments

    Templates of text and replacement fields [{name}] and [{name:.N}]
    over string values, the forms base.py uses.  [NotModelled] stands for
    every other form (positional and empty names, attributes, indices,
    conversions, other format specifications, doubled or unmatched
    braces), some of which raise an exception other than [KeyError].
    A template is read from the left, so a missing key ends the
    formatting before what follows it is looked at. *)
Inductive outcome (A : Type) : Type :=
| Formatted (a : A)
| KeyError
| NotModelled.
Arguments Formatted {A} a.
Arguments KeyError {A}.
Arguments NotModelled {A}.

Inductive format_state : Type :=
| InText
| InName (name : string)
| InSpec (name spec : string).

Definition is_digit (a : ascii) : bool :=
  Nat.leb 48 (nat_of_ascii a) && Nat.leb (nat_of_ascii a) 57.

Fixpoint all_digits (s : string) : bool :=
  match s with
  | EmptyString => true
  | String a s' => is_digit a && all_digits s'
  end.

Fixpoint digits_value (acc : nat) (s : string) : nat :=
  match s with
  | EmptyString => acc
  | String a s' => digits_value (10 * acc + (nat_of_ascii a - 48))%nat s'
  end.

(** A field name that is a key of the keyword arguments. *)
Definition keyword_name (name : string) : bool :=
  match name with
  | EmptyString => false
  | String a _ => negb (is_digit a)
  end.

(** The format specification of a string value: none, or a precision. *)
Definition apply_spec (spec value : string) : outcome string :=
  match spec with
  | EmptyString => Formatted value
  | String "." ((String _ _) as digits) =>
      if all_digits digits then Formatted (str_take (digits_value 0 digits) value)
      else NotModelled
  | _ => NotModelled
  end.

Definition field (get : string -> option string) (name spec : string)
  : outcome string :=
  if keyword_name name then
    match get name with
    | Some value => apply_spec spec value
    | None => KeyError
    end
  else NotModelled.

Definition then_format (value : outcome string) (rest : outcome string)
  : outcome string :=
  match value with
  | Formatted v =>
      match rest with
      | Formatted r => Formatted (v +:+ r)
      | KeyError => KeyError
      | NotModelled => NotModelled
      end
  | KeyError => KeyError
  | NotModelled => NotModelled
  end.

Fixpoint format_from (get : string -> option string) (st : format_state)
    (tmpl : string) : outcome string :=
  match tmpl with
  | EmptyString =>
      match st with
      | InText => Formatted EmptyString
      | _ => NotModelled
      end
  | String a rest =>
      match st with
      | InText =>
          if Ascii.eqb a "{" then format_from get (InName EmptyString) rest
          else if Ascii.eqb a "}" then NotModelled
          else then_format (Formatted (String a EmptyString))
                           (format_from get InText rest)
      | InName name =>
          if Ascii.eqb a "}"
          then then_format (field get name EmptyString)
                           (format_from get InText rest)
          else if Ascii.eqb a ":" then format_from get (InSpec name EmptyString) rest
          else if Ascii.eqb a "{" || Ascii.eqb a "." || Ascii.eqb a "["
                  || Ascii.eqb a "]" || Ascii.eqb a "!"
          then NotModelled
          else format_from get (InName (name +:+ String a EmptyString)) rest
      | InSpec name spec =>
          if Ascii.eqb a "}"
          then then_format (field get name spec) (format_from get InText rest)
          else if Ascii.eqb a "{" then NotModelled
          else format_from get (InSpec name (spec +:+ String a EmptyString)) rest
      end
  end.

Definition format (get : string -> option string) (tmpl : string)
  : outcome string :=
  format_from get InText tmpl.

Module base.

(** The exchange-related checks *)
Definition is_fastmail : utils.Checker :=
  utils.Checker_init utils.DomainCheck
    ["^(.*\.)?fastmail\.com$"; "^(.*\.)?messagingengine\.com$";
     "^(.*\.)?fastmail\.fm$"] false 20.

Definition is_google : utils.Checker :=
  utils.Checker_init utils.DomainCheck
    ["^(.*\.)?google\.com$"; "^(.*\.)?googlemail\.com$";
     "^(.*\.)?gmail\.com$"] false 20.

Definition is_microsoft : utils.Checker :=
  utils.Checker_init utils.DomainCheck
    ["^(.*\.)?hotmail\.com$"; "^(.*\.)?outlook\.com$";
     "^(.*\.)?live\.com$"] false 20.

Definition is_yahoo : utils.Checker :=
  utils.Checker_init utils.DomainCheck
    ["^(.*\.)?yahoodns\.net$"; "^(.*\.)?yahoo\.com$";
     "^(.*\.)?ymail\.com$"] false 20.

(** A call of one of these module-level objects with [args]: the
    answer, which is that of the object as it was made whatever it has
    cached since. *)
Definition called (L : Lib) (checker : utils.Checker) (args : list string)
  : utils.result bool :=
  fst (utils.check L checker args).

(** ['@'.join([user, domain])] *)
Definition address (user domain : string) : string :=
  str_join "@" [user; domain].

(** [normalize] *)
Definition normalize (L : Lib) (email_address : string)
    (exchanges : option (list string)) : utils.result string :=
  let '(user, domain) := utils.split_email L email_address in
  let exchanges :=
    domain :: match exchanges with
              | Some ((_ :: _) as l) => l
              | _ => []
              end in
  match called L is_microsoft exchanges with
  | utils.Raised e => utils.Raised e
  | utils.Return true => utils.Return (address (before "+" user) domain)
  | utils.Return false =>
  match called L is_google exchanges with
  | utils.Raised e => utils.Raised e
  | utils.Return true =>
      utils.Return (address (before "+" (str_remove "." user)) domain)
  | utils.Return false =>
  match called L is_yahoo exchanges with
  | utils.Raised e => utils.Raised e
  | utils.Return true => utils.Return (address (before "-" user) domain)
  | utils.Return false =>
  match called L is_fastmail exchanges with
  | utils.Raised e => utils.Raised e
  | utils.Return true =>
      let domain_parts := str_split "." domain in
      if Nat.ltb 2 (length domain_parts)
      then utils.Return (address (default EmptyString (head domain_parts))
                           (str_join "." (tail domain_parts)))
      else utils.Return (address (before "+" user) domain)
  | utils.Return false => utils.Return (address user domain)
  end end end end.

Definition DEFAULT_EMAIL_TEMPLATES : list string :=
  [ "{first}@{domain}";
    "{last}@{domain}";
    "{first}{last}@{domain}";
    "{first}.{last}@{domain}";
    "{last}{first}@{domain}";
    "{last}.{first}@{domain}";

    "{first:.1}{last}@{domain}";
    "{first:.1}.{last}@{domain}";
    "{first:.1}_{last}@{domain}";
    "{first}{last:.1}@{domain}";
    "{first}.{last:.1}@{domain}";
    "{first}_{last:.1}@{domain}";

    "{last}{first:.1}@{domain}";
    "{last}.{first:.1}@{domain}";
    "{last}_{first:.1}@{domain}";

    "{first}_{last}@{domain}";
    "{last}_{first}@{domain}";
    "{first:.1}{last:.1}@{domain}";
    "{last:.1}{first:.1}@{domain}";
    "{last:.1}{first}@{domain}";
    "{last:.1}.{first}@{domain}";
    "{last:.1}_{first}@{domain}";
    "{first:.1}@{domain}" ].

(** The loop of [guess_emails]: a template whose formatting raises
    [KeyError] is passed over.  [None]: a template is not modelled. *)
Fixpoint guess_loop (L : Lib) (get : string -> option string)
    (templates : list string) : option (list string) :=
  match templates with
  | [] => Some []
  | tmpl :: rest =>
      match format get tmpl with
      | Formatted s =>
          match guess_loop L get rest with
          | Some possible_emails => Some (lower L s :: possible_emails)
          | None => None
          end
      | KeyError => guess_loop L get rest
      | NotModelled => None
      end
  end.

(** [guess_emails]; [data] maps strings to strings. *)
Definition guess_emails (L : Lib) (domain : string) (data : gmap string string)
    (templates : list string) : option (list string) :=
  let data := <["domain" := domain]> data in
  guess_loop L (fun key => data !! key) templates.

End base.

(** A standard library for plain lower-case input whose pattern search
    knows a few names: a value is found by a pattern that mentions the
    provider it belongs to. *)
Definition provider_lib : Lib :=
  plain_lib
    (fun pttrn value =>
       existsb (fun '(provider, name) =>
                  String.eqb value name &&
                  match String.index 0 provider pttrn with
                  | Some _ => true
                  | None => false
                  end)
               [("gmail", "gmail.com"); ("hotmail", "hotmail.com");
                ("yahoo", "yahoo.com"); ("fastmail", "fastmail.com");
                ("fastmail", "bob.fastmail.com");
                ("google", "aspmx.l.google.com")]).

(** * Properties *)

(** ** Histories only grow *)

Lemma adds_refl P tr : adds P tr tr.
Proof. exists []. split; [reflexivity | constructor]. Qed.

Lemma adds_trans P tr1 tr2 tr3 :
  adds P tr1 tr2 -> adds P tr2 tr3 -> adds P tr1 tr3.
Proof.
  intros (evs1 & -> & H1) (evs2 & -> & H2).
  exists (evs2 ++ evs1). split.
  - by rewrite app_assoc.
  - by apply Forall_app.
Qed.

Lemma adds_step (P : Event -> Prop) ev tr : P ev -> adds P tr (ev :: tr).
Proof. intros H. exists [ev]. split; [reflexivity | by constructor]. Qed.

Lemma adds_cons (P : Event -> Prop) ev tr tr' :
  P ev -> adds P (ev :: tr) tr' -> adds P tr tr'.
Proof. intros H. apply adds_trans. by apply adds_step. Qed.


Lemma adds_length P tr tr' : adds P tr tr' -> length tr <= length tr'.
Proof. intros (evs & -> & _). rewrite length_app. lia. Qed.

Lemma count_resolve_app q evs tr :
  count_resolve q (evs ++ tr) = count_resolve q evs + count_resolve q tr.
Proof.
  induction evs as [|ev evs IH]; [reflexivity |].
  destruct ev; simpl; rewrite IH; lia.
Qed.

Lemma adds_count_resolve q tr tr' :
  adds (fun ev => is_resolve ev = false) tr tr' ->
  count_resolve q tr' = count_resolve q tr.
Proof.
  intros (evs & -> & H). rewrite count_resolve_app.
  assert (count_resolve q evs = 0) as ->; [| reflexivity].
  induction H as [|ev evs Hev _ IH]; [reflexivity |].
  destruct ev; simpl in *; try discriminate; exact IH.
Qed.

Lemma connects_app evs tr : connects (evs ++ tr) = connects evs ++ connects tr.
Proof.
  induction evs as [|ev evs IH]; [reflexivity |].
  destruct ev; simpl; by rewrite IH.
Qed.

Lemma adds_connects tr tr' :
  adds (fun ev => is_connect ev = false) tr tr' -> connects tr' = connects tr.
Proof.
  intros (evs & -> & H). rewrite connects_app.
  assert (connects evs = []) as ->; [| reflexivity].
  induction H as [|ev evs Hev _ IH]; [reflexivity |].
  destruct ev; simpl in *; try discriminate; exact IH.
Qed.

Section Adds.

Context {A B : Type} (P : Event -> Prop).

Lemma sm_adds_ret (a : A) : sm_adds P (sm_ret a).
Proof. intros s tr. apply adds_refl. Qed.

Lemma sm_adds_raise e : sm_adds P (@sm_raise A e).
Proof. intros s tr. apply adds_refl. Qed.

Lemma sm_adds_get_self : sm_adds P get_self.
Proof. intros s tr. apply adds_refl. Qed.

Lemma sm_adds_set_smtp v : sm_adds P (set_smtp v).
Proof. intros s tr. apply adds_refl. Qed.

Lemma sm_adds_call ev (reply : Trace -> Res A) : P ev -> sm_adds P (call ev reply).
Proof. intros H s tr. by apply adds_step. Qed.

Lemma sm_adds_bind (m : SM A) (k : A -> SM B) :
  sm_adds P m -> (forall a, sm_adds P (k a)) -> sm_adds P (sm_bind m k).
Proof.
  intros Hm Hk s tr. unfold sm_bind. specialize (Hm s tr).
  destruct (m s tr) as [[[a|e] s'] tr']; simpl in *; [| exact Hm].
  eapply adds_trans; [exact Hm | apply Hk].
Qed.

Lemma sm_adds_try (m : SM A) (handler : exn -> option (SM A)) :
  sm_adds P m -> (forall e h, handler e = Some h -> sm_adds P h) ->
  sm_adds P (try_except m handler).
Proof.
  intros Hm Hh s tr. unfold try_except. specialize (Hm s tr).
  destruct (m s tr) as [[[a|e] s'] tr']; simpl in *; [exact Hm |].
  destruct (handler e) as [h|] eqn:He; [| exact Hm].
  eapply adds_trans; [exact Hm | by eapply Hh].
Qed.

End Adds.

(** Syntax-directed proof that a monadic term only adds events in [P]. *)
Ltac sm_adds_step :=
  match goal with
  | |- sm_adds _ (sm_ret _) => apply sm_adds_ret
  | |- sm_adds _ (sm_raise _) => apply sm_adds_raise
  | |- sm_adds _ get_self => apply sm_adds_get_self
  | |- sm_adds _ (set_smtp _) => apply sm_adds_set_smtp
  | |- sm_adds _ (call _ _) => apply sm_adds_call
  | |- sm_adds _ (sm_bind _ _) => apply sm_adds_bind; [| intros ?]
  | |- sm_adds _ (try_except _ _) => apply sm_adds_try; [| intros [] ? [=<-]]
  | |- sm_adds _ (match ?x with _ => _ end) => destruct x
  | H : (if ?b then _ else _) = Some _ |- _ => destruct b; [injection H as <- | discriminate H]
  end.

Section AddsAfter.

Context {A B : Type} (ev : Event) (P : Event -> Prop).

Lemma sm_after_call (reply : Trace -> Res A) : sm_adds_after ev P (call ev reply).
Proof. intros s tr. apply adds_refl. Qed.

Lemma sm_after_bind (m : SM A) (k : A -> SM B) :
  sm_adds_after ev P m -> (forall a, sm_adds P (k a)) ->
  sm_adds_after ev P (sm_bind m k).
Proof.
  intros Hm Hk s tr. unfold sm_bind. specialize (Hm s tr).
  destruct (m s tr) as [[[a|e] s'] tr']; simpl in *; [| exact Hm].
  eapply adds_trans; [exact Hm | apply Hk].
Qed.

Lemma sm_after_try (m : SM A) (handler : exn -> option (SM A)) :
  sm_adds_after ev P m -> (forall e h, handler e = Some h -> sm_adds P h) ->
  sm_adds_after ev P (try_except m handler).
Proof.
  intros Hm Hh s tr. unfold try_except. specialize (Hm s tr).
  destruct (m s tr) as [[[a|e] s'] tr']; simpl in *; [exact Hm |].
  destruct (handler e) as [h|] eqn:He; [| exact Hm].
  eapply adds_trans; [exact Hm | by eapply Hh].
Qed.

End AddsAfter.

Section SessionAdds.

Variable E : Env.
Variable P : Event -> Prop.
Hypothesis P_quit : forall h, P (EvQuit h).

Lemma quit_adds : sm_adds P (quit E).
Proof. unfold quit. repeat sm_adds_step; auto. Qed.

Lemma lost_connection_adds {A} (a : A) e h :
  lost_connection E a e = Some h -> sm_adds P h.
Proof.
  destruct e; intros [=<-]; repeat first [apply quit_adds | sm_adds_step].
Qed.

Lemma recipients_loop_inactive_adds l : sm_adds P (recipients_loop E false l).
Proof. destruct l; simpl; sm_adds_step. Qed.

Lemma verify_handle_trace e l tr : (verify_handle e l tr).2 = tr.
Proof. destruct e; try reflexivity. by destruct l. Qed.

(** Around a step of the inner generator, [verify_smtp_recipients] only
    quits. *)
Lemma verify_in_session_adds_from tr0 s l g tr :
  adds P tr0 (recipients_next E g s tr).2 ->
  adds P tr0 (verify_in_session E s l g tr).2.
Proof.
  unfold verify_in_session. intros H.
  destruct (recipients_next E g s tr) as [[[[[[e a]|] g']|x] s'] tr'];
    simpl in *; [exact H | |];
    pose proof (quit_adds s' tr') as H';
    destruct (quit E s' tr') as [[[[]|y] s''] tr'']; simpl in *;
    rewrite ?verify_handle_trace; eapply adds_trans; eauto.
Qed.

(** The next recipient is the only one a step of the loop sends a RCPT
    for. *)
Lemma recipients_loop_adds_next active l :
  (forall h r, head l = Some r -> P (EvRcpt h r)) ->
  sm_adds P (recipients_loop E active l).
Proof.
  intros HP. destruct l as [|e l]; simpl; [sm_adds_step |].
  destruct active; [| sm_adds_step].
  apply sm_adds_bind.
  - apply sm_adds_try; [| intros x h; apply lost_connection_adds].
    repeat sm_adds_step; auto.
  - intros [code|]; [sm_adds_step | apply recipients_loop_inactive_adds].
Qed.

(** After the connect, [start] only greets, declares the sender and
    possibly quits. *)
Lemma start_after_connect (P_ehlo : forall h, P (EvEhlo h))
    (P_mail : forall h x, P (EvMail h x)) s tr :
  adds P
    (EvConnect (length tr) (host s)
       :: EvSMTP (length tr) (local_hostname s) (timeout s) (debuglevel s) :: tr)
    (start E s tr).2.
Proof.
  unfold start, get_self, set_smtp. unfold sm_bind at 1 2 3.
  apply sm_after_try.
  - apply sm_after_bind.
    + apply sm_after_try.
      * apply sm_after_bind; [apply sm_after_call |].
        intros code. repeat first [apply quit_adds | sm_adds_step].
      * intros e h He. repeat sm_adds_step.
    + intros _. repeat first [apply quit_adds | sm_adds_step]; auto.
  - intros [] h [=<-]; sm_adds_step.
Qed.

Hypothesis P_rcpt : forall h r, P (EvRcpt h r).

Lemma recipients_loop_adds active l : sm_adds P (recipients_loop E active l).
Proof.
  revert active. induction l as [|e l IH]; intros active; simpl.
  - sm_adds_step.
  - destruct active; [| sm_adds_step].
    apply sm_adds_bind.
    + apply sm_adds_try; [| intros x h; apply lost_connection_adds].
      repeat sm_adds_step; auto.
    + intros [code|]; [sm_adds_step | apply IH].
Qed.

Hypothesis P_smtp : forall h a b c, P (EvSMTP h a b c).
Hypothesis P_connect : forall h x, P (EvConnect h x).
Hypothesis P_ehlo : forall h, P (EvEhlo h).
Hypothesis P_mail : forall h x, P (EvMail h x).

Lemma start_adds : sm_adds P (start E).
Proof.
  intros s tr.
  eapply adds_cons; [apply P_smtp |].
  eapply adds_cons; [apply P_connect |].
  by apply start_after_connect.
Qed.

Lemma restart_adds : sm_adds P (restart E).
Proof.
  unfold restart.
  repeat first [apply quit_adds | apply start_adds | sm_adds_step].
Qed.

Lemma recipients_next_adds g : sm_adds P (recipients_next E g).
Proof.
  destruct g as [l|code rest|rest|]; cbn [recipients_next].
  - sm_adds_step; [sm_adds_step |].
    destruct l; [sm_adds_step |].
    destruct (_smtp a); [apply recipients_loop_adds | sm_adds_step].
  - destruct (code_in code [552; 554]%Z); [| apply recipients_loop_adds].
    apply sm_adds_bind; [| intros ?; apply recipients_loop_adds].
    apply sm_adds_try; [| intros x h; apply lost_connection_adds].
    repeat first [apply restart_adds | sm_adds_step].
  - apply recipients_loop_adds.
  - sm_adds_step.
Qed.

Lemma verify_in_session_adds s l g tr :
  adds P tr (verify_in_session E s l g tr).2.
Proof. apply verify_in_session_adds_from, recipients_next_adds. Qed.

Lemma verify_next_adds g tr : adds P tr (verify_next E g tr).2.
Proof.
  destruct g as [h l opts|s l g|r rest|]; simpl.
  - destruct (unexpected_keywords opts); [| apply adds_refl].
    pose proof (start_adds (SMTPSession_init h opts) tr) as H.
    destruct (start E _ tr) as [[[a|x] s'] tr']; simpl in *.
    + eapply adds_trans; [exact H | apply verify_in_session_adds].
    + by rewrite verify_handle_trace.
  - apply verify_in_session_adds.
  - destruct rest; apply adds_refl.
  - apply adds_refl.
Qed.

Lemma verify_close_adds g tr : adds P tr (verify_close E g tr).
Proof. destruct g; simpl; try apply adds_refl. apply quit_adds. Qed.

Lemma verify_smtp_recipient_adds h e opts tr :
  adds P tr (verify_smtp_recipient E h e opts tr).2.
Proof.
  unfold verify_smtp_recipient.
  pose proof (verify_next_adds (verify_smtp_recipients h [e] opts) tr) as H.
  destruct (verify_next E _ tr) as [[[[r|]|x] g] tr']; simpl in *; try exact H.
  eapply adds_trans; [exact H | apply verify_close_adds].
Qed.

End SessionAdds.

(** ** What the SMTP phase leaves alone *)

Lemma frame_set_probe r c x a : frame (set_probe r c x a) = frame a.
Proof. reflexivity. Qed.

Lemma frame_finalize a : frame (finalize a) = frame a.
Proof. reflexivity. Qed.

Lemma alter_frame (f : EmailAddress -> EmailAddress) (i : nat)
    (l : list EmailAddress) :
  (forall a, frame (f a) = frame a) -> frame <$> alter f i l = frame <$> l.
Proof.
  intros Hf. revert i. induction l as [|a l IH]; intros [|i]; simpl; try done.
  - by rewrite Hf.
  - f_equal. apply IH.
Qed.

Lemma update_all_frame f group (l : list EmailAddress) :
  (forall a, frame (f a) = frame a) ->
  frame <$> update_all f group l = frame <$> l.
Proof.
  intros Hf. unfold update_all. revert l.
  induction group as [|i group IH]; intros l; simpl; [done |].
  rewrite IH. by apply alter_frame.
Qed.

Section SecondLoop.

Variable E : Env.
Variable P : Event -> Prop.
Hypothesis P_quit : forall h, P (EvQuit h).
Hypothesis P_rcpt : forall h r, P (EvRcpt h r).
Hypothesis P_smtp : forall h a b c, P (EvSMTP h a b c).
Hypothesis P_connect : forall h x, P (EvConnect h x).
Hypothesis P_ehlo : forall h, P (EvEhlo h).
Hypothesis P_mail : forall h x, P (EvMail h x).
Hypothesis P_uuid : P EvUuid4.

Lemma izip_probe_inv x c group it l tr :
  adds P tr (izip_probe E x c group it l tr).2 /\
  forall l', (izip_probe E x c group it l tr).1.1 = Ok l' ->
             frame <$> l' = frame <$> l.
Proof.
  revert it l tr. induction group as [|i group IH]; intros it l tr; simpl.
  - split; [apply adds_refl | by intros l' [= <-]].
  - pose proof (verify_next_adds E P P_quit P_rcpt P_smtp P_connect P_ehlo
                  P_mail it tr) as H.
    destruct (verify_next E it tr) as [[[[[[e a] r]|]|y] it'] tr']; simpl in *.
    + destruct (IH it' (alter (set_probe r c x) i l) tr') as [IH1 IH2].
      split; [by eapply adds_trans |].
      intros l' Hl'. rewrite (IH2 l' Hl').
      apply alter_frame, frame_set_probe.
    + split; [done | by intros l' [= <-]].
    + split; [done | by intros l' [=]].
Qed.

Lemma probe_exchanges_inv exs cae group emails opts l it tr :
  adds P tr (probe_exchanges E exs cae group emails opts l it tr).2 /\
  forall l' it',
    (probe_exchanges E exs cae group emails opts l it tr).1 = Ok (l', it') ->
    frame <$> l' = frame <$> l.
Proof.
  revert tr. induction exs as [|ex exs IH]; intros tr; simpl.
  - split; [apply adds_refl | by intros l' it' [= <- _]].
  - pose proof (verify_smtp_recipient_adds E P P_quit P_rcpt P_smtp P_connect
                  P_ehlo P_mail (ex_exchange ex) cae opts tr) as H.
    destruct (verify_smtp_recipient E _ cae opts tr)
      as [[[[e ca] r]|y] tr']; simpl in *;
      [| split; [done | by intros l' it' [=]]].
    destruct (String.eqb r "no_connect").
    { destruct (IH tr') as [IH1 IH2]. split; [by eapply adds_trans | done]. }
    destruct ca.
    { split; [done |]. intros l' it' [= <- _].
      apply update_all_frame, frame_set_probe. }
    set (tr'' := from_option (fun old => verify_close E old tr') tr' it).
    assert (adds P tr' tr'') as Hclose.
    { subst tr''. destruct it; simpl; [| apply adds_refl].
      by apply verify_close_adds. }
    destruct (izip_probe_inv (ex_exchange ex) false group
                (verify_smtp_recipients (ex_exchange ex) emails opts) l tr'')
      as [H1 H2].
    destruct (izip_probe E _ false group _ l tr'') as [[[l1|y] it1] tr1];
      simpl in *.
    + split; [eauto using adds_trans |].
      intros l' it' [= <- _]. by apply H2.
    + split; [eauto using adds_trans | by intros l' it' [=]].
Qed.

Lemma inspect_group_inv opts d group l it tr :
  adds P tr (inspect_group E opts d group l it tr).2 /\
  forall l' it',
    (inspect_group E opts d group l it tr).1 = Ok (l', it') ->
    frame <$> l' = frame <$> l.
Proof.
  unfold inspect_group. destruct group as [|first group'].
  - split; [apply adds_refl | by intros l' it' [=]].
  - match goal with
    | |- context [probe_exchanges E ?exs ?cae ?g ?em ?o l it ?t] =>
        destruct (probe_exchanges_inv exs cae g em o l it t) as [H1 H2]
    end.
    split; [| exact H2].
    eapply adds_cons; [exact P_uuid | exact H1].
Qed.

Lemma inspect_groups_inv opts groups l it tr :
  adds P tr (inspect_groups E opts groups l it tr).2 /\
  forall l' it',
    (inspect_groups E opts groups l it tr).1 = Ok (l', it') ->
    frame <$> l' = frame <$> l.
Proof.
  revert l it tr. induction groups as [|[d group] groups IH]; intros l it tr; simpl.
  - split; [apply adds_refl | by intros l' it' [= <- _]].
  - destruct (inspect_group_inv opts d group l it tr) as [H1 H2].
    destruct (inspect_group E opts d group l it tr) as [[[l1 it1]|y] tr1];
      simpl in *; [| split; [done | by intros l' it' [=]]].
    destruct (IH l1 it1 tr1) as [IH1 IH2].
    split; [by eapply adds_trans |].
    intros l' it' Hl'. rewrite (IH2 l' it' Hl'). by eapply H2.
Qed.

End SecondLoop.

(** ** The first loop *)

Section FirstLoop.

Variable E : Env.

Lemma resolve_mx_records_count d r tr d' :
  count_resolve d' (resolve_mx_records E d r tr).2 =
  (if String.eqb d d' then 1 else 0) + count_resolve d' tr.
Proof.
  unfold resolve_mx_records.
  destruct (negb (dns E)); [reflexivity |].
  destruct (dns_resolver_query E _ _) as [ans|[]]; try reflexivity.
  by destruct r.
Qed.

Lemma cache_counts_bound tr0 mx_cache tr :
  cache_counts tr0 mx_cache tr ->
  forall d, count_resolve d tr <= count_resolve d tr0 + 1.
Proof. intros H d. rewrite (H d). destruct (mx_cache !! d); lia. Qed.

Lemma cached_exchanges_inv tr0 d (mx_cache : gmap string (list Exchange)) tr :
  cache_counts tr0 mx_cache tr ->
  match cached_exchanges E d mx_cache tr with
  | (Ok (exs, mx_cache'), tr') =>
      cache_counts tr0 mx_cache' tr' /\ mx_cache' !! d = Some exs /\
      mx_cache ⊆ mx_cache'
  | (Raise _, tr') => forall d', count_resolve d' tr' <= count_resolve d' tr0 + 1
  end.
Proof.
  intros Hinv. unfold cached_exchanges.
  destruct (mx_cache !! d) as [exs|] eqn:Hd; [done |].
  pose proof (resolve_mx_records_count d false tr) as Hc.
  destruct (resolve_mx_records E d false tr) as [[exs|e] tr']; simpl in Hc.
  - split; [| split].
    + intros d'. rewrite Hc, (Hinv d').
      destruct (String.eqb_spec d d') as [<-|Hne].
      * rewrite lookup_insert_eq, Hd. lia.
      * by rewrite lookup_insert_ne.
    + apply lookup_insert_eq.
    + by apply insert_subseteq.
  - intros d'. rewrite Hc, (Hinv d').
    destruct (String.eqb_spec d d') as [<-|Hne].
    + rewrite Hd. lia.
    + destruct (mx_cache !! d'); lia.
Qed.

Lemma set_resolved_frame exs a :
  query (set_resolved E exs a) = query a /\
  valid (set_resolved E exs a) = Some true /\
  all_exchanges (set_resolved E exs a) = Some exs /\
  gibberish (set_resolved E exs a) = gibberish a.
Proof. unfold set_resolved. by destruct (split_email E _). Qed.

Lemma inspect_addresses_inv tr0 l (mx_cache : gmap string (list Exchange)) tr :
  cache_counts tr0 mx_cache tr ->
  match inspect_addresses E l mx_cache tr with
  | (Ok (l', mx_cache'), tr') =>
      cache_counts tr0 mx_cache' tr' /\ mx_cache ⊆ mx_cache' /\
      Forall (resolved_in E mx_cache') l' /\
      query <$> l' = query <$> l /\ gibberish <$> l' = gibberish <$> l
  | (Raise _, tr') => forall d, count_resolve d tr' <= count_resolve d tr0 + 1
  end.
Proof.
  revert mx_cache tr. induction l as [|a l IH]; intros mx_cache tr Hinv; simpl.
  { by repeat split. }
  unfold inspect_address.
  destruct (negb (is_valid_address E (query a))).
  - specialize (IH mx_cache tr Hinv).
    destruct (inspect_addresses E l mx_cache tr) as [[[l' c']|e] tr']; [| done].
    destruct IH as (H1 & H2 & H3 & H4 & H5).
    repeat split; try done.
    + constructor; [| done]. by intros [=].
    + rewrite !fmap_cons. by rewrite H4.
    + rewrite !fmap_cons. by rewrite H5.
  - pose proof (cached_exchanges_inv tr0 (split_email E (query a)).2
                  mx_cache tr Hinv) as Hc.
    destruct (cached_exchanges E _ mx_cache tr) as [[[exs c1]|e] tr1]; [| done].
    destruct Hc as (Hc1 & Hc2 & Hc3).
    specialize (IH c1 tr1 Hc1).
    destruct (inspect_addresses E l c1 tr1) as [[[l' c']|e] tr']; [| done].
    destruct IH as (H1 & H2 & H3 & H4 & H5).
    destruct (set_resolved_frame exs a) as (Fq & Fv & Fx & Fg).
    repeat split; try done.
    + by etrans.
    + constructor; [| done]. intros _. unfold query_domain.
      rewrite Fx, Fq. split; [by eexists |].
      symmetry. by eapply lookup_weaken.
    + rewrite !fmap_cons. by rewrite Fq, H4.
    + rewrite !fmap_cons. by rewrite Fg, H5.
Qed.

End FirstLoop.

(** ** The last loop *)

Lemma with_exchanges_NoDup l : NoDup (with_exchanges l).
Proof. unfold with_exchanges. apply NoDup_filter, NoDup_seq. Qed.

Lemma elem_of_with_exchanges l i :
  i ∈ with_exchanges l <-> exists a, l !! i = Some a /\ has_exchanges a = true.
Proof.
  unfold with_exchanges. rewrite list_elem_of_filter, elem_of_seq. split.
  - intros [H _]. destruct (l !! i) as [a|]; [by exists a | done].
  - intros (a & Ha & Hx). rewrite Ha. split; [done |].
    apply lookup_lt_Some in Ha. lia.
Qed.

Lemma update_all_lookup (f : EmailAddress -> EmailAddress) group
    (l : list EmailAddress) i :
  NoDup group ->
  update_all f group l !! i =
  if decide (i ∈ group) then f <$> l !! i else l !! i.
Proof.
  unfold update_all. intros Hnd. revert l.
  induction Hnd as [|j group Hj Hnd IH]; intros l; cbn [foldl].
  - case_decide as H; [by apply elem_of_nil in H | done].
  - rewrite IH. destruct (decide (i = j)) as [->|Hne].
    + rewrite list_lookup_alter_eq.
      rewrite (decide_False (P := j ∈ group)) by done.
      by rewrite (decide_True (P := j ∈ j :: group)) by apply list_elem_of_here.
    + rewrite list_lookup_alter_ne by done.
      destruct (decide (i ∈ group)) as [Hi|Hi].
      * by rewrite (decide_True (P := i ∈ j :: group))
          by by apply list_elem_of_further.
      * rewrite (decide_False (P := i ∈ j :: group)); [done |].
        by intros [?|?]%elem_of_cons.
Qed.

Lemma final_status_finalize a : final_status (finalize a) = final_status a.
Proof. reflexivity. Qed.

Lemma has_exchanges_frame a b : frame a = frame b -> has_exchanges a = has_exchanges b.
Proof. unfold frame, has_exchanges. by intros [= _ _ -> _]. Qed.

(** ** [inspect_list] as a whole *)

Lemma frame_lookup (l l' : list EmailAddress) i a :
  frame <$> l = frame <$> l' -> l !! i = Some a ->
  exists a', l' !! i = Some a' /\ frame a = frame a'.
Proof.
  intros Hf Ha.
  assert ((frame <$> l') !! i = Some (frame a)) as H.
  { by rewrite <- Hf, list_lookup_fmap, Ha. }
  rewrite list_lookup_fmap in H.
  destruct (l' !! i) as [a'|]; [| done].
  exists a'. split; [done |]. simpl in H. congruence.
Qed.

Lemma frame_query (l l' : list EmailAddress) :
  frame <$> l = frame <$> l' -> query <$> l = query <$> l'.
Proof.
  intros H.
  change query with ((fun p : string * option bool * option (list Exchange) * bool
                      => p.1.1.1) ∘ frame).
  by rewrite !list_fmap_compose, H.
Qed.

Lemma query_init inputs : query <$> map EmailAddress_init inputs = inputs.
Proof.
  induction inputs as [|q inputs IH]; [done |].
  cbn [map]. rewrite fmap_cons. by rewrite IH.
Qed.

Lemma gibberish_init inputs :
  Forall (fun g => g = false) (gibberish <$> map EmailAddress_init inputs).
Proof. induction inputs; simpl; by constructor. Qed.

(** A call that returns went through the three loops. *)
Lemma inspect_list_ok E inputs opts tr0 rs tr :
  inspect_list E inputs opts tr0 = (Ok rs, tr) ->
  exists l1 mx_cache tr1 l2,
    inspect_addresses E (map EmailAddress_init inputs) ∅ tr0
      = (Ok (l1, mx_cache), tr1) /\
    frame <$> l2 = frame <$> l1 /\
    rs = update_all finalize (with_exchanges l1) l2 /\
    adds no_resolve tr1 tr.
Proof.
  unfold inspect_list. destruct (extra_opts opts); [| done].
  destruct (inspect_addresses E _ ∅ tr0) as [[[l1 c]|e] tr1]; [| done].
  match goal with
  | |- context [inspect_groups E opts ?gs l1 None tr1] =>
      destruct (inspect_groups_inv E no_resolve) with (opts := opts)
        (groups := gs) (l := l1) (it := @None verify_gen) (tr := tr1)
        as [H1 H2]; try done;
      destruct (inspect_groups E opts gs l1 None tr1) as [[[l2 it]|e] tr2];
        [| done]
  end.
  intros [= <- <-]. exists l1, c, tr1, l2. repeat split; try done.
  - by eapply H2.
  - simpl in H1. eapply adds_trans; [exact H1 |].
    destruct it; simpl; [| apply adds_refl].
    by apply verify_close_adds.
Qed.

(** When [inspect_list] returns, it returns one record per input address,
    in the order of the input. *)
Lemma inspect_list_queries E inputs opts tr0 rs tr :
  inspect_list E inputs opts tr0 = (Ok rs, tr) -> query <$> rs = inputs.
Proof.
  intros (l1 & c & tr1 & l2 & H1 & H2 & -> & _)%inspect_list_ok.
  pose proof (inspect_addresses_inv E tr0 (map EmailAddress_init inputs) ∅ tr0)
    as Hinv.
  rewrite H1 in Hinv. destruct Hinv as (_ & _ & _ & Hq & _).
  { intros d. rewrite lookup_empty. lia. }
  rewrite (frame_query _ l2) by (apply update_all_frame, frame_finalize).
  by rewrite (frame_query _ _ H2), Hq, query_init.
Qed.

(** * The claims *)

(** ** C10: [inspect] is [inspect_list] on a one-element list *)

(** C10. For every address and every keyword options, [inspect] behaves
    as [inspect_list] on the one-element list: when [inspect_list] returns,
    its result has exactly one record, that record is for the given
    address, and [inspect] returns it (the index 0 is never out of range);
    when [inspect_list] raises, [inspect] raises the same exception.  The
    calls made to the outside are the same in both cases. *)
Theorem inspect_is_head_of_inspect_list E email_address kwargs tr :
  match inspect_list E [email_address] kwargs tr with
  | (Ok addresses, tr') =>
      exists addr, addresses = [addr] /\ query addr = email_address /\
                   inspect E email_address kwargs tr = (Ok addr, tr')
  | (Raise e, tr') => inspect E email_address kwargs tr = (Raise e, tr')
  end.
Proof.
  unfold inspect.
  destruct (inspect_list E [email_address] kwargs tr) as [[rs|e] tr'] eqn:H;
    [| reflexivity].
  apply inspect_list_queries in H.
  destruct rs as [|addr [|addr' rs]]; try discriminate H.
  injection H as H. by exists addr.
Qed.

(** ** C2: the status of an address that was probed *)

(** C2. When [inspect_list] returns, every record with resolvable
    exchanges has its status decided by its reason and flags: reason
    [accepted_email], not disposable, not catch-all gives [deliverable];
    reason [accepted_email] and disposable or catch-all gives [risky]; any
    other reason gives [undeliverable].  The gibberish flag of such a
    record is never set. *)
Theorem status_of_probed_address E email_addresses smtp_opts tr0 addresses tr addr :
  inspect_list E email_addresses smtp_opts tr0 = (Ok addresses, tr) ->
  addr ∈ addresses ->
  has_exchanges addr = true ->
  gibberish addr = false /\
  (reason addr = Some "accepted_email" ->
   truthy (disposable addr) = false -> catch_all addr = false ->
   status addr = DELIVERABLE) /\
  (reason addr = Some "accepted_email" ->
   truthy (disposable addr) = true \/ catch_all addr = true ->
   status addr = RISKY) /\
  (reason addr <> Some "accepted_email" -> status addr = UNDELIVERABLE).
Proof.
  intros Hrun [i Hi]%list_elem_of_lookup Hx.
  destruct (inspect_list_ok _ _ _ _ _ _ Hrun)
    as (l1 & c & tr1 & l2 & H1 & H2 & -> & _).
  pose proof (inspect_addresses_inv E tr0 (map EmailAddress_init email_addresses)
                ∅ tr0) as Hinv.
  rewrite H1 in Hinv. destruct Hinv as (_ & _ & _ & _ & Hg).
  { intros d. rewrite lookup_empty. lia. }
  rewrite update_all_lookup in Hi by apply with_exchanges_NoDup.
  (* the record before the last loop, and after the first *)
  assert (exists a2, l2 !! i = Some a2 /\ frame addr = frame a2 /\
                     (i ∈ with_exchanges l1 -> addr = finalize a2)) as
      (a2 & Ha2 & Hf2 & Hfin).
  { destruct (decide (i ∈ with_exchanges l1)).
    - destruct (l2 !! i) as [a2|]; [| done]. injection Hi as <-.
      by exists a2.
    - by exists addr. }
  destruct (frame_lookup _ _ _ _ H2 Ha2) as (a1 & Ha1 & Hf1).
  assert (i ∈ with_exchanges l1) as Hin.
  { apply elem_of_with_exchanges. exists a1. split; [done |].
    rewrite <- Hx. symmetry. apply has_exchanges_frame. congruence. }
  specialize (Hfin Hin).
  assert (status addr = final_status addr) as Hst by (by subst addr).
  assert (gibberish addr = false) as Hgib.
  { assert (gibberish addr = gibberish a1) as ->.
    { assert (frame addr = frame a1) as Hf by congruence.
      unfold frame in Hf. by injection Hf. }
    pose proof (gibberish_init email_addresses) as Hall.
    rewrite <- Hg in Hall.
    eapply (Forall_lookup_1 _ _ i) in Hall; [exact Hall |].
    by rewrite list_lookup_fmap, Ha1. }
  rewrite Hst. unfold final_status. rewrite Hgib.
  split; [done |]. split; [| split].
  - intros -> -> ->. reflexivity.
  - intros -> [-> | ->]; simpl; [done |]. by rewrite orb_true_r.
  - intros Hr. destruct (reason addr) as [r|]; [| done].
    destruct (String.eqb_spec r "accepted_email") as [->|]; done.
Qed.

(** ** C8: MX resolution is memoized per domain *)

Lemma cache_counts_empty tr0 : cache_counts tr0 ∅ tr0.
Proof. intros d. rewrite lookup_empty. lia. Qed.

Lemma inspect_list_ok_frame E inputs opts tr0 rs tr :
  inspect_list E inputs opts tr0 = (Ok rs, tr) ->
  exists l1 mx_cache tr1,
    inspect_addresses E (map EmailAddress_init inputs) ∅ tr0
      = (Ok (l1, mx_cache), tr1) /\
    frame <$> rs = frame <$> l1 /\
    adds no_resolve tr1 tr.
Proof.
  intros (l1 & c & tr1 & l2 & H1 & H2 & -> & H3)%inspect_list_ok.
  exists l1, c, tr1. repeat split; try done.
  rewrite <- H2. apply update_all_frame, frame_finalize.
Qed.

(** Whatever the outcome, no domain is resolved twice. *)
Lemma inspect_list_resolves_once E inputs opts tr0 d :
  count_resolve d (inspect_list E inputs opts tr0).2 <= count_resolve d tr0 + 1.
Proof.
  unfold inspect_list. destruct (extra_opts opts); [| simpl; lia].
  pose proof (inspect_addresses_inv E tr0 (map EmailAddress_init inputs) ∅ tr0
                (cache_counts_empty tr0)) as Hinv.
  destruct (inspect_addresses E _ ∅ tr0) as [[[l1 c]|e] tr1]; [| apply Hinv].
  destruct Hinv as (Hc & _).
  match goal with
  | |- context [inspect_groups E opts ?gs l1 None tr1] =>
      destruct (inspect_groups_inv E no_resolve) with (opts := opts)
        (groups := gs) (l := l1) (it := @None verify_gen) (tr := tr1)
        as [H1 _]; try done;
      destruct (inspect_groups E opts gs l1 None tr1) as [[[l2 it]|e] tr2]
  end; simpl in *.
  - assert (adds no_resolve tr1 (from_option (fun g => verify_close E g tr2) tr2 it))
      as H.
    { eapply adds_trans; [exact H1 |].
      destruct it; simpl; [| apply adds_refl]. by apply verify_close_adds. }
    rewrite (adds_count_resolve _ _ _ H). by eapply cache_counts_bound.
  - rewrite (adds_count_resolve _ _ _ H1). by eapply cache_counts_bound.
Qed.

(** C8. Within one call of [inspect_list] no domain is passed to
    [resolve_mx_records] more than once, whatever the outcome of the call;
    and when the call returns, two valid addresses with the same domain
    carry the same list of exchanges, and their domain was resolved
    exactly once. *)
Theorem mx_resolution_memoized E email_addresses smtp_opts tr0 :
  (forall d,
     count_resolve d (inspect_list E email_addresses smtp_opts tr0).2
     <= count_resolve d tr0 + 1) /\
  (forall addresses tr a b,
     inspect_list E email_addresses smtp_opts tr0 = (Ok addresses, tr) ->
     a ∈ addresses -> b ∈ addresses ->
     valid a = Some true -> valid b = Some true ->
     query_domain E a = query_domain E b ->
     is_Some (all_exchanges a) /\
     all_exchanges a = all_exchanges b /\
     count_resolve (query_domain E a) tr
       = count_resolve (query_domain E a) tr0 + 1).
Proof.
  split; [intros d; apply inspect_list_resolves_once |].
  intros rs tr a b Hrun [i Ha]%list_elem_of_lookup [j Hb]%list_elem_of_lookup
    Hva Hvb Hd.
  destruct (inspect_list_ok_frame _ _ _ _ _ _ Hrun) as (l1 & c & tr1 & H1 & H2 & H3).
  pose proof (inspect_addresses_inv E tr0 (map EmailAddress_init email_addresses)
                ∅ tr0 (cache_counts_empty tr0)) as Hinv.
  rewrite H1 in Hinv. destruct Hinv as (Hc & _ & Hres & _).
  destruct (frame_lookup _ _ _ _ H2 Ha) as (a1 & Ha1 & Hfa).
  destruct (frame_lookup _ _ _ _ H2 Hb) as (b1 & Hb1 & Hfb).
  unfold frame in Hfa, Hfb.
  injection Hfa as Hqa Hvla Hxa _. injection Hfb as Hqb Hvlb Hxb _.
  pose proof (Forall_lookup_1 _ _ _ _ Hres Ha1) as Ra.
  pose proof (Forall_lookup_1 _ _ _ _ Hres Hb1) as Rb.
  unfold resolved_in, query_domain in *.
  rewrite <- Hqa, <- Hvla, <- Hxa in Ra. rewrite <- Hqb, <- Hvlb, <- Hxb in Rb.
  destruct (Ra Hva) as [Sa Ea]. destruct (Rb Hvb) as [Sb Eb].
  split; [done |]. split; [by rewrite Ea, Eb, Hd |].
  rewrite (adds_count_resolve _ _ _ H3), (Hc _), <- Ea.
  by destruct Sa as [x ->].
Qed.

(** ** C9: [resolve_mx_records] *)

Lemma insert_by_preference_perm x l :
  Permutation (insert_by_preference x l) (x :: l).
Proof.
  induction l as [|y l IH]; simpl; [done |].
  destruct (ex_preference x <=? ex_preference y)%Z; [done |].
  rewrite IH. apply perm_swap.
Qed.

Lemma sort_by_preference_perm l : Permutation (sort_by_preference l) l.
Proof.
  induction l as [|x l IH]; simpl; [done |].
  by rewrite insert_by_preference_perm, IH.
Qed.

Lemma insert_by_preference_sorted x l :
  StronglySorted le_preference l ->
  StronglySorted le_preference (insert_by_preference x l).
Proof.
  induction 1 as [|y l Hl IH Hy]; simpl.
  - repeat constructor.
  - destruct (Z.leb_spec (ex_preference x) (ex_preference y)) as [Hxy|Hxy].
    + constructor; [by constructor |].
      constructor; [done |].
      eapply Forall_impl; [exact Hy |].
      unfold le_preference. intros z Hz. lia.
    + constructor; [done |].
      rewrite insert_by_preference_perm.
      constructor; [unfold le_preference; lia | done].
Qed.

Lemma sort_by_preference_sorted l :
  StronglySorted le_preference (sort_by_preference l).
Proof.
  induction l; simpl; [constructor | by apply insert_by_preference_sorted].
Qed.

(** Stability: among the exchanges of one preference the order does not
    change. *)
Lemma insert_by_preference_stable p x l :
  filter (fun ex => ex_preference ex = p) (insert_by_preference x l) =
  filter (fun ex => ex_preference ex = p) (x :: l).
Proof.
  induction l as [|y l IH]; simpl; [done |].
  destruct (Z.leb_spec (ex_preference x) (ex_preference y)) as [Hxy|Hxy];
    [done |].
  rewrite (filter_cons _ y), IH, !filter_cons.
  repeat case_decide; try done; lia.
Qed.

Lemma sort_by_preference_stable p l :
  filter (fun ex => ex_preference ex = p) (sort_by_preference l) =
  filter (fun ex => ex_preference ex = p) l.
Proof.
  induction l as [|x l IH]; simpl; [done |].
  by rewrite insert_by_preference_stable, !filter_cons, IH.
Qed.

Lemma str_find_lower c s : (-1 <= str_find c s)%Z.
Proof.
  induction s as [|a s IH]; simpl; [done |].
  destruct (Ascii.eqb a c); [done |].
  destruct (Z.ltb_spec (str_find c s) 0); lia.
Qed.

Lemma str_find_prefix local d :
  str_find "@" local = (-1)%Z ->
  str_find "@" (local +:+ "@" +:+ d) = Z.of_nat (String.length local).
Proof.
  induction local as [|a local IH]; simpl; [done |].
  destruct (Ascii.eqb a "@"); [done |].
  pose proof (str_find_lower "@" local).
  destruct (Z.ltb_spec (str_find "@" local) 0) as [Hlt|Hge]; [| lia].
  intros _. rewrite IH by lia.
  destruct (Z.ltb_spec (Z.of_nat (String.length local)) 0); lia.
Qed.

Lemma str_drop_prefix local d :
  str_drop (S (String.length local)) (local +:+ "@" +:+ d) = d.
Proof. induction local as [|a local IH]; simpl; [done | exact IH]. Qed.

Lemma lookup_name_strips local d :
  str_find "@" local = (-1)%Z -> lookup_name (local +:+ "@" +:+ d) = d.
Proof.
  intros H. unfold lookup_name, slice_from. rewrite (str_find_prefix _ _ H).
  destruct (Z.ltb_spec (Z.of_nat (String.length local) + 1) 0); [lia |].
  replace (Z.to_nat (Z.of_nat (String.length local) + 1))
    with (S (String.length local)) by lia.
  apply str_drop_prefix.
Qed.

Lemma lookup_name_plain qname :
  str_find "@" qname = (-1)%Z -> lookup_name qname = qname.
Proof. intros H. unfold lookup_name. by rewrite H. Qed.

Lemma append_not_empty t c : t +:+ String c "" <> "".
Proof. by destruct t. Qed.

Lemma rstrip_no_suffix c s t : rstrip c s <> t +:+ String c "".
Proof.
  revert t. induction s as [|a s IH]; intros t; simpl.
  { intros H. symmetry in H. by apply append_not_empty in H. }
  destruct (rstrip c s) as [|b r] eqn:Hr.
  - destruct (Ascii.eqb_spec a c) as [->|Hne].
    + intros H. symmetry in H. by apply append_not_empty in H.
    + destruct t as [|b t]; simpl; [by intros [= ?] |].
      intros [= _ H]. symmetry in H. by apply append_not_empty in H.
  - destruct t as [|b' t]; simpl; [by intros [=] |].
    intros [= _ H]. by apply (IH t).
Qed.

Lemma rstrip_unchanged c s :
  (forall t, s <> t +:+ String c "") -> rstrip c s = s.
Proof.
  induction s as [|a s IH]; intros Hs; simpl; [done |].
  destruct s as [|b s].
  - simpl. destruct (Ascii.eqb_spec a c) as [->|]; [| done].
    by destruct (Hs "").
  - rewrite IH; [done |]. intros t Ht. apply (Hs (String a t)). simpl. by rewrite Ht.
Qed.

Lemma partition_at_spec s u d :
  partition_at s = (u, d) ->
  str_find "@" u = (-1)%Z /\
  (str_find "@" s = (-1)%Z -> u = s /\ d = "") /\
  (str_find "@" s <> (-1)%Z -> s = u +:+ "@" +:+ d).
Proof.
  revert u d. induction s as [|a s IH]; intros u d; simpl.
  - intros [= <- <-]. by repeat split.
  - destruct (Ascii.eqb_spec a "@") as [->|Hne].
    + intros [= <- <-]. by repeat split.
    + destruct (partition_at s) as [u' d'] eqn:Hp.
      destruct (IH _ _ eq_refl) as (H1 & H2 & H3).
      intros [= <- <-]. simpl.
      destruct (Ascii.eqb_spec a "@") as [|_]; [done |].
      rewrite H1. simpl. split; [done |].
      pose proof (str_find_lower "@" s) as Hl.
      destruct (Z.ltb_spec (str_find "@" s) 0).
      * assert (str_find "@" s = (-1)%Z) as Hs by lia.
        destruct (H2 Hs) as [-> ->]. by split.
      * split; [lia |]. intros _. rewrite (H3 ltac:(lia)) at 1. done.
Qed.

(** C9. With dnspython present, [resolve_mx_records] looks up the part of
    its argument after the first ['@'] (the whole argument when there is
    none); from an answer it returns one exchange for each MX record of the
    answer, with the preference of the record and its host name without
    final dots, sorted by ascending preference, records of equal
    preference in the order of the answer; on a [DNSException] it returns
    the empty list, and raises the exception only when [raise_exception]
    is set. *)
Theorem resolve_mx_records_spec E qname raise_exception tr :
  dns E = true ->
  let name := lookup_name qname in
  let tr1 := EvResolve qname :: tr in
  (forall local d, qname = local +:+ "@" +:+ d ->
                   str_find "@" local = (-1)%Z -> name = d) /\
  (str_find "@" qname = (-1)%Z -> name = qname) /\
  (str_find "@" qname <> (-1)%Z ->
   exists local d, qname = local +:+ "@" +:+ d /\
                   str_find "@" local = (-1)%Z /\ name = d) /\
  (resolve_mx_records E qname raise_exception tr).2 = EvDnsQuery name :: tr1 /\
  (forall answer,
     dns_resolver_query E tr1 name = Ok answer ->
     let records :=
       map (fun mx => {| ex_exchange := rstrip "." (mx_exchange_text mx);
                         ex_preference := mx_preference mx |}) answer in
     exists exchanges,
       (resolve_mx_records E qname raise_exception tr).1 = Ok exchanges /\
       Permutation exchanges records /\
       StronglySorted le_preference exchanges /\
       (forall p, filter (fun ex => ex_preference ex = p) exchanges =
                  filter (fun ex => ex_preference ex = p) records) /\
       Forall (fun ex => forall t, ex_exchange ex <> t +:+ ".") exchanges /\
       (forall mx, mx ∈ answer ->
          (forall t, mx_exchange_text mx <> t +:+ ".") ->
          {| ex_exchange := mx_exchange_text mx;
             ex_preference := mx_preference mx |} ∈ exchanges)) /\
  (dns_resolver_query E tr1 name = Raise DNSException ->
   (resolve_mx_records E qname raise_exception tr).1 =
   if raise_exception then Raise DNSException else Ok []).
Proof.
  intros Hdns name tr1. unfold resolve_mx_records. rewrite Hdns. simpl.
  fold name tr1.
  split; [intros local d ->; apply lookup_name_strips |].
  split; [apply lookup_name_plain |].
  split.
  { intros Hat. destruct (partition_at qname) as [local d] eqn:Hp.
    destruct (partition_at_spec _ _ _ Hp) as (H1 & _ & H3).
    exists local, d. split; [by apply H3 |]. split; [done |].
    subst name. rewrite (H3 Hat). by apply lookup_name_strips. }
  split; [| split].
  - destruct (dns_resolver_query E tr1 name) as [ans|[]]; try done.
    by destruct raise_exception.
  - intros answer ->. cbv zeta.
    match goal with
    | |- context [Permutation _ ?r] => set (records := r)
    end.
    exists (sort_by_preference records). split; [reflexivity |].
    split; [apply sort_by_preference_perm |].
    split; [apply sort_by_preference_sorted |].
    split; [intros p; apply sort_by_preference_stable |].
    split.
    + apply Forall_forall. intros ex Hex.
      apply list_elem_of_In in Hex.
      apply (Permutation_in _ (sort_by_preference_perm records)) in Hex.
      apply in_map_iff in Hex as (mx & <- & _). simpl.
      apply rstrip_no_suffix.
    + intros mx Hmx Hdot. apply list_elem_of_In.
      apply (Permutation_in _ (Permutation_sym (sort_by_preference_perm records))).
      apply in_map_iff. exists mx. split; [| by apply list_elem_of_In].
      by rewrite rstrip_unchanged.
  - intros ->. by destruct raise_exception.
Qed.

(** ** C4: a connect that times out *)

(** Whatever [smtp.connect] raises as a [socket.error], a timeout
    included, [start] turns into [no_connect]. *)
Lemma start_connect_failure E s tr e :
  smtp_connect E
    (EvSMTP (length tr) (local_hostname s) (timeout s) (debuglevel s) :: tr)
    (length tr) (host s) = Raise e ->
  is_socket_error e = true ->
  (start E s tr).1.1 = Raise (SMTPSessionError "no_connect").
Proof.
  intros H He. unfold start, sm_bind, try_except, get_self, set_smtp, call.
  simpl. rewrite H. by rewrite He.
Qed.

(** The sibling step: a timeout of the greeting is reported as
    [timeout]. *)
Lemma start_greeting_timeout E s tr :
  let tr1 := EvSMTP (length tr) (local_hostname s) (timeout s) (debuglevel s)
               :: tr in
  smtp_connect E tr1 (length tr) (host s) = Ok 220%Z ->
  smtp_ehlo_or_helo_if_needed E (EvConnect (length tr) (host s) :: tr1) (length tr)
    = Raise socket_timeout ->
  (start E s tr).1.1 = Raise (SMTPSessionError "timeout").
Proof.
  intros tr1 H1 H2. unfold start, sm_bind, try_except, get_self, set_smtp, call.
  simpl. fold tr1. rewrite H1. simpl. by rewrite H2.
Qed.

(** C4. [start] on a host whose connect attempt raises [socket.timeout]
    fails with reason [no_connect], not [timeout]: the inner handler
    [except socket.error] of [start] also matches [socket.timeout], which
    never reaches the outer handler [except socket.timeout]; the probe of
    a recipient on that host reports [no_connect] as well. *)
Theorem connect_timeout_is_no_connect :
  (start connect_times_out (SMTPSession_init "mx.example.com" []) []).1.1
    = Raise (SMTPSessionError "no_connect") /\
  (verify_smtp_recipient connect_times_out "mx.example.com" "bob@example.com"
     [] []).1
    = Ok ("bob@example.com", false, "no_connect").
Proof. split; vm_compute; reflexivity. Qed.

(** ** C6 and C1: the connection is lost during a RCPT *)

(** The loop of [recipients] when the RCPT of the next recipient raises
    [socket.timeout] or [SMTPServerDisconnected]: after [quit] the loop
    goes on, inactive, with the recipients after it; nothing is yielded
    for the recipient itself. *)
Lemma lost_recipient_skipped E s tr h e rest x :
  _smtp s = Some h ->
  smtp_rcpt E tr h e = Raise x ->
  x = socket_timeout \/ x = SMTPServerDisconnected ->
  recipients_loop E true (e :: rest) s tr =
  match quit E s (EvRcpt h e :: tr) with
  | (Ok _, s', tr') => recipients_loop E false rest s' tr'
  | (Raise y, s', tr') => (Raise y, s', tr')
  end.
Proof.
  intros Hs Hr Hx. cbn [recipients_loop].
  unfold sm_bind, try_except, get_self, call, sm_ret.
  rewrite Hs. cbn beta iota. rewrite Hr.
  destruct Hx as [-> | ->]; cbn [lost_connection];
    unfold sm_bind, sm_ret;
    by destruct (quit E s (EvRcpt h e :: tr)) as [[[[]|y] s'] tr'].
Qed.

(** C6. Two recipients on a server that closes the connection on the RCPT
    for the first: the generator yields one result only, for the second
    recipient; the recipient whose RCPT raised is not reported.  In
    [inspect_list] that one result is then paired with the first address
    of the group, and the last address keeps [no_connect]. *)
Theorem lost_recipient_is_not_reported :
  (verify_take drop_on_alice 2
     (verify_smtp_recipients "mx.example.com"
        ["alice@example.com"; "bob@example.com"] []) []).1.1
    = [("bob@example.com", false, "rejected_email")] /\
  match (inspect_list drop_on_alice ["alice@example.com"; "bob@example.com"]
           [] []).1 with
  | Ok addresses => reason <$> addresses
  | Raise _ => []
  end = [Some "rejected_email"; Some "no_connect"].
Proof. split; vm_compute; reflexivity. Qed.

(** C1. One valid address whose exchange closes the connection on the
    RCPT of the catch-all probe: the probe yields nothing, [.next()]
    raises [StopIteration], and [inspect_list] raises it instead of
    returning a record for the address. *)
Theorem inspect_list_raises_on_lost_probe :
  (inspect_list drop_on_rcpt ["bob@example.com"] [] []).1 = Raise StopIteration.
Proof. vm_compute. reflexivity. Qed.

(** ** C3: groups are runs of neighbours *)

(** C3. Three addresses, the first and the last of the same domain, on
    servers that accept every recipient: the two addresses of
    [example.com] are not neighbours, they form two groups, and the
    catch-all probe for [example.com] is sent twice. *)
Theorem same_domain_probed_twice :
  rcpts (inspect_list accept_all
           ["alice@example.com"; "bob@example.org"; "carol@example.com"]
           [] []).2
  = ["7d1f0c52-5a3e-4c0b-9a57-0f6f2f1f8e11@example.com";
     "7d1f0c52-5a3e-4c0b-9a57-0f6f2f1f8e11@example.org";
     "7d1f0c52-5a3e-4c0b-9a57-0f6f2f1f8e11@example.com"].
Proof. vm_compute. reflexivity. Qed.

(** An accepted probe carries the reason [accepted_email]. *)
Lemma verify_handle_not_accepted e l tr who r g tr' :
  verify_handle e l tr = (Ok (Some (who, true, r)), g, tr') -> False.
Proof. destruct e; try done. by destruct l. Qed.

Lemma verify_next_accepted E g tr who r g' tr' :
  verify_next E g tr = (Ok (Some (who, true, r)), g', tr') ->
  r = "accepted_email".
Proof.
  assert (forall s l g0 tr0,
            verify_in_session E s l g0 tr0 = (Ok (Some (who, true, r)), g', tr') ->
            r = "accepted_email") as Hin.
  { intros s l g0 tr0. unfold verify_in_session.
    destruct (recipients_next E g0 s tr0) as [[[[[[e a]|] g1]|x] s1] tr1].
    - destruct a; by intros [=].
    - destruct (quit E s1 tr1) as [[[[]|y] s2] tr2]; [done |].
      intros H. by apply verify_handle_not_accepted in H.
    - destruct (quit E s1 tr1) as [[[[]|y] s2] tr2];
        intros H; by apply verify_handle_not_accepted in H. }
  destruct g as [h l opts|s l g|r0 rest|]; simpl.
  - destruct (unexpected_keywords opts); [| done].
    destruct (start E _ tr) as [[[a|x] s'] tr1]; [apply Hin |].
    intros H. by apply verify_handle_not_accepted in H.
  - apply Hin.
  - by destruct rest.
  - done.
Qed.

Lemma verify_smtp_recipient_accepted E h e opts tr who r tr' :
  verify_smtp_recipient E h e opts tr = (Ok (who, true, r), tr') ->
  r = "accepted_email".
Proof.
  unfold verify_smtp_recipient.
  destruct (verify_next E _ tr) as [[[[[[w a] r0]|]|x] g] tr1] eqn:H; try done.
  intros [= -> -> -> _]. by eapply verify_next_accepted.
Qed.

(** The part of C3 that holds for a group: when the probe on an exchange
    accepts the synthetic recipient, every address of the group is marked
    with [accepted_email], as catch-all and with that exchange, and nothing
    else is sent. *)
Lemma catch_all_marks_group E ex rest cae group emails opts l it tr who r tr' :
  verify_smtp_recipient E (ex_exchange ex) cae opts tr = (Ok (who, true, r), tr') ->
  probe_exchanges E (ex :: rest) cae group emails opts l it tr =
  (Ok (update_all (set_probe "accepted_email" true (ex_exchange ex)) group l, it),
   tr').
Proof.
  intros H. pose proof (verify_smtp_recipient_accepted _ _ _ _ _ _ _ _ H) as ->.
  simpl. by rewrite H.
Qed.

(** ** C7: which probe outcomes move on to the next exchange *)

Section Keeps.

Context {A B : Type} (I : SMTPSession -> Prop) (P : Event -> Prop).
Hypothesis I_with : forall v s, I s -> I (with_smtp v s).

Lemma sm_keeps_ret (a : A) : sm_keeps I P (sm_ret a).
Proof. intros s tr Hs. split; [apply adds_refl | done]. Qed.

Lemma sm_keeps_raise e : sm_keeps I P (@sm_raise A e).
Proof. intros s tr Hs. split; [apply adds_refl | done]. Qed.

Lemma sm_keeps_set_smtp v : sm_keeps I P (set_smtp v).
Proof. intros s tr Hs. split; [apply adds_refl | by apply I_with]. Qed.

Lemma sm_keeps_call ev (reply : Trace -> Res A) :
  P ev -> sm_keeps I P (call ev reply).
Proof. intros H s tr Hs. split; [by apply adds_step | done]. Qed.

Lemma sm_keeps_bind (m : SM A) (k : A -> SM B) :
  sm_keeps I P m -> (forall a, sm_keeps I P (k a)) -> sm_keeps I P (sm_bind m k).
Proof.
  intros Hm Hk s tr Hs. unfold sm_bind. destruct (Hm s tr Hs) as [H1 H2].
  destruct (m s tr) as [[[a|e] s'] tr']; simpl in *; [| by split].
  destruct (Hk a s' tr' H2) as [H3 H4]. split; [by eapply adds_trans | done].
Qed.

Lemma sm_keeps_try (m : SM A) (handler : exn -> option (SM A)) :
  sm_keeps I P m -> (forall e h, handler e = Some h -> sm_keeps I P h) ->
  sm_keeps I P (try_except m handler).
Proof.
  intros Hm Hh s tr Hs. unfold try_except. destruct (Hm s tr Hs) as [H1 H2].
  destruct (m s tr) as [[[a|e] s'] tr']; simpl in *; [by split |].
  destruct (handler e) as [h|] eqn:He; [| by split].
  destruct (Hh e h He s' tr' H2) as [H3 H4].
  split; [by eapply adds_trans | done].
Qed.

(** [self] read at the start of a method satisfies [I]. *)
Lemma sm_keeps_self (k : SMTPSession -> SM B) :
  (forall s0, I s0 -> sm_keeps I P (k s0)) -> sm_keeps I P (sm_bind get_self k).
Proof. intros Hk s tr Hs. unfold sm_bind, get_self. by apply Hk. Qed.

End Keeps.

Ltac sm_keeps_step :=
  match goal with
  | |- sm_keeps _ _ (sm_ret _) => apply sm_keeps_ret
  | |- sm_keeps _ _ (sm_raise _) => apply sm_keeps_raise
  | |- sm_keeps _ _ (set_smtp _) =>
      apply sm_keeps_set_smtp; intros ? ? Hhost; exact Hhost
  | |- sm_keeps _ _ (call _ _) => apply sm_keeps_call
  | |- sm_keeps _ _ (sm_bind get_self _) => apply sm_keeps_self; intros ? ?
  | |- sm_keeps _ _ (sm_bind _ _) => apply sm_keeps_bind; [| intros ?]
  | |- sm_keeps _ _ (try_except _ _) => apply sm_keeps_try; [| intros [] ? [=<-]]
  | |- sm_keeps _ _ (match ?x with _ => _ end) => destruct x
  | |- for_host _ _ (EvQuit _) => split; intros; discriminate
  | |- for_host _ _ (EvEhlo _) => split; intros; discriminate
  | |- for_host _ _ (EvMail _ _) => split; intros; discriminate
  | |- for_host _ _ (EvSMTP _ _ _ _) => split; intros; discriminate
  end.

Section HostKeeps.

Variable E : Env.
Variable x : string.
Variable emails : list string.

Lemma quit_keeps : sm_keeps (host_is x) (for_host x emails) (quit E).
Proof. unfold quit. repeat sm_keeps_step. Qed.

Lemma start_keeps : sm_keeps (host_is x) (for_host x emails) (start E).
Proof.
  unfold start. apply sm_keeps_self. intros self Hself.
  apply sm_keeps_bind.
  { intros s tr Hs. split; [| done]. apply adds_step. split; intros; discriminate. }
  intros smtp.
  repeat first [apply quit_keeps | sm_keeps_step].
  split; [| intros; discriminate]. intros h y [= _ <-]. exact Hself.
Qed.

Lemma restart_keeps : sm_keeps (host_is x) (for_host x emails) (restart E).
Proof.
  unfold restart.
  repeat first [apply quit_keeps | apply start_keeps | sm_keeps_step].
Qed.











End HostKeeps.






(** ** C5: reply codes 552 and 554 *)

Lemma quit_connected E s tr h :
  _smtp s = Some h ->
  smtp_quit E tr h = Ok tt \/ smtp_quit E tr h = Raise SMTPServerDisconnected ->
  quit E s tr = (Ok tt, with_smtp None s, EvQuit h :: tr).
Proof.
  intros Hs Hq. unfold quit, sm_bind, try_except, get_self, call, set_smtp.
  simpl. rewrite Hs. by destruct Hq as [-> | ->].
Qed.

(** A session that started holds the new [smtplib.SMTP] object. *)
Lemma start_ok E s0 tr h s tr' :
  start E s0 tr = (Ok h, s, tr') -> s = with_smtp (Some h) s0.
Proof.
  unfold start, sm_bind, try_except, get_self, call, set_smtp, sm_ret, sm_raise,
    quit, sm_bind, try_except, get_self, call, set_smtp, sm_ret.
  simpl.
  repeat match goal with
         | |- context [match ?x with _ => _ end] =>
             lazymatch x with
             | context [match _ with _ => _ end] => fail
             | _ => destruct x; simpl
             end
         end;
    try discriminate; intros [=]; by subst.
Qed.

(** What follows the restart when the generator is resumed after a 552 or
    554: the loop goes on with the recipients that are left. *)
Lemma resume_after_busy E (P : Event -> Prop) s h c rest l tr :
  (forall h', P (EvQuit h')) ->
  (forall a, sm_adds P (recipients_loop E a rest)) ->
  _smtp s = Some h ->
  (c = 552 \/ c = 554)%Z ->
  smtp_quit E tr h = Ok tt \/ smtp_quit E tr h = Raise SMTPServerDisconnected ->
  adds P (start E (with_smtp None s) (EvQuit h :: tr)).2
         (verify_in_session E s l (R_yield_probed c rest) tr).2.
Proof.
  intros PQ Hloop Hs Hc Hq. apply verify_in_session_adds_from; [done |].
  cbn [recipients_next].
  assert (code_in c [552; 554]%Z = true) as -> by (by destruct Hc as [-> | ->]).
  unfold sm_bind at 1. unfold try_except, sm_bind at 1. unfold restart.
  unfold sm_bind at 1. rewrite (quit_connected _ _ _ _ Hs Hq).
  unfold sm_bind at 1.
  destruct (start E (with_smtp None s) (EvQuit h :: tr)) as [[[h2|x] s2] tr2];
    simpl.
  - apply Hloop.
  - destruct (lost_connection E false x) as [hd|] eqn:Hx; [| apply adds_refl].
    destruct x; try discriminate Hx; injection Hx as <-;
      unfold sm_bind;
      pose proof (quit_adds E P PQ s2 tr2) as H;
      destruct (quit E s2 tr2) as [[[[]|y] s3] tr3]; simpl in *; try done;
      (eapply adds_trans; [exact H | apply Hloop]).
Qed.

Lemma adds_conj (P Q : Event -> Prop) tr tr' :
  adds P tr tr' -> adds Q tr tr' -> adds (fun ev => P ev /\ Q ev) tr tr'.
Proof.
  intros (evs & -> & HP) (evs' & Heq & HQ).
  apply app_inv_tail in Heq as ->.
  exists evs'. split; [reflexivity |]. by apply Forall_and.
Qed.

(** The loop body with the session active and a reply to the RCPT. *)
Lemma recipients_loop_rcpt E s h e rest tr0 c :
  _smtp s = Some h ->
  smtp_rcpt E tr0 h e = Ok c ->
  recipients_loop E true (e :: rest) s tr0 =
  (Ok (Some (e, code_in c [250; 251]%Z), R_yield_probed c rest), s,
   EvRcpt h e :: tr0).
Proof.
  intros Hs Hc. cbn [recipients_loop].
  unfold sm_bind, try_except, get_self, call, sm_ret.
  rewrite Hs. cbn beta iota. by rewrite Hc.
Qed.

(** Wherever the RCPT is sent from, a reply makes this [next()] yield the
    result of the recipient. *)
Lemma verify_next_at_rcpt E g tr s tr0 all e rest h c :
  at_rcpt E g tr s tr0 all e rest ->
  _smtp s = Some h ->
  smtp_rcpt E tr0 h e = Ok c ->
  verify_next E g tr =
  (Ok (Some (result_of e c)), V_in_session s all (R_yield_probed c rest),
   EvRcpt h e :: tr0).
Proof.
  intros Hat Hs Hc.
  pose proof (recipients_loop_rcpt E s h e rest tr0 c Hs Hc) as Hloop.
  destruct g as [host' l opts|s1 all1 [|c0 l| |]| |]; try done.
  - destruct Hat as (Hopts & -> & -> & h0 & Hstart).
    cbn [verify_next]. rewrite Hopts, Hstart.
    unfold verify_in_session. cbn [recipients_next].
    unfold sm_bind at 1. unfold get_self at 1. rewrite Hs, Hloop.
    unfold result_of. by destruct (code_in c [250; 251]%Z).
  - destruct Hat as (-> & -> & Hat).
    cbn [verify_next]. unfold verify_in_session. cbn [recipients_next].
    destruct (code_in c0 [552; 554]%Z).
    + unfold sm_bind at 1. unfold try_except at 1. unfold sm_bind at 1.
      rewrite Hat. unfold sm_ret at 1. rewrite Hloop.
      unfold result_of. by destruct (code_in c [250; 251]%Z).
    + destruct Hat as [-> ->]. rewrite Hloop.
      unfold result_of. by destruct (code_in c [250; 251]%Z).
Qed.

(** C5, as the code has it.  Wherever in the list the recipient stands,
    a RCPT that is answered with 552 or 554 makes the recipient be
    reported as not accepted, with reason [rejected_email].  When the
    generator is asked for the next result, the session is torn down and
    started again: the QUIT on the old connection comes first (it is
    taken to return or to find the server gone), then a new
    [smtplib.SMTP] object and its connect to the host of the session, and
    after that no further connect.  The RCPT of the answered recipient is
    not repeated: the only RCPT that can follow is for the next recipient
    of the list.  On the first [next()] of a call the host of the session
    is the host of the call, and a later [next()] leaves the host of the
    session as it is. *)
Theorem reconnect_without_retry E g tr s tr0 all e rest h c :
  at_rcpt E g tr s tr0 all e rest ->
  _smtp s = Some h ->
  smtp_rcpt E tr0 h e = Ok c ->
  (c = 552 \/ c = 554)%Z ->
  smtp_quit E (EvRcpt h e :: tr0) h = Ok tt \/
  smtp_quit E (EvRcpt h e :: tr0) h = Raise SMTPServerDisconnected ->
  let g1 := V_in_session s all (R_yield_probed c rest) in
  let tr1 := EvRcpt h e :: tr0 in
  let h' := length (EvQuit h :: tr1) in
  verify_next E g tr = (Ok (Some (e, false, "rejected_email")), g1, tr1) /\
  adds (fun ev => is_connect ev = false /\
                  forall h'' r, ev = EvRcpt h'' r -> head rest = Some r)
       (EvConnect h' (host s)
          :: EvSMTP h' (local_hostname s) (timeout s) (debuglevel s)
          :: EvQuit h :: tr1)
       (verify_next E g1 tr1).2 /\
  connects (verify_next E g1 tr1).2 = host s :: connects tr0 /\
  (forall host' l opts, g = V_start host' l opts -> host s = host') /\
  (forall s1 all1 g0, g = V_in_session s1 all1 g0 -> host s = host s1).
Proof.
  intros Hat Hsmtp Hrcpt Hc Hquit g1 tr1 h'.
  assert (forall P : Event -> Prop,
            (forall h0, P (EvQuit h0)) -> (forall h0, P (EvEhlo h0)) ->
            (forall h0 x, P (EvMail h0 x)) ->
            (forall a, sm_adds P (recipients_loop E a rest)) ->
            adds P (EvConnect h' (host s)
                      :: EvSMTP h' (local_hostname s) (timeout s) (debuglevel s)
                      :: EvQuit h :: tr1)
                 (verify_next E g1 tr1).2) as Hadds.
  { intros P PQ PE PM Hloop. subst g1. cbn [verify_next].
    eapply adds_trans;
      [| apply (resume_after_busy E P s h c rest all tr1 PQ Hloop Hsmtp Hc Hquit)].
    apply (start_after_connect E P PQ PE PM (with_smtp None s) (EvQuit h :: tr1)). }
  split; [| split; [| split; [| split]]].
  - rewrite (verify_next_at_rcpt E g tr s tr0 all e rest h c Hat Hsmtp Hrcpt).
    unfold result_of. by destruct Hc as [-> | ->].
  - apply adds_conj.
    + apply Hadds; try done. intros a. by apply recipients_loop_adds.
    + apply Hadds; try done. intros a. apply recipients_loop_adds_next; [done |].
      by intros ? ? ? ? ? [= _ <-].
  - rewrite (adds_connects _ _
               (Hadds (fun ev => is_connect ev = false) (fun _ => eq_refl)
                  (fun _ => eq_refl) (fun _ _ => eq_refl)
                  (fun a => recipients_loop_adds E _ (fun _ => eq_refl)
                              (fun _ _ => eq_refl) a rest))).
    reflexivity.
  - intros host' l opts ->. destruct Hat as (_ & _ & _ & h0 & Hstart).
    by rewrite (start_ok _ _ _ _ _ _ Hstart).
  - intros s1 all1 g0 ->. destruct g0 as [|c0 l| |]; try done.
    destruct Hat as (_ & _ & Hat).
    destruct (code_in c0 [552; 554]%Z); [| by destruct Hat as [-> _]].
    destruct (restart_keeps E (host s1) [] s1 tr eq_refl) as [_ Hhost].
    by rewrite Hat in Hhost.
Qed.

(** The server that is busy for [bob@...], the second of three
    recipients: he is reported as rejected; on the next [next()] there is
    the QUIT, one new connect, and the RCPT for the third recipient. *)
Lemma reconnect_without_retry_witness :
  let s := with_smtp (Some 0) (SMTPSession_init "mx.example.com" []) in
  let tr0 := [EvRcpt 0 "alice@example.com"; EvMail 0 (VStr DEFAULT_EMAIL_FROM);
              EvEhlo 0; EvConnect 0 "mx.example.com";
              EvSMTP 0 (VStr DEFAULT_LOCAL_HOSTNAME) (VInt DEFAULT_TIMEOUT)
                (VInt 0)] in
  let all := ["alice@example.com"; "bob@example.com"; "carol@example.com"] in
  let g := V_in_session s all
             (R_yield_probed 250 ["bob@example.com"; "carol@example.com"]) in
  let g1 := V_in_session s all (R_yield_probed 554 ["carol@example.com"]) in
  let tr1 := EvRcpt 0 "bob@example.com" :: tr0 in
  verify_next busy_for_bob g tr0
    = (Ok (Some ("bob@example.com", false, "rejected_email")), g1, tr1) /\
  (verify_next busy_for_bob g1 tr1).2
    = [EvRcpt 7 "carol@example.com"; EvMail 7 (VStr DEFAULT_EMAIL_FROM);
       EvEhlo 7; EvConnect 7 "mx.example.com";
       EvSMTP 7 (VStr DEFAULT_LOCAL_HOSTNAME) (VInt DEFAULT_TIMEOUT) (VInt 0);
       EvQuit 0] ++ tr1.
Proof.
  intros s tr0 all g g1 tr1.
  split; [| vm_compute; reflexivity].
  refine (proj1 (reconnect_without_retry busy_for_bob g tr0 s tr0 all
                   "bob@example.com" ["carol@example.com"] 0 554%Z _ _ _ _ _)).
  - repeat split.
  - reflexivity.
  - reflexivity.
  - by right.
  - by left.
Defined.

(** C5 fails as stated: on the server that replies 554 to the first RCPT
    and 250 afterwards, the only recipient is reported with
    [rejected_email]; the generator reconnects once when it is resumed,
    but sends no second RCPT. *)
Lemma no_retry_after_554 :
  let run := verify_take busy_once 2
               (verify_smtp_recipients "mx.example.com" ["bob@example.com"] [])
               [] in
  run.1.1 = [("bob@example.com", false, "rejected_email")] /\
  rcpts run.2 = ["bob@example.com"] /\
  connects run.2 = ["mx.example.com"; "mx.example.com"].
Proof. repeat split; vm_compute; reflexivity. Qed.

(** ** The theorems at concrete runs *)

(** The first record of a run in which the catch-all probe is rejected
    and [alice@example.com] is accepted. *)
Lemma status_of_probed_address_witness :
  let run := inspect_list accept_alice ["alice@example.com"; "bob@example.com"]
               [] [] in
  let addresses := match run.1 with Ok l => l | Raise _ => [] end in
  let alice := default (EmailAddress_init "") (addresses !! 0%nat) in
  status alice = DELIVERABLE.
Proof.
  intros run addresses alice.
  refine (proj1 (proj2 (status_of_probed_address accept_alice
            ["alice@example.com"; "bob@example.com"] [] [] addresses run.2 alice
            _ _ _)) _ _ _).
  - vm_compute. reflexivity.
  - apply list_elem_of_lookup. exists 0%nat. vm_compute. reflexivity.
  - vm_compute. reflexivity.
  - vm_compute. reflexivity.
  - vm_compute. reflexivity.
  - vm_compute. reflexivity.
Defined.

(** Two addresses of one domain: they carry the same exchanges and the
    domain was resolved once. *)
Lemma mx_resolution_memoized_witness :
  let run := inspect_list accept_all ["alice@example.com"; "carol@example.com"]
               [] [] in
  let addresses := match run.1 with Ok l => l | Raise _ => [] end in
  let alice := default (EmailAddress_init "") (addresses !! 0%nat) in
  let carol := default (EmailAddress_init "") (addresses !! 1%nat) in
  is_Some (all_exchanges alice) /\
  all_exchanges alice = all_exchanges carol /\
  count_resolve (query_domain accept_all alice) run.2 = 1.
Proof.
  intros run addresses alice carol.
  refine (proj2 (mx_resolution_memoized accept_all
            ["alice@example.com"; "carol@example.com"] [] [])
            addresses run.2 alice carol _ _ _ _ _ _).
  - vm_compute. reflexivity.
  - apply list_elem_of_lookup. exists 0%nat. vm_compute. reflexivity.
  - apply list_elem_of_lookup. exists 1%nat. vm_compute. reflexivity.
  - vm_compute. reflexivity.
  - vm_compute. reflexivity.
  - vm_compute. reflexivity.
Defined.

(** An address as argument and an answer that lists the less preferred
    exchange first, both names with a final dot. *)
Lemma resolve_mx_records_spec_witness :
  (resolve_mx_records first_mx_broken "bob@example.com" false []).2
    = [EvDnsQuery "example.com"; EvResolve "bob@example.com"] /\
  exists exchanges,
    (resolve_mx_records first_mx_broken "bob@example.com" false []).1
      = Ok exchanges /\
    Permutation exchanges
      [ {| ex_exchange := "mx2.example.com"; ex_preference := 20 |};
        {| ex_exchange := "mx1.example.com"; ex_preference := 10 |} ] /\
    StronglySorted le_preference exchanges.
Proof.
  destruct (resolve_mx_records_spec first_mx_broken "bob@example.com" false []
              eq_refl) as (_ & _ & _ & Htr & Hok & _).
  split; [exact Htr |].
  destruct (Hok _ eq_refl) as (exchanges & H1 & H2 & H3 & _).
  exists exchanges. split; [exact H1 |]. split; [exact H2 | exact H3].
Defined.

(** * More of the code *)

(** ** Which exceptions the session raises *)

Section Raises.

Context {A B : Type} (Q : exn -> Prop).

Lemma sm_raises_ret (a : A) : sm_raises Q (sm_ret a).
Proof. by intros s tr e. Qed.

Lemma sm_raises_raise e : Q e -> sm_raises Q (@sm_raise A e).
Proof. intros H s tr e' [= <-]. exact H. Qed.

Lemma sm_raises_get_self : sm_raises Q get_self.
Proof. by intros s tr e. Qed.

Lemma sm_raises_set_smtp v : sm_raises Q (set_smtp v).
Proof. by intros s tr e. Qed.

Lemma sm_raises_call ev (reply : Trace -> Res A) :
  (forall tr e, reply tr = Raise e -> Q e) -> sm_raises Q (call ev reply).
Proof. intros H s tr e He. exact (H tr e He). Qed.

Lemma sm_raises_bind (m : SM A) (k : A -> SM B) :
  sm_raises Q m -> (forall a, sm_raises Q (k a)) -> sm_raises Q (sm_bind m k).
Proof.
  intros Hm Hk s tr e. unfold sm_bind. specialize (Hm s tr).
  destruct (m s tr) as [[[a|e'] s'] tr']; simpl in *.
  - apply Hk.
  - intros [= <-]. by apply Hm.
Qed.

Lemma sm_raises_try (m : SM A) (handler : exn -> option (SM A)) :
  sm_raises Q m -> (forall e h, handler e = Some h -> sm_raises Q h) ->
  sm_raises Q (try_except m handler).
Proof.
  intros Hm Hh s tr e. unfold try_except. specialize (Hm s tr).
  destruct (m s tr) as [[[a|e'] s'] tr']; simpl in *; [done |].
  destruct (handler e') as [h|] eqn:He.
  - by eapply Hh.
  - intros [= <-]. by apply Hm.
Qed.

End Raises.

Ltac sm_raises_step :=
  match goal with
  | |- sm_raises _ (sm_ret _) => apply sm_raises_ret
  | |- sm_raises _ (sm_raise _) => apply sm_raises_raise
  | |- sm_raises _ get_self => apply sm_raises_get_self
  | |- sm_raises _ (set_smtp _) => apply sm_raises_set_smtp
  | |- sm_raises _ (call _ _) => apply sm_raises_call
  | |- sm_raises _ (sm_bind _ _) => apply sm_raises_bind; [| intros ?]
  | |- sm_raises _ (try_except _ _) => apply sm_raises_try; [| intros [] ? [=<-]]
  | |- sm_raises _ (match ?x with _ => _ end) => destruct x
  | H : (if ?b then _ else _) = Some _ |- _ =>
      destruct b; [injection H as <- | discriminate H]
  end.

Lemma from_library_known e : from_library e -> known_reason e.
Proof. intros H r ->. by destruct (H r). Qed.

Lemma known_reason_session r : session_reason r -> known_reason (SMTPSessionError r).
Proof. by intros H r' [= <-]. Qed.

Section SessionRaises.

Variable E : Env.
Hypothesis HE : smtplib_env E.

Lemma quit_raises : sm_raises known_reason (quit E).
Proof.
  destruct HE as (_ & _ & _ & _ & Hq).
  unfold quit. repeat sm_raises_step.
  intros tr e He. eapply from_library_known, Hq, He.
Qed.

Lemma quit_raises_library s tr e s' tr' :
  quit E s tr = (Raise e, s', tr') -> from_library e.
Proof.
  destruct HE as (_ & _ & _ & _ & Hq).
  unfold quit, sm_bind, try_except, get_self, call, set_smtp, sm_ret.
  destruct (_smtp s) as [h|]; [| done].
  destruct (smtp_quit E tr h) as [[]|x] eqn:Hx; [done |].
  destruct x; try done; intros [= <- _ _]; by eapply Hq.
Qed.

Lemma start_raises : sm_raises known_reason (start E).
Proof.
  destruct HE as (Hc & Hh & Hm & _ & _).
  unfold start. sm_raises_step; [sm_raises_step |].
  sm_raises_step; [by intros s tr e |].
  repeat first [apply quit_raises | sm_raises_step];
    try (apply known_reason_session; unfold session_reason; tauto);
    intros tr e He; eapply from_library_known; eauto.
Qed.

Lemma restart_raises : sm_raises known_reason (restart E).
Proof.
  unfold restart.
  repeat first [apply quit_raises | apply start_raises | sm_raises_step].
Qed.

Lemma lost_connection_raises {A} (a : A) e h :
  lost_connection E a e = Some h -> sm_raises known_reason h.
Proof.
  destruct e; intros [=<-]; repeat first [apply quit_raises | sm_raises_step].
Qed.

Lemma recipients_loop_raises active l :
  sm_raises known_reason (recipients_loop E active l).
Proof.
  destruct HE as (_ & _ & _ & Hr & _).
  revert active. induction l as [|e l IH]; intros active; simpl.
  - sm_raises_step.
  - destruct active; [| sm_raises_step].
    apply sm_raises_bind.
    + apply sm_raises_try; [| intros x h; apply lost_connection_raises].
      repeat sm_raises_step.
      * intros tr x Hx. eapply from_library_known, Hr, Hx.
      * by intros r.
    + intros [code|]; [sm_raises_step | apply IH].
Qed.

Lemma recipients_next_raises g : sm_raises known_reason (recipients_next E g).
Proof.
  destruct g as [l|code rest|rest|]; cbn [recipients_next].
  - sm_raises_step; [sm_raises_step |].
    destruct l; [sm_raises_step; by intros r |].
    destruct (_smtp a); [apply recipients_loop_raises | sm_raises_step].
    by intros r.
  - destruct (code_in code [552; 554]%Z); [| apply recipients_loop_raises].
    apply sm_raises_bind; [| intros ?; apply recipients_loop_raises].
    apply sm_raises_try; [| intros x h; apply lost_connection_raises].
    repeat first [apply restart_raises | sm_raises_step].
  - apply recipients_loop_raises.
  - sm_raises_step.
Qed.

(** What [verify_smtp_recipients] yields, one step at a time. *)
Lemma verify_handle_known e l tr res g tr' :
  known_reason e ->
  verify_handle e l tr = (res, g, tr') ->
  gen_known g /\
  forall who a r, res = Ok (Some (who, a, r)) -> a = false /\ session_reason r.
Proof.
  intros He. destruct e; simpl; try (intros [= <- <- _]; by split).
  specialize (He _ eq_refl).
  destruct l as [|x l]; simpl; intros [= <- <- _]; split; try done.
  by intros who a r [= _ <- <-].
Qed.

Lemma verify_in_session_known s l g tr res g' tr' :
  verify_in_session E s l g tr = (res, g', tr') ->
  gen_known g' /\
  forall who a r, res = Ok (Some (who, a, r)) ->
    (a = true /\ r = "accepted_email") \/ (a = false /\ r = "rejected_email") \/
    (a = false /\ session_reason r).
Proof.
  unfold verify_in_session.
  pose proof (recipients_next_raises g s tr) as Hn.
  destruct (recipients_next E g s tr) as [[[[[[e a]|] g1]|x] s1] tr1];
    simpl in Hn.
  - intros [= <- <- _]. split; [done |].
    intros who a' r [= _ <- <-]. destruct a; tauto.
  - pose proof (quit_raises s1 tr1) as Hq.
    destruct (quit E s1 tr1) as [[[[]|y] s2] tr2]; simpl in Hq.
    + intros [= <- <- _]. by split.
    + intros H. destruct (verify_handle_known _ _ _ _ _ _ (Hq _ eq_refl) H)
        as [H1 H2].
      split; [done |]. intros who a r Hr. right. right. by eapply H2.
  - pose proof (quit_raises s1 tr1) as Hq.
    destruct (quit E s1 tr1) as [[[[]|y] s2] tr2]; simpl in Hq; intros H.
    + destruct (verify_handle_known _ _ _ _ _ _ (Hn _ eq_refl) H) as [H1 H2].
      split; [done |]. intros who a r Hr. right. right. by eapply H2.
    + destruct (verify_handle_known _ _ _ _ _ _ (Hq _ eq_refl) H) as [H1 H2].
      split; [done |]. intros who a r Hr. right. right. by eapply H2.
Qed.

Lemma verify_next_known g tr res g' tr' :
  gen_known g ->
  verify_next E g tr = (res, g', tr') ->
  gen_known g' /\
  forall who a r, res = Ok (Some (who, a, r)) ->
    (a = true /\ r = "accepted_email") \/ (a = false /\ r = "rejected_email") \/
    (a = false /\ session_reason r).
Proof.
  intros Hg. destruct g as [h l opts|s l g|r0 rest|]; simpl.
  - destruct (unexpected_keywords opts); [| intros [= <- <- _]; by split].
    pose proof (start_raises (SMTPSession_init h opts) tr) as Hs.
    destruct (start E _ tr) as [[[a|x] s'] tr1]; simpl in Hs.
    + apply verify_in_session_known.
    + intros H. destruct (verify_handle_known _ _ _ _ _ _ (Hs _ eq_refl) H)
        as [H1 H2].
      split; [done |]. intros who a r Hr. right. right. by eapply H2.
  - apply verify_in_session_known.
  - destruct rest as [|x rest]; simpl; intros [= <- <- _]; split; try done.
    intros who a r [= _ <- <-]. tauto.
  - intros [= <- <- _]. by split.
Qed.

End SessionRaises.

(** ** More of smtp.py: [start], the generator, [verify_smtp_connection] *)

Lemma rcpts_app evs tr : rcpts (evs ++ tr) = rcpts evs ++ rcpts tr.
Proof.
  induction evs as [|ev evs IH]; [reflexivity |].
  destruct ev; simpl; by rewrite IH.
Qed.

Lemma adds_rcpts tr tr' :
  adds (fun ev => is_rcpt ev = false) tr tr' -> rcpts tr' = rcpts tr.
Proof.
  intros (evs & -> & H). rewrite rcpts_app.
  assert (rcpts evs = []) as ->; [| reflexivity].
  induction H as [|ev evs Hev _ IH]; [reflexivity |].
  destruct ev; simpl in *; try discriminate; exact IH.
Qed.

(** A session starts only on the replies 220, no error and 250, and has
    then made exactly the four calls of the handshake. *)
Lemma start_ok_replies E s0 tr h s tr' :
  start E s0 tr = (Ok h, s, tr') ->
  let tr1 := EvSMTP (length tr) (local_hostname s0) (timeout s0) (debuglevel s0)
               :: tr in
  let tr2 := EvConnect (length tr) (host s0) :: tr1 in
  let tr3 := EvEhlo (length tr) :: tr2 in
  h = length tr /\
  smtp_connect E tr1 (length tr) (host s0) = Ok 220%Z /\
  smtp_ehlo_or_helo_if_needed E tr2 (length tr) = Ok tt /\
  smtp_mail E tr3 (length tr) (mail_from s0) = Ok 250%Z /\
  tr' = EvMail (length tr) (mail_from s0) :: tr3.
Proof.
  unfold start, sm_bind, try_except, get_self, call, set_smtp, sm_ret, sm_raise,
    quit, sm_bind, try_except, get_self, call, set_smtp, sm_ret.
  simpl.
  destruct (smtp_connect E _ _ _) as [c|x] eqn:Hc; simpl.
  2: { destruct x; simpl; discriminate. }
  destruct (Z.eqb_spec c 220) as [->|Hne]; simpl.
  2: { repeat match goal with
              | |- context [match ?x with _ => _ end] =>
                  lazymatch x with
                  | context [match _ with _ => _ end] => fail
                  | _ => destruct x; simpl
                  end
              end; discriminate. }
  destruct (smtp_ehlo_or_helo_if_needed E _ _) as [[]|x] eqn:Hh; simpl.
  2: { repeat match goal with
              | |- context [match ?x with _ => _ end] =>
                  lazymatch x with
                  | context [match _ with _ => _ end] => fail
                  | _ => destruct x; simpl
                  end
              end; discriminate. }
  destruct (smtp_mail E _ _ _) as [c|x] eqn:Hm; simpl.
  2: { destruct x; simpl; discriminate. }
  destruct (Z.eqb_spec c 250) as [->|Hne]; simpl.
  2: { repeat match goal with
              | |- context [match ?x with _ => _ end] =>
                  lazymatch x with
                  | context [match _ with _ => _ end] => fail
                  | _ => destruct x; simpl
                  end
              end; discriminate. }
  intros [= <- <- <-]. done.
Qed.

(** The trace of [verify_smtp_connection] is that of [start] and a
    [quit]. *)
Lemma verify_smtp_connection_adds E (P : Event -> Prop) host' opts tr :
  (forall h, P (EvQuit h)) ->
  unexpected_keywords opts = [] ->
  adds P (start E (SMTPSession_init host' opts) tr).2
         (verify_smtp_connection E host' opts tr).2.
Proof.
  intros PQ Hopts. unfold verify_smtp_connection, SMTPSession_enter,
    SMTPSession_exit. rewrite Hopts.
  unfold sm_bind at 1. unfold get_self. cbn [_smtp SMTPSession_init].
  unfold sm_bind, sm_ret.
  destruct (start E (SMTPSession_init host' opts) tr) as [[[h|x] s] tr1]; simpl.
  - pose proof (quit_adds E P PQ s tr1) as H.
    destruct (quit E s tr1) as [[[[]|y] s2] tr2]; simpl in *; [done |].
    by destruct y.
  - destruct x; apply adds_refl.
Qed.

(** X1. With keyword options that [SMTPSession] knows,
    [verify_smtp_connection] makes exactly one connect, to the given host,
    and never sends a RCPT. *)
Theorem verify_smtp_connection_one_connect E host' opts tr :
  unexpected_keywords opts = [] ->
  connects (verify_smtp_connection E host' opts tr).2 = host' :: connects tr /\
  rcpts (verify_smtp_connection E host' opts tr).2 = rcpts tr.
Proof.
  intros Hopts. split.
  - rewrite (adds_connects _ _
               (verify_smtp_connection_adds E (fun ev => is_connect ev = false)
                  host' opts tr (fun _ => eq_refl) Hopts)).
    by rewrite (adds_connects _ _
                  (start_after_connect E (fun ev => is_connect ev = false)
                     (fun _ => eq_refl) (fun _ => eq_refl) (fun _ _ => eq_refl)
                     _ _)).
  - apply adds_rcpts. eapply adds_trans.
    + by apply start_adds.
    + by apply verify_smtp_connection_adds.
Qed.

(** X2. With a library that raises only its own exceptions, what
    [verify_smtp_connection] returns is [(True, 'valid_smtp')] or [False]
    with one of the reasons [no_connect], [timeout], [invalid_smtp]; and
    it returns [True] only if the server greeted with 220, took the
    EHLO/HELO and answered MAIL FROM with 250. *)
Theorem verify_smtp_connection_result E host' opts tr b r :
  smtplib_env E ->
  (verify_smtp_connection E host' opts tr).1 = Ok (b, r) ->
  let s0 := SMTPSession_init host' opts in
  let tr1 := EvSMTP (length tr) (local_hostname s0) (timeout s0) (debuglevel s0)
               :: tr in
  let tr2 := EvConnect (length tr) host' :: tr1 in
  let tr3 := EvEhlo (length tr) :: tr2 in
  (b = true /\ r = "valid_smtp" /\
   smtp_connect E tr1 (length tr) host' = Ok 220%Z /\
   smtp_ehlo_or_helo_if_needed E tr2 (length tr) = Ok tt /\
   smtp_mail E tr3 (length tr) (mail_from s0) = Ok 250%Z) \/
  (b = false /\ session_reason r).
Proof.
  intros HE. unfold verify_smtp_connection, SMTPSession_enter, SMTPSession_exit.
  destruct (unexpected_keywords opts); [| done].
  unfold sm_bind at 1. unfold get_self. cbn [_smtp SMTPSession_init].
  unfold sm_bind, sm_ret.
  pose proof (start_raises E HE (SMTPSession_init host' opts) tr) as Hs.
  destruct (start E (SMTPSession_init host' opts) tr) as [[[h|x] s] tr1] eqn:Hst;
    simpl in *.
  - destruct (quit E s tr1) as [[[[]|y] s2] tr2] eqn:Hq; simpl.
    + intros [= <- <-]. left.
      destruct (start_ok_replies _ _ _ _ _ _ Hst) as (_ & H1 & H2 & H3 & _).
      done.
    + apply (quit_raises_library E HE) in Hq. destruct y; try done.
      intros _. exfalso. by eapply Hq.
  - destruct x; try done. intros [= <- <-]. right. split; [done |].
    by apply (Hs _ eq_refl).
Qed.

Lemma verify_take_in_except E n r rest tr :
  (verify_take E n (V_in_except r rest) tr).1.1
    = (fun e => (e, false, r)) <$> take n rest /\
  (verify_take E n (V_in_except r rest) tr).2 = tr.
Proof.
  revert rest. induction n as [|n IH]; intros rest; simpl; [done |].
  destruct rest as [|e rest]; simpl; [done |].
  destruct (IH rest) as [IH1 IH2].
  destruct (verify_take E n (V_in_except r rest) tr) as [[rs g] tr1].
  simpl in *. by subst.
Qed.

(** X3. When the session cannot be started, every recipient asked for is
    reported as not accepted with the reason of the failure, in the order
    given, and nothing is sent after the failed start. *)
Theorem start_failure_reported E host' emails opts tr r s tr' n :
  unexpected_keywords opts = [] ->
  start E (SMTPSession_init host' opts) tr = (Raise (SMTPSessionError r), s, tr') ->
  (verify_take E (S n) (verify_smtp_recipients host' emails opts) tr).1.1
    = (fun e => (e, false, r)) <$> take (S n) emails /\
  (verify_take E (S n) (verify_smtp_recipients host' emails opts) tr).2 = tr'.
Proof.
  intros Hopts Hstart. unfold verify_smtp_recipients.
  cbn [verify_take verify_next]. rewrite Hopts, Hstart.
  cbn [verify_handle]. destruct emails as [|e emails]; simpl; [done |].
  destruct (verify_take_in_except E n r emails tr') as [H1 H2].
  destruct (verify_take E n (V_in_except r emails) tr') as [[rs g] tr1].
  simpl in *. by subst.
Qed.

Lemma verify_take_S E n g tr :
  verify_take E (S n) g tr =
  match verify_next E g tr with
  | (Ok (Some r), g', tr') =>
      let '(rs, g'', tr'') := verify_take E n g' tr' in (r :: rs, g'', tr'')
  | (_, g', tr') => ([], g', tr')
  end.
Proof. reflexivity. Qed.

(** The generator between two ordinary replies. *)
Lemma verify_take_ordinary E s h all rest codes c tr :
  _smtp s = Some h ->
  ordinary_replies E h rest tr codes ->
  code_in c [552; 554]%Z = false ->
  (verify_take E (length rest) (V_in_session s all (R_yield_probed c rest)) tr).1.1
    = zip_with result_of rest codes /\
  (verify_take E (length rest) (V_in_session s all (R_yield_probed c rest)) tr).2
    = (EvRcpt h <$> rev rest) ++ tr.
Proof.
  intros Hs. revert codes c tr.
  induction rest as [|e rest IH]; intros codes c tr Hrest Hc.
  { by destruct codes. }
  destruct codes as [|c1 codes]; [done |].
  destruct Hrest as (Hrcpt & Hc1 & Hrest).
  change (length (e :: rest)) with (S (length rest)). rewrite verify_take_S.
  rewrite (verify_next_at_rcpt E _ tr s tr all e rest h c1); [| | done | done].
  2: { unfold at_rcpt. by rewrite Hc. }
  destruct (IH codes c1 (EvRcpt h e :: tr) Hrest Hc1) as [IH1 IH2].
  destruct (verify_take E (length rest) _ (EvRcpt h e :: tr)) as [[rs g] tr1].
  simpl in IH1, IH2. subst rs tr1. split; [done |].
  cbn [fst snd rev]. rewrite fmap_app. cbn. by rewrite <- app_assoc.
Qed.

(** X4. Recipients that all get an ordinary reply (no exception, no 552
    or 554; the reply to a RCPT may depend on everything that happened
    before it) are probed on the one connection that was opened: one RCPT
    per recipient in the order given, one result per recipient in the same
    order, accepted exactly on 250 or 251. *)
Theorem ordinary_replies_in_order E host' e emails opts tr h s tr0 codes :
  unexpected_keywords opts = [] ->
  start E (SMTPSession_init host' opts) tr = (Ok h, s, tr0) ->
  ordinary_replies E h (e :: emails) tr0 codes ->
  let run := verify_take E (length (e :: emails))
               (verify_smtp_recipients host' (e :: emails) opts) tr in
  run.1.1 = zip_with result_of (e :: emails) codes /\
  run.2 = (EvRcpt h <$> rev (e :: emails)) ++ tr0.
Proof.
  intros Hopts Hstart Hall run. subst run.
  pose proof (start_ok _ _ _ _ _ _ Hstart) as Hs.
  assert (_smtp s = Some h) as Hsmtp by (by subst s).
  destruct codes as [|c codes]; [done |].
  destruct Hall as (Hrcpt & Hc & Hrest).
  unfold verify_smtp_recipients.
  change (length (e :: emails)) with (S (length emails)). rewrite verify_take_S.
  rewrite (verify_next_at_rcpt E _ tr s tr0 (e :: emails) e emails h c);
    [| | done | done].
  2: { unfold at_rcpt. repeat split; try done. by exists h. }
  destruct (verify_take_ordinary E s h (e :: emails) emails codes c
              (EvRcpt h e :: tr0) Hsmtp Hrest Hc) as [H1 H2].
  destruct (verify_take E (length emails) _ (EvRcpt h e :: tr0)) as [[rs g] tr1].
  simpl in H1, H2. subst rs tr1. split; [done |].
  cbn [fst snd rev]. rewrite fmap_app. cbn. by rewrite <- app_assoc.
Qed.

(** The generator once the session is inactive. *)
Lemma verify_take_inactive E s all rest tr :
  _smtp s = None ->
  (verify_take E (S (length rest)) (V_in_session s all (R_yield_inactive rest)) tr).1.1
    = (fun e => (e, false, "rejected_email")) <$> rest /\
  (verify_take E (S (length rest)) (V_in_session s all (R_yield_inactive rest)) tr).2
    = tr.
Proof.
  intros Hs. induction rest as [|e rest IH].
  - cbn [length verify_take verify_next]. unfold verify_in_session.
    cbn [recipients_next recipients_loop]. unfold sm_ret.
    unfold quit, sm_bind, try_except, get_self, set_smtp, sm_ret.
    by rewrite Hs.
  - change (length (e :: rest)) with (S (length rest)).
    destruct IH as [IH1 IH2].
    rewrite verify_take_S.
    change (verify_next E (V_in_session s all (R_yield_inactive (e :: rest))) tr)
      with (Ok (Some (e, false, "rejected_email")),
            V_in_session s all (R_yield_inactive rest), tr).
    cbn beta iota.
    destruct (verify_take E (S (length rest)) _ tr) as [[rs g] tr1].
    simpl in *. by subst.
Qed.

(** The first step of the generator when the first RCPT loses the
    connection. *)
Lemma verify_next_lost E host' e rest opts tr h s tr0 x :
  unexpected_keywords opts = [] ->
  start E (SMTPSession_init host' opts) tr = (Ok h, s, tr0) ->
  smtp_rcpt E tr0 h e = Raise x ->
  x = socket_timeout \/ x = SMTPServerDisconnected ->
  smtp_quit E (EvRcpt h e :: tr0) h = Ok tt \/
  smtp_quit E (EvRcpt h e :: tr0) h = Raise SMTPServerDisconnected ->
  verify_next E (V_start host' (e :: rest) opts) tr =
  match rest with
  | [] => (Ok None, V_done, EvQuit h :: EvRcpt h e :: tr0)
  | e2 :: rest' =>
      (Ok (Some (e2, false, "rejected_email")),
       V_in_session (with_smtp None s) (e :: rest) (R_yield_inactive rest'),
       EvQuit h :: EvRcpt h e :: tr0)
  end.
Proof.
  intros Hopts Hstart Hrcpt Hx Hquit.
  pose proof (start_ok _ _ _ _ _ _ Hstart) as Hs.
  assert (_smtp s = Some h) as Hsmtp by (by subst s).
  cbn [verify_next]. rewrite Hopts, Hstart.
  unfold verify_in_session. cbn [recipients_next].
  unfold sm_bind at 1. unfold get_self. rewrite Hsmtp. cbn beta iota.
  rewrite (lost_recipient_skipped E s tr0 h e rest x Hsmtp Hrcpt Hx).
  rewrite (quit_connected E s _ h Hsmtp Hquit).
  destruct rest as [|e2 rest]; cbn [recipients_loop]; unfold sm_ret;
    cbn beta iota; [| done].
  unfold quit, sm_bind, try_except, get_self, set_smtp, sm_ret. by simpl.
Qed.

(** X5. When the RCPT of the first recipient raises [socket.timeout] or
    [SMTPServerDisconnected] and the QUIT of the teardown that follows
    returns or raises [SMTPServerDisconnected], the recipients after it
    are reported as not accepted, with reason [rejected_email], without
    any further call: the only call after that RCPT is that QUIT. *)
Theorem lost_connection_rest_rejected E host' e rest opts tr h s tr0 x :
  unexpected_keywords opts = [] ->
  start E (SMTPSession_init host' opts) tr = (Ok h, s, tr0) ->
  smtp_rcpt E tr0 h e = Raise x ->
  x = socket_timeout \/ x = SMTPServerDisconnected ->
  smtp_quit E (EvRcpt h e :: tr0) h = Ok tt \/
  smtp_quit E (EvRcpt h e :: tr0) h = Raise SMTPServerDisconnected ->
  let run := verify_take E (S (length rest))
               (verify_smtp_recipients host' (e :: rest) opts) tr in
  run.1.1 = (fun e' => (e', false, "rejected_email")) <$> rest /\
  run.2 = EvQuit h :: EvRcpt h e :: tr0.
Proof.
  intros Hopts Hstart Hrcpt Hx Hquit run. subst run.
  unfold verify_smtp_recipients. rewrite verify_take_S.
  rewrite (verify_next_lost E host' e rest opts tr h s tr0 x) by done.
  destruct rest as [|e2 rest]; [done |].
  destruct (verify_take_inactive E (with_smtp None s) (e :: e2 :: rest) rest
              (EvQuit h :: EvRcpt h e :: tr0) eq_refl) as [H1 H2].
  change (length (e2 :: rest)) with (S (length rest)).
  destruct (verify_take E (S (length rest)) _ _) as [[rs g] tr1].
  simpl in *. by subst.
Qed.

(** X6. With a library that raises only its own exceptions, every
    result that [verify_smtp_recipients] yields is accepted with reason
    [accepted_email], or not accepted with reason [rejected_email],
    [no_connect], [timeout] or [invalid_smtp]. *)
Theorem probe_results_classified E host' emails opts tr n :
  smtplib_env E ->
  Forall (fun p : probe_result =>
            (p.1.2 = true /\ p.2 = "accepted_email") \/
            (p.1.2 = false /\ (p.2 = "rejected_email" \/ session_reason p.2)))
         (verify_take E n (verify_smtp_recipients host' emails opts) tr).1.1.
Proof.
  intros HE. unfold verify_smtp_recipients.
  assert (gen_known (V_start host' emails opts)) as Hg by done.
  revert Hg. generalize (V_start host' emails opts) as g. revert tr.
  induction n as [|n IH]; intros tr g Hg; simpl; [constructor |].
  destruct (verify_next E g tr) as [[res g'] tr'] eqn:Hn.
  destruct (verify_next_known E HE _ _ _ _ _ Hg Hn) as [Hg' Hres].
  destruct res as [[[[who a] r]|]|y]; try constructor.
  specialize (IH tr' g' Hg').
  destruct (verify_take E n g' tr') as [[rs g''] tr''].
  simpl in *. constructor; [| done].
  destruct (Hres who a r eq_refl) as [[-> ->]|[[-> ->]|[-> H]]]; simpl; tauto.
Qed.

(** ** More of inspect.py: the records that [inspect_list] returns *)

Lemma groupby_concat {A K} `{EqDecision K} (key : A -> K) (l : list A) :
  concat ((fun kg => kg.2) <$> groupby key l) = l.
Proof.
  induction l as [|x l IH]; [done |]. cbn [groupby].
  destruct (groupby key l) as [|[k g] gs]; [by rewrite <- IH |].
  case_decide; cbn in *; by rewrite <- IH.
Qed.

Lemma groupby_nonempty {A K} `{EqDecision K} (key : A -> K) (l : list A) :
  Forall (fun kg => kg.2 <> []) (groupby key l).
Proof.
  induction l as [|x l IH]; [constructor |]. cbn [groupby].
  destruct (groupby key l) as [|[k g] gs]; [by repeat constructor |].
  inversion IH; subst. case_decide; repeat constructor; done.
Qed.

Lemma groupby_elem_of {A K} `{EqDecision K} (key : A -> K) (l : list A) k g i :
  (k, g) ∈ groupby key l -> i ∈ g -> i ∈ l.
Proof.
  revert k g. induction l as [|x l IH]; intros k g; cbn [groupby].
  { by intros ?%elem_of_nil. }
  destruct (groupby key l) as [|[k' g'] gs].
  - intros [= -> ->]%list_elem_of_singleton Hi.
    apply list_elem_of_singleton in Hi as ->. by left.
  - case_decide.
    + intros [[= -> ->]|Hg]%elem_of_cons Hi.
      * apply elem_of_cons in Hi as [->|Hi]; [by left |].
        right. eapply IH; [by left | done].
      * right. eapply IH; [by right | done].
    + intros [[= -> ->]|Hg]%elem_of_cons Hi.
      * apply list_elem_of_singleton in Hi as ->. by left.
      * right. by eapply IH.
Qed.

(** The first loop, record by record. *)
Lemma inspect_addresses_records E l mx tr l' mx' tr' :
  inspect_addresses E l mx tr = (Ok (l', mx'), tr') ->
  Forall2 (fun a a' =>
             (is_valid_address E (query a) = false /\ a' = set_invalid a) \/
             (is_valid_address E (query a) = true /\
              exists exs, a' = set_resolved E exs a)) l l'.
Proof.
  revert mx tr l' mx' tr'. induction l as [|a l IH]; intros mx tr l' mx' tr'; simpl.
  { intros [= <- _ _]. constructor. }
  unfold inspect_address.
  destruct (is_valid_address E (query a)) eqn:Hv; simpl.
  - destruct (cached_exchanges E _ mx tr) as [[[exs c1]|e] tr1]; [| done].
    destruct (inspect_addresses E l c1 tr1) as [[[l2 c2]|e] tr2] eqn:Hl; [| done].
    intros [= <- _ _]. constructor; [| by eapply IH].
    right. split; [done |]. by exists exs.
  - destruct (inspect_addresses E l mx tr) as [[[l2 c2]|e] tr2] eqn:Hl; [| done].
    intros [= <- _ _]. constructor; [| by eapply IH].
    by left.
Qed.

Lemma has_exchanges_set_resolved E exs a :
  has_exchanges (set_resolved E exs a) = match exs with [] => false | _ => true end.
Proof.
  unfold has_exchanges. destruct (set_resolved_frame E exs a) as (_ & _ & -> & _).
  by destruct exs.
Qed.

Lemma set_probe_set_probe r c x r' c' x' a :
  set_probe r c x (set_probe r' c' x' a) = set_probe r c x a.
Proof. reflexivity. Qed.

Section Touched.

Variable E : Env.
Variable Q : string -> Prop.
Variable G : verify_gen -> Prop.
Hypothesis G_start : forall h l o, G (V_start h l o).
Hypothesis G_next : forall g tr res g' tr',
  G g -> verify_next E g tr = (res, g', tr') ->
  G g' /\ forall who a r, res = Ok (Some (who, a, r)) -> Q r.
Variable l1 : list EmailAddress.

Lemma alter_touched (l : list EmailAddress) i r c x :
  Forall2 (touched Q) l1 l ->
  (forall a1, l1 !! i = Some a1 -> has_exchanges a1 = true) ->
  Q r -> (c = true -> r = "accepted_email") ->
  Forall2 (touched Q) l1 (alter (set_probe r c x) i l).
Proof.
  intros Hl Hi Hr Hc. apply Forall2_same_length_lookup_2.
  { rewrite length_alter. by eapply Forall2_length. }
  intros j a1 a' Ha1 Ha'.
  destruct (decide (i = j)) as [->|Hne].
  - rewrite list_lookup_alter_eq in Ha'.
    destruct (l !! j) as [a|] eqn:Ha; [| done]. injection Ha' as <-.
    pose proof (Forall2_lookup_lr _ _ _ _ _ _ Hl Ha1 Ha) as [-> | (Hx & r' & c' & x' & _ & _ & ->)].
    + right. split; [by apply Hi |]. by exists r, c, x.
    + right. split; [done |]. exists r, c, x. by rewrite set_probe_set_probe.
  - rewrite list_lookup_alter_ne in Ha' by done.
    by eapply Forall2_lookup_lr.
Qed.

Lemma update_all_touched group (l : list EmailAddress) r c x :
  Forall2 (touched Q) l1 l -> group_ok l1 group ->
  Q r -> (c = true -> r = "accepted_email") ->
  Forall2 (touched Q) l1 (update_all (set_probe r c x) group l).
Proof.
  intros Hl Hg Hr Hc. unfold update_all. revert l Hl.
  induction Hg as [|i group Hi Hg IH]; intros l Hl; simpl; [done |].
  apply IH. by apply alter_touched.
Qed.

Lemma izip_probe_touched x group it l tr l' it' tr' :
  Forall2 (touched Q) l1 l -> group_ok l1 group -> G it ->
  izip_probe E x false group it l tr = (Ok l', it', tr') ->
  Forall2 (touched Q) l1 l' /\ G it'.
Proof.
  intros Hl Hg. revert it l tr Hl.
  induction Hg as [|i group Hi Hg IH]; intros it l tr Hl Hit; simpl.
  { by intros [= <- <- _]. }
  destruct (verify_next E it tr) as [[[[[[e a] r]|]|y] it1] tr1] eqn:Hn.
  - destruct (G_next _ _ _ _ _ Hit Hn) as [Hit1 Hr].
    apply IH; [| done]. apply alter_touched; try done. by eapply Hr.
  - destruct (G_next _ _ _ _ _ Hit Hn) as [Hit1 _]. by intros [= <- <- _].
  - done.
Qed.

Lemma verify_smtp_recipient_Q h e opts tr who ca r tr' :
  verify_smtp_recipient E h e opts tr = (Ok (who, ca, r), tr') -> Q r.
Proof.
  unfold verify_smtp_recipient, verify_smtp_recipients.
  destruct (verify_next E _ tr) as [[[[[[w a] r0]|]|y] g] tr1] eqn:Hn; try done.
  intros [= _ _ <- _].
  destruct (G_next _ _ _ _ _ (G_start h [e] opts) Hn) as [_ Hr]. by eapply Hr.
Qed.

Lemma probe_exchanges_touched exs cae group emails opts l it tr l' it' tr' :
  Forall2 (touched Q) l1 l -> group_ok l1 group -> from_option G True it ->
  probe_exchanges E exs cae group emails opts l it tr = (Ok (l', it'), tr') ->
  Forall2 (touched Q) l1 l' /\ from_option G True it'.
Proof.
  intros Hl Hg Hit. revert tr.
  induction exs as [|ex exs IH]; intros tr; simpl.
  { by intros [= <- <- _]. }
  destruct (verify_smtp_recipient E _ cae opts tr) as [[[[e ca] r]|y] tr1] eqn:Hp;
    [| done].
  pose proof (verify_smtp_recipient_Q _ _ _ _ _ _ _ _ Hp) as Hr.
  destruct (String.eqb r "no_connect"); [apply IH |].
  destruct ca.
  - pose proof (verify_smtp_recipient_accepted _ _ _ _ _ _ _ _ Hp) as ->.
    intros [= <- <- _]. split; [| done]. by apply update_all_touched.
  - destruct (izip_probe E _ false group _ l _) as [[[l2|y] it2] tr2] eqn:Hz;
      [| done].
    intros [= <- <- _].
    by destruct (izip_probe_touched _ _ _ _ _ _ _ _ Hl Hg (G_start _ _ _) Hz).
Qed.

Lemma inspect_groups_touched opts groups l it tr l' it' tr' :
  Forall2 (touched Q) l1 l ->
  Forall (fun kg => group_ok l1 kg.2) groups -> from_option G True it ->
  inspect_groups E opts groups l it tr = (Ok (l', it'), tr') ->
  Forall2 (touched Q) l1 l'.
Proof.
  intros Hl Hgs. revert l it tr Hl.
  induction Hgs as [|[d group] groups Hg Hgs IH]; intros l it tr Hl Hit; simpl.
  { by intros [= <- _ _]. }
  unfold inspect_group.
  destruct group as [|first group']; [done |].
  match goal with
  | |- context [probe_exchanges E ?exs ?cae ?g ?em ?o l it ?t] =>
      destruct (probe_exchanges E exs cae g em o l it t)
        as [[[l2 it2]|y] tr2] eqn:Hp; [| done]
  end.
  destruct (probe_exchanges_touched _ _ _ _ _ _ _ _ _ _ _ Hl Hg Hit Hp)
    as [Hl2 Hit2].
  by apply IH.
Qed.

End Touched.

Lemma groups_ok l1 :
  Forall (fun kg : option string * list nat => group_ok l1 kg.2)
         (groupby (domain_at l1) (with_exchanges l1)).
Proof.
  apply Forall_forall. intros [k g] Hg. apply Forall_forall. intros i Hi a1 Ha1.
  pose proof (groupby_elem_of _ _ _ _ _ Hg Hi) as Hw.
  apply elem_of_with_exchanges in Hw as (a & Ha & Hx). congruence.
Qed.

Lemma init_fmap_lookup inputs i q :
  inputs !! i = Some q ->
  map EmailAddress_init inputs !! i = Some (EmailAddress_init q).
Proof.
  revert i. induction inputs as [|q' inputs IH]; intros [|i]; simpl; try done.
  - by intros [= ->].
  - apply IH.
Qed.

Lemma init_fmap_length inputs :
  length (map EmailAddress_init inputs) = length inputs.
Proof. apply length_map. Qed.

Section Shape.

Variable E : Env.
Variable Q : string -> Prop.
Variable G : verify_gen -> Prop.
Hypothesis G_start : forall h l o, G (V_start h l o).
Hypothesis G_next : forall g tr res g' tr',
  G g -> verify_next E g tr = (res, g', tr') ->
  G g' /\ forall who a r, res = Ok (Some (who, a, r)) -> Q r.

(** Every record that [inspect_list] returns is the record of an invalid
    address, of a valid address without exchange, or the finalized record
    of a valid address with exchanges that the SMTP phase may have
    marked. *)
Lemma inspect_list_shape inputs opts tr0 rs tr :
  inspect_list E inputs opts tr0 = (Ok rs, tr) ->
  Forall2 (record_of E Q) inputs rs.
Proof.
  unfold inspect_list. destruct (extra_opts opts); [| done].
  destruct (inspect_addresses E _ ∅ tr0) as [[[l1 c]|e] tr1] eqn:H1; [| done].
  destruct (inspect_groups E opts _ l1 None tr1) as [[[l2 it]|e] tr2] eqn:H2;
    [| done].
  intros [= <- _].
  pose proof (inspect_addresses_records _ _ _ _ _ _ _ H1) as Hrec.
  assert (Forall2 (touched Q) l1 l2) as Ht.
  { eapply (inspect_groups_touched E Q G G_start G_next l1); try exact H2.
    - apply Forall2_same_length_lookup_2; [done |].
      intros i a a' Ha Ha'. left. congruence.
    - apply groups_ok.
    - done. }
  apply Forall2_same_length_lookup_2.
  { rewrite <- (length_fmap frame (update_all _ _ _)), update_all_frame
      by apply frame_finalize.
    rewrite length_fmap, <- (Forall2_length _ _ _ Ht), <- (Forall2_length _ _ _ Hrec).
    by rewrite init_fmap_length. }
  intros i q a Hq Ha.
  rewrite update_all_lookup in Ha by apply with_exchanges_NoDup.
  pose proof (init_fmap_lookup _ _ _ Hq) as Hinit.
  destruct (Forall2_lookup_l _ _ _ _ _ Hrec Hinit) as (a1 & Ha1 & Hshape).
  destruct (Forall2_lookup_l _ _ _ _ _ Ht Ha1) as (a2 & Ha2 & Ht2).
  rewrite Ha2 in Ha. simpl in Hshape.
  destruct Hshape as [[Hv ->] | (Hv & exs & ->)].
  - left. split; [done |].
    destruct Ht2 as [-> | (Hx & _)]; [| done].
    case_decide as Hin; [| by injection Ha as <-].
    apply elem_of_with_exchanges in Hin as (a' & Ha' & Hx). by simplify_eq.
  - right. split; [done |]. destruct exs as [|ex exs].
    + left. destruct Ht2 as [-> | (Hx & _)].
      * case_decide as Hin; [| by injection Ha as <-].
        apply elem_of_with_exchanges in Hin as (a' & Ha' & Hx).
        simplify_eq. by rewrite has_exchanges_set_resolved in Hx.
      * by rewrite has_exchanges_set_resolved in Hx.
    + right. exists ex, exs, a2. split; [done |].
      rewrite decide_True in Ha; [by injection Ha as <- |].
      apply elem_of_with_exchanges. eexists. split; [done |].
      by rewrite has_exchanges_set_resolved.
Qed.

End Shape.

(** Without any assumption on the environment. *)
Lemma inspect_list_records E inputs opts tr0 rs tr :
  inspect_list E inputs opts tr0 = (Ok rs, tr) ->
  Forall2 (record_of E (fun _ => True)) inputs rs.
Proof.
  apply (inspect_list_shape E (fun _ => True) (fun _ => True)); [done |].
  by intros.
Qed.

(** With a library that raises only its own exceptions. *)
Lemma inspect_list_records_known E inputs opts tr0 rs tr :
  smtplib_env E ->
  inspect_list E inputs opts tr0 = (Ok rs, tr) ->
  Forall2 (record_of E probe_reason) inputs rs.
Proof.
  intros HE. apply (inspect_list_shape E probe_reason gen_known); [done |].
  intros g tr1 res g' tr' Hg Hn.
  destruct (verify_next_known E HE _ _ _ _ _ Hg Hn) as [Hg' Hres].
  split; [done |]. intros who a r Hr. unfold probe_reason.
  destruct (Hres _ _ _ Hr) as [[_ ->]|[[_ ->]|[_ H]]]; tauto.
Qed.

Lemma record_of_elem E Q inputs rs a :
  Forall2 (record_of E Q) inputs rs -> a ∈ rs ->
  exists q, q ∈ inputs /\ record_of E Q q a.
Proof.
  intros HF [i Hi]%list_elem_of_lookup.
  destruct (Forall2_lookup_r _ _ _ _ _ HF Hi) as (q & Hq & Hr).
  exists q. split; [| done]. apply list_elem_of_lookup. by exists i.
Qed.

Lemma set_resolved_fields E exs a :
  let a' := set_resolved E exs a in
  status a' = match exs with [] => UNDELIVERABLE | _ => status a end /\
  reason a' = Some (match exs with [] => "invalid_domain" | _ => "no_connect" end) /\
  exchange a' = exchange a /\ catch_all a' = catch_all a /\
  is_Some (email a') /\ is_Some (disposable a').
Proof.
  unfold set_resolved. destruct (split_email E _). simpl.
  destruct exs; repeat split; by eexists.
Qed.

(** X7. Every record that [inspect_list] returns has a status other than
    [unknown]: exactly one of [is_deliverable], [is_risky] and
    [is_undeliverable] holds for it. *)
Theorem status_is_decided E email_addresses smtp_opts tr0 addresses tr addr :
  inspect_list E email_addresses smtp_opts tr0 = (Ok addresses, tr) ->
  addr ∈ addresses ->
  status addr <> UNKNOWN /\
  ((is_deliverable addr = true /\ is_risky addr = false /\
    is_undeliverable addr = false) \/
   (is_deliverable addr = false /\ is_risky addr = true /\
    is_undeliverable addr = false) \/
   (is_deliverable addr = false /\ is_risky addr = false /\
    is_undeliverable addr = true)).
Proof.
  intros Hrun Ha.
  destruct (record_of_elem _ _ _ _ _ (inspect_list_records _ _ _ _ _ _ Hrun) Ha)
    as (q & _ & Hrec).
  assert (status addr = DELIVERABLE \/ status addr = RISKY \/
          status addr = UNDELIVERABLE) as Hst.
  { destruct Hrec as [[_ ->] | (_ & [-> | (ex & exs & a2 & _ & ->)])].
    - tauto.
    - destruct (set_resolved_fields E [] (EmailAddress_init q)) as (-> & _). tauto.
    - simpl. unfold final_status. destruct (reason a2) as [r|]; [| tauto].
      destruct (String.eqb r "accepted_email"); [| tauto].
      destruct (_ || _); tauto. }
  unfold is_deliverable, is_risky, is_undeliverable.
  destruct Hst as [-> | [-> | ->]]; split; try done; tauto.
Qed.

(** X8. The record of an address that [is_valid_address] refuses: status
    [undeliverable], reason [invalid_email], and nothing else was
    assigned (no normalized address, no exchanges). *)
Theorem invalid_address_record E email_addresses smtp_opts tr0 addresses tr i q :
  inspect_list E email_addresses smtp_opts tr0 = (Ok addresses, tr) ->
  email_addresses !! i = Some q ->
  is_valid_address E q = false ->
  exists addr,
    addresses !! i = Some addr /\ query addr = q /\ valid addr = Some false /\
    status addr = UNDELIVERABLE /\ reason addr = Some "invalid_email" /\
    email addr = None /\ all_exchanges addr = None /\ exchange addr = None /\
    catch_all addr = false.
Proof.
  intros Hrun Hq Hv.
  destruct (Forall2_lookup_l _ _ _ _ _ (inspect_list_records _ _ _ _ _ _ Hrun) Hq)
    as (a & Ha & Hrec).
  exists a. split; [done |].
  destruct Hrec as [[_ ->] | (Hv' & _)]; [| congruence].
  by repeat split.
Qed.

(** X9. A returned record whose list of exchanges is empty belongs to a
    valid address and has status [undeliverable] and reason
    [invalid_domain]; it was not probed. *)
Theorem no_exchange_record E email_addresses smtp_opts tr0 addresses tr addr :
  inspect_list E email_addresses smtp_opts tr0 = (Ok addresses, tr) ->
  addr ∈ addresses ->
  all_exchanges addr = Some [] ->
  valid addr = Some true /\ status addr = UNDELIVERABLE /\
  reason addr = Some "invalid_domain" /\ exchange addr = None /\
  catch_all addr = false.
Proof.
  intros Hrun Ha Hx.
  destruct (record_of_elem _ _ _ _ _ (inspect_list_records _ _ _ _ _ _ Hrun) Ha)
    as (q & _ & Hrec).
  destruct Hrec as [[_ ->] | (_ & [-> | (ex & exs & a2 & Ht & ->)])].
  - done.
  - destruct (set_resolved_frame E [] (EmailAddress_init q)) as (_ & Hv & _ & _).
    destruct (set_resolved_fields E [] (EmailAddress_init q))
      as (H1 & H2 & H3 & H4 & _).
    by rewrite Hv, H1, H2, H3, H4.
  - exfalso.
    destruct (set_resolved_frame E (ex :: exs) (EmailAddress_init q))
      as (_ & _ & Hx1 & _).
    destruct Ht as [-> | (_ & r & c & x & _ & _ & ->)]; simpl in Hx; congruence.
Qed.

(** X10. A returned record with status [deliverable] has reason
    [accepted_email], is not catch-all and not disposable; one with status
    [risky] has reason [accepted_email] and is catch-all or disposable.
    Both belong to valid addresses with exchanges. *)
Theorem deliverable_and_risky_are_accepted E email_addresses smtp_opts tr0
    addresses tr addr :
  inspect_list E email_addresses smtp_opts tr0 = (Ok addresses, tr) ->
  addr ∈ addresses ->
  (status addr = DELIVERABLE ->
   reason addr = Some "accepted_email" /\ catch_all addr = false /\
   truthy (disposable addr) = false /\ has_exchanges addr = true) /\
  (status addr = RISKY ->
   reason addr = Some "accepted_email" /\
   (catch_all addr = true \/ truthy (disposable addr) = true) /\
   has_exchanges addr = true).
Proof.
  intros Hrun Ha.
  destruct (record_of_elem _ _ _ _ _ (inspect_list_records _ _ _ _ _ _ Hrun) Ha)
    as (q & _ & Hrec).
  destruct Hrec as [[_ ->] | (_ & [-> | (ex & exs & a2 & Ht & ->)])].
  - by split.
  - destruct (set_resolved_fields E [] (EmailAddress_init q)) as (-> & _).
    by split.
  - assert (has_exchanges a2 = true /\ gibberish a2 = false) as [Hx Hg].
    { pose proof (has_exchanges_set_resolved E (ex :: exs) (EmailAddress_init q))
        as Hx.
      destruct (set_resolved_frame E (ex :: exs) (EmailAddress_init q))
        as (_ & _ & _ & Hg).
      destruct Ht as [-> | (_ & r & c & x & _ & _ & ->)]; by split. }
    change (status (finalize a2)) with (final_status a2).
    change (reason (finalize a2)) with (reason a2).
    change (catch_all (finalize a2)) with (catch_all a2).
    change (disposable (finalize a2)) with (disposable a2).
    change (has_exchanges (finalize a2)) with (has_exchanges a2).
    unfold final_status. rewrite Hg.
    destruct (reason a2) as [r|]; [| by split].
    destruct (String.eqb_spec r "accepted_email") as [->|]; [| by split].
    destruct (truthy (disposable a2)), (catch_all a2); simpl; split; intros;
      try done; tauto.
Qed.

(** X11. With a library that raises only its own exceptions, the reason
    of every returned record is one of the seven codes [invalid_email],
    [invalid_domain], [no_connect], [timeout], [invalid_smtp],
    [accepted_email], [rejected_email]. *)
Theorem reason_is_a_known_code E email_addresses smtp_opts tr0 addresses tr addr :
  smtplib_env E ->
  inspect_list E email_addresses smtp_opts tr0 = (Ok addresses, tr) ->
  addr ∈ addresses ->
  final_reason (reason addr).
Proof.
  intros HE Hrun Ha.
  destruct (record_of_elem _ _ _ _ _
              (inspect_list_records_known _ _ _ _ _ _ HE Hrun) Ha)
    as (q & _ & Hrec).
  unfold final_reason.
  destruct Hrec as [[_ ->] | (_ & [-> | (ex & exs & a2 & Ht & ->)])].
  - by left.
  - destruct (set_resolved_fields E [] (EmailAddress_init q)) as (_ & -> & _).
    right. by left.
  - right. right.
    destruct (set_resolved_fields E (ex :: exs) (EmailAddress_init q))
      as (_ & Hr & _).
    destruct Ht as [-> | (_ & r & c & x & HQ & _ & ->)].
    + eexists. split; [exact Hr |]. unfold probe_reason, session_reason. tauto.
    + by exists r.
Qed.

(** ** More of inspect.py: whole runs under assumptions on the servers *)

Lemma with_exchanges_none l :
  Forall (fun a => has_exchanges a = false) l -> with_exchanges l = [].
Proof.
  intros Hl. apply elem_of_nil_inv. intros i (a & Ha & Hx)%elem_of_with_exchanges.
  pose proof (Forall_lookup_1 _ _ _ _ Hl Ha). congruence.
Qed.

Lemma inspect_addresses_invalid E l mx tr :
  Forall (fun a => is_valid_address E (query a) = false) l ->
  inspect_addresses E l mx tr = (Ok (set_invalid <$> l, mx), tr).
Proof.
  induction 1 as [|a l Ha Hl IH]; [done |].
  cbn [inspect_addresses]. unfold inspect_address. rewrite Ha. cbn [negb].
  by rewrite IH.
Qed.

(** X12. When [is_valid_address] refuses every address of the input (an
    empty input included), [inspect_list] returns without a single DNS or
    SMTP call; each record is the initial record with status
    [undeliverable] and reason [invalid_email]. *)
Theorem invalid_addresses_make_no_call E email_addresses smtp_opts tr :
  extra_opts smtp_opts = [] ->
  Forall (fun q => is_valid_address E q = false) email_addresses ->
  inspect_list E email_addresses smtp_opts tr =
  (Ok ((fun q => set_invalid (EmailAddress_init q)) <$> email_addresses), tr).
Proof.
  intros Hopts Hall. unfold inspect_list. rewrite Hopts.
  rewrite inspect_addresses_invalid.
  2: { clear Hopts. induction Hall; simpl; by constructor. }
  rewrite with_exchanges_none.
  2: { clear. induction email_addresses; simpl; by constructor. }
  cbn [groupby inspect_groups from_option]. unfold update_all. cbn [foldl].
  f_equal. f_equal.
  clear. induction email_addresses as [|q l IH]; [done |].
  cbn [map]. rewrite !fmap_cons. by rewrite IH.
Qed.

(** The keyword options that [inspect_list] lets through are those
    [SMTPSession] takes. *)
Lemma extra_opts_unexpected opts :
  extra_opts opts = [] -> unexpected_keywords opts = [].
Proof.
  unfold extra_opts, unexpected_keywords. intros H.
  rewrite <- H. apply list_filter_iff. intros k.
  unfold SMTPSession_keywords, valid_opts.
  rewrite !elem_of_cons, elem_of_nil. simpl. split; intros Hk Hin; apply Hk;
    intuition (subst; auto).
Qed.

(** With an installed dnspython that answers or raises [DNSException],
    the first loop does not raise and makes DNS calls only. *)
Lemma resolve_mx_records_total E d tr :
  dns_env E ->
  exists exs tr',
    resolve_mx_records E d false tr = (Ok exs, tr') /\
    adds (fun ev => is_rcpt ev = false) tr tr'.
Proof.
  intros [Hdns Hq]. unfold resolve_mx_records. rewrite Hdns. simpl.
  destruct (dns_resolver_query E _ _) as [ans|e] eqn:He.
  - eexists _, _. split; [done |]. exists [EvDnsQuery (lookup_name d); EvResolve d].
    split; [done |]. by repeat constructor.
  - rewrite (Hq _ _ _ He). eexists _, _. split; [done |].
    exists [EvDnsQuery (lookup_name d); EvResolve d].
    split; [done |]. by repeat constructor.
Qed.

Lemma inspect_addresses_total E l mx tr :
  dns_env E ->
  exists l1 mx1 tr1,
    inspect_addresses E l mx tr = (Ok (l1, mx1), tr1) /\
    adds (fun ev => is_rcpt ev = false) tr tr1.
Proof.
  intros HE. revert mx tr. induction l as [|a l IH]; intros mx tr.
  { eexists _, _, _. split; [done | apply adds_refl]. }
  cbn [inspect_addresses]. unfold inspect_address, cached_exchanges.
  destruct (negb _).
  - destruct (IH mx tr) as (l1 & mx1 & tr1 & -> & H).
    by eexists _, _, _.
  - destruct (mx !! _) as [exs|].
    + destruct (IH mx tr) as (l1 & mx1 & tr1 & -> & H). by eexists _, _, _.
    + destruct (resolve_mx_records_total E (split_email E (query a)).2 tr HE)
        as (exs & tr' & -> & H').
      destruct (IH (<[(split_email E (query a)).2 := exs]> mx) tr')
        as (l1 & mx1 & tr1 & -> & H).
      eexists _, _, _. split; [done |]. by eapply adds_trans.
Qed.

Lemma start_unreachable E s tr :
  unreachable E ->
  start E s tr =
  (Raise (SMTPSessionError "no_connect"), with_smtp (Some (length tr)) s,
   EvConnect (length tr) (host s)
     :: EvSMTP (length tr) (local_hostname s) (timeout s) (debuglevel s) :: tr).
Proof.
  intros HE. unfold start, sm_bind, try_except, get_self, set_smtp, call.
  simpl. destruct (HE (EvSMTP (length tr) (local_hostname s) (timeout s)
                         (debuglevel s) :: tr) (length tr) (host s))
    as (e & -> & He).
  by rewrite He.
Qed.

Lemma probe_exchanges_unreachable E exs cae group emails opts l it tr :
  unreachable E -> unexpected_keywords opts = [] ->
  exists tr',
    probe_exchanges E exs cae group emails opts l it tr = (Ok (l, it), tr') /\
    adds (fun ev => is_rcpt ev = false) tr tr'.
Proof.
  intros HE Hopts. revert tr. induction exs as [|ex exs IH]; intros tr.
  { eexists. split; [done | apply adds_refl]. }
  cbn [probe_exchanges]. unfold verify_smtp_recipient, verify_smtp_recipients.
  cbn [verify_next]. rewrite Hopts, (start_unreachable E _ tr HE).
  cbn [verify_handle verify_except_loop verify_close]. cbn beta iota.
  destruct (IH (EvConnect (length tr) (ex_exchange ex)
                  :: EvSMTP (length tr)
                       (local_hostname (SMTPSession_init (ex_exchange ex) opts))
                       (timeout (SMTPSession_init (ex_exchange ex) opts))
                       (debuglevel (SMTPSession_init (ex_exchange ex) opts))
                  :: tr)) as (tr' & Htr' & Hadds).
  exists tr'. split; [exact Htr' |].
  eapply adds_cons; [| eapply adds_cons; [| exact Hadds]]; done.
Qed.

Lemma inspect_groups_unreachable E opts groups l it tr :
  unreachable E -> unexpected_keywords opts = [] ->
  Forall (fun kg : option string * list nat => kg.2 <> []) groups ->
  exists tr',
    inspect_groups E opts groups l it tr = (Ok (l, it), tr') /\
    adds (fun ev => is_rcpt ev = false) tr tr'.
Proof.
  intros HE Hopts Hgs. revert tr.
  induction Hgs as [|[d group] groups Hg Hgs IH]; intros tr.
  { eexists. split; [done | apply adds_refl]. }
  cbn [inspect_groups]. unfold inspect_group.
  destruct group as [|first group']; [done |].
  match goal with
  | |- context [probe_exchanges E ?exs ?cae ?g ?em ?o l it ?t] =>
      destruct (probe_exchanges_unreachable E exs cae g em o l it t HE Hopts)
        as (tr1 & -> & H1)
  end.
  destruct (IH tr1) as (tr' & -> & H'). exists tr'. split; [done |].
  eapply (adds_cons _ EvUuid4); [done |]. by eapply adds_trans.
Qed.

(** X13. With a working resolver and no host that can be connected to,
    [inspect_list] returns (it does not raise), never sends a RCPT, and
    every record with exchanges ends with reason [no_connect], status
    [undeliverable] and no exchange chosen. *)
Theorem unreachable_hosts_are_no_connect E email_addresses smtp_opts tr0 :
  dns_env E -> unreachable E -> extra_opts smtp_opts = [] ->
  exists addresses tr,
    inspect_list E email_addresses smtp_opts tr0 = (Ok addresses, tr) /\
    rcpts tr = rcpts tr0 /\
    Forall (fun a => has_exchanges a = true ->
                     reason a = Some "no_connect" /\ status a = UNDELIVERABLE /\
                     exchange a = None /\ catch_all a = false) addresses.
Proof.
  intros Hdns HE Hopts. unfold inspect_list. rewrite Hopts.
  destruct (inspect_addresses_total E (map EmailAddress_init email_addresses)
              ∅ tr0 Hdns) as (l1 & mx1 & tr1 & H1 & Ha1).
  rewrite H1.
  destruct (inspect_groups_unreachable E smtp_opts
              (groupby (domain_at l1) (with_exchanges l1)) l1 None tr1 HE
              (extra_opts_unexpected _ Hopts) (groupby_nonempty _ _))
    as (tr2 & -> & Ha2).
  eexists _, _. split; [done |]. split.
  { apply adds_rcpts. by eapply adds_trans. }
  apply Forall_lookup. intros i a Ha Hx.
  rewrite update_all_lookup in Ha by apply with_exchanges_NoDup.
  pose proof (inspect_addresses_records _ _ _ _ _ _ _ H1) as Hrec.
  destruct (l1 !! i) as [a1|] eqn:Hi; [| by case_decide].
  destruct (Forall2_lookup_r _ _ _ _ _ Hrec Hi) as (a0 & Ha0 & Hshape).
  assert (exists q, a0 = EmailAddress_init q) as [q ->].
  { clear -Ha0. revert i Ha0.
    induction email_addresses as [|q l IH]; intros [|i]; simpl; try done.
    - intros [= <-]. by eexists.
    - apply IH. }
  case_decide as Hin.
  - injection Ha as <-.
    apply elem_of_with_exchanges in Hin as (a1' & Hi' & Hx1).
    assert (a1' = a1) as -> by congruence.
    destruct Hshape as [[_ ->] | (_ & exs & ->)]; [done |].
    rewrite has_exchanges_set_resolved in Hx1. destruct exs as [|ex exs]; [done |].
    destruct (set_resolved_fields E (ex :: exs) (EmailAddress_init q))
      as (_ & Hr & Hex & Hc & _).
    change (reason (finalize ?a)) with (reason a).
    change (exchange (finalize ?a)) with (exchange a).
    change (catch_all (finalize ?a)) with (catch_all a).
    change (status (finalize ?a)) with (final_status a).
    unfold final_status. by rewrite Hr, Hex, Hc.
  - injection Ha as <-. exfalso. apply Hin.
    apply elem_of_with_exchanges. by exists a1.
Qed.

Lemma start_accepts E s tr :
  accepts_all E ->
  start E s tr =
  (Ok (length tr), with_smtp (Some (length tr)) s,
   EvMail (length tr) (mail_from s) :: EvEhlo (length tr)
     :: EvConnect (length tr) (host s)
     :: EvSMTP (length tr) (local_hostname s) (timeout s) (debuglevel s) :: tr).
Proof.
  intros (Hc & Hh & Hm & _ & _).
  unfold start, sm_bind, try_except, get_self, set_smtp, call, sm_ret.
  simpl. rewrite Hc. simpl. rewrite Hh. simpl. by rewrite Hm.
Qed.

Lemma verify_smtp_recipient_accepts E h e opts tr :
  accepts_all E -> unexpected_keywords opts = [] ->
  exists tr', verify_smtp_recipient E h e opts tr
              = (Ok (e, true, "accepted_email"), tr').
Proof.
  intros HE Hopts. unfold verify_smtp_recipient, verify_smtp_recipients.
  cbn [verify_next]. rewrite Hopts, (start_accepts E _ tr HE).
  destruct HE as (_ & _ & _ & Hr & Hq).
  unfold verify_in_session. cbn [recipients_next recipients_loop].
  unfold sm_bind, try_except, get_self, call, sm_ret. simpl.
  rewrite Hr. simpl. by eexists.
Qed.

Lemma alter_marks l1 (l : list EmailAddress) D i x :
  catch_all_marks l1 l D ->
  (exists a1, l1 !! i = Some a1 /\ has_exchanges a1 = true) ->
  catch_all_marks l1 (alter (set_probe "accepted_email" true x) i l) (i :: D).
Proof.
  intros [HF HD] (a1 & Ha1 & _).
  assert (forall j b1 b, l1 !! j = Some b1 -> l !! j = Some b ->
            alter (set_probe "accepted_email" true x) i l !! j
            = Some (if decide (i = j) then set_probe "accepted_email" true x b1
                    else b)) as Hlook.
  { intros j b1 b Hb1 Hb. case_decide as Hij.
    - subst j. rewrite list_lookup_alter_eq, Hb. simpl. f_equal.
      destruct (Forall2_lookup_lr _ _ _ _ _ _ HF Hb1 Hb) as [-> | [x' ->]]; done.
    - by rewrite list_lookup_alter_ne. }
  split.
  - apply Forall2_same_length_lookup_2.
    { rewrite length_alter. by eapply Forall2_length. }
    intros j b1 b' Hb1 Hb'.
    destruct (Forall2_lookup_l _ _ _ _ _ HF Hb1) as (b & Hb & Hrel).
    rewrite (Hlook _ _ _ Hb1 Hb) in Hb'. injection Hb' as <-.
    case_decide; [right; by exists x | done].
  - intros j [->|Hj]%elem_of_cons.
    + destruct (Forall2_lookup_l _ _ _ _ _ HF Ha1) as (a & Ha & _).
      exists a1, (set_probe "accepted_email" true x a1).
      split; [done |]. split; [| by exists x].
      rewrite (Hlook _ _ _ Ha1 Ha). by rewrite decide_True.
    + destruct (HD j Hj) as (b1 & b & Hb1 & Hb & Hm).
      exists b1. eexists. split; [done |]. split; [by apply Hlook |].
      case_decide; [by exists x | done].
Qed.

Lemma update_all_marks l1 group (l : list EmailAddress) D x :
  catch_all_marks l1 l D -> group_in l1 group ->
  catch_all_marks l1 (update_all (set_probe "accepted_email" true x) group l)
    (D ++ group).
Proof.
  intros Hl Hg. unfold update_all. revert l D Hl.
  induction Hg as [|i group Hi Hg IH]; intros l D Hl; cbn [foldl].
  { by rewrite app_nil_r. }
  destruct (IH _ _ (alter_marks _ _ _ _ x Hl Hi)) as [H1 H2].
  split; [done |]. intros j Hj. apply H2.
  rewrite elem_of_app, elem_of_cons in Hj. rewrite elem_of_app, elem_of_cons.
  tauto.
Qed.

Lemma inspect_groups_accepts E opts l1 groups l it D tr :
  accepts_all E -> unexpected_keywords opts = [] ->
  Forall (fun kg : option string * list nat => kg.2 <> [] /\ group_in l1 kg.2)
         groups ->
  catch_all_marks l1 l D ->
  exists l' tr',
    inspect_groups E opts groups l it tr = (Ok (l', it), tr') /\
    catch_all_marks l1 l' (D ++ concat ((fun kg => kg.2) <$> groups)).
Proof.
  intros HE Hopts Hgs. revert l D tr.
  induction Hgs as [|[d group] groups [Hne Hg] Hgs IH]; intros l D tr Hl.
  { eexists _, _. split; [done |]. by rewrite app_nil_r. }
  cbn [inspect_groups]. unfold inspect_group.
  destruct group as [|first group']; [done |].
  (* the exchanges of the first address of the group *)
  inversion Hg as [|? ? (a1 & Ha1 & Hx1) _]; subst.
  destruct Hl as [HF HD].
  destruct (Forall2_lookup_l _ _ _ _ _ HF Ha1) as (a & Ha & Hrel).
  assert (exists ex exs, l !! first ≫= all_exchanges = Some (ex :: exs))
    as (ex & exs & Hexs).
  { rewrite Ha. simpl.
    assert (all_exchanges a = all_exchanges a1) as ->
        by (by destruct Hrel as [-> | [x ->]]).
    unfold has_exchanges in Hx1.
    destruct (all_exchanges a1) as [[|ex exs]|]; try done. by eexists _, _. }
  rewrite Hexs. cbn [from_option]. unfold id.
  match goal with
  | |- context [probe_exchanges E (ex :: exs) ?cae ?g ?em ?o l it ?t] =>
      destruct (verify_smtp_recipient_accepts E (ex_exchange ex) cae o t HE Hopts)
        as (tr1 & Hp);
      rewrite (catch_all_marks_group E ex exs cae g em o l it t _ _ _ Hp)
  end.
  destruct (IH _ (D ++ first :: group') tr1
              (update_all_marks l1 (first :: group') l D (ex_exchange ex)
                 (conj HF HD) Hg)) as (l' & tr' & -> & Hl').
  exists l', tr'. split; [done |].
  cbn [fmap list_fmap concat snd]. by rewrite app_assoc.
Qed.

Lemma groups_in l1 :
  Forall (fun kg : option string * list nat => kg.2 <> [] /\ group_in l1 kg.2)
         (groupby (domain_at l1) (with_exchanges l1)).
Proof.
  apply Forall_forall. intros [k g] Hg. split.
  - by apply (proj1 (Forall_forall _ _) (groupby_nonempty (domain_at l1) _) _ Hg).
  - apply Forall_forall. intros i Hi.
    pose proof (groupby_elem_of _ _ _ _ _ Hg Hi) as Hw.
    by apply elem_of_with_exchanges in Hw.
Qed.

(** X14. With a working resolver and servers that greet, accept the
    sender and accept every recipient, [inspect_list] returns, and every
    record with exchanges is marked by the catch-all probe: reason
    [accepted_email], catch-all, an exchange chosen, status [risky]. *)
Theorem accepting_servers_are_catch_all E email_addresses smtp_opts tr0 :
  dns_env E -> accepts_all E -> extra_opts smtp_opts = [] ->
  exists addresses tr,
    inspect_list E email_addresses smtp_opts tr0 = (Ok addresses, tr) /\
    Forall (fun a => has_exchanges a = true ->
                     reason a = Some "accepted_email" /\ catch_all a = true /\
                     is_Some (exchange a) /\ status a = RISKY) addresses.
Proof.
  intros Hdns HE Hopts. unfold inspect_list. rewrite Hopts.
  destruct (inspect_addresses_total E (map EmailAddress_init email_addresses)
              ∅ tr0 Hdns) as (l1 & mx1 & tr1 & H1 & _).
  rewrite H1.
  destruct (inspect_groups_accepts E smtp_opts l1
              (groupby (domain_at l1) (with_exchanges l1)) l1 None [] tr1 HE
              (extra_opts_unexpected _ Hopts) (groups_in l1))
    as (l2 & tr2 & -> & [HF HD]).
  { split; [| by intros i ?%elem_of_nil].
    apply Forall2_same_length_lookup_2; [done |].
    intros i a a' Ha Ha'. left. congruence. }
  eexists _, _. split; [done |].
  apply Forall_lookup. intros i a Ha Hx.
  rewrite update_all_lookup in Ha by apply with_exchanges_NoDup.
  cbn [app] in HD. rewrite groupby_concat in HD.
  case_decide as Hin.
  - destruct (HD i Hin) as (a1 & a2 & Ha1 & Ha2 & [x ->]).
    rewrite Ha2 in Ha. injection Ha as <-.
    change (reason (finalize ?b)) with (reason b).
    change (catch_all (finalize ?b)) with (catch_all b).
    change (exchange (finalize ?b)) with (exchange b).
    change (status (finalize ?b)) with (final_status b).
    unfold final_status. simpl. rewrite !orb_true_r. by repeat split.
  - exfalso. apply Hin. apply elem_of_with_exchanges.
    destruct (Forall2_lookup_r _ _ _ _ _ HF Ha) as (a1 & Ha1 & Hrel).
    exists a1. split; [done |]. by destruct Hrel as [-> | [x ->]].
Qed.

(** ** More of smtp.py: the hosts that [resolve_mx_records] returns *)




(** X15. Whatever the DNS answer, no exchange that [resolve_mx_records]
    returns has a host name ending in a dot, there are as many exchanges
    as MX records in the answer, and an MX name without a final dot is
    returned as it is. *)
Theorem resolved_hosts_have_no_final_dot E qname raise_exception tr exchanges :
  (resolve_mx_records E qname raise_exception tr).1 = Ok exchanges ->
  Forall (fun ex => forall t, ex_exchange ex <> t +:+ ".") exchanges /\
  (forall answer,
     dns E = true ->
     dns_resolver_query E (EvResolve qname :: tr) (lookup_name qname) = Ok answer ->
     length exchanges = length answer /\
     forall mx, mx ∈ answer ->
       (forall t, mx_exchange_text mx <> t +:+ ".") ->
       {| ex_exchange := mx_exchange_text mx; ex_preference := mx_preference mx |}
         ∈ exchanges).
Proof.
  unfold resolve_mx_records. destruct (dns E); simpl; [| done].
  destruct (dns_resolver_query E _ _) as [ans|e].
  - intros [= <-]. split.
    + rewrite sort_by_preference_perm. apply Forall_forall.
      intros ex [mx [<- _]]%list_elem_of_In%in_map_iff. simpl.
      apply rstrip_no_suffix.
    + intros answer _ [= <-]. split.
      * by rewrite sort_by_preference_perm, length_map.
      * intros mx Hmx Hdot. rewrite sort_by_preference_perm.
        apply list_elem_of_In, in_map_iff. exists mx.
        split; [| by apply list_elem_of_In].
        unfold to_Exchange. by rewrite rstrip_unchanged.
  - destruct e; try done. destruct raise_exception; [done |].
    intros [= <-]. split; [constructor | done].
Qed.

(** ** The stub environments meet the assumptions *)

Lemma stub_env_smtplib query' connect rcpt :
  (forall tr h x e, connect tr h x = Raise e -> from_library e) ->
  (forall tr h x e, rcpt tr h x = Raise e -> from_library e) ->
  smtplib_env (stub_env query' connect rcpt).
Proof. intros Hc Hr. repeat split; try done; simpl; eauto. Qed.

Lemma stub_env_dns query' connect rcpt :
  (forall q e, query' q = Raise e -> e = DNSException) ->
  dns_env (stub_env query' connect rcpt).
Proof. intros Hq. split; [done |]. simpl. eauto. Qed.

Lemma accept_all_smtplib : smtplib_env accept_all.
Proof. by apply stub_env_smtplib. Qed.

Lemma accept_alice_smtplib : smtplib_env accept_alice.
Proof.
  apply stub_env_smtplib; [done |].
  intros tr h x e. by destruct (String.prefix _ _).
Qed.

Lemma connect_times_out_unreachable : unreachable connect_times_out.
Proof. intros tr h x. by exists socket_timeout. Qed.

Lemma accept_all_accepts : accepts_all accept_all.
Proof. repeat split; by left. Qed.

(** ** The properties at concrete runs *)

Lemma verify_smtp_connection_one_connect_witness :
  connects (verify_smtp_connection accept_all "mx.example.com" [] []).2
    = ["mx.example.com"] /\
  rcpts (verify_smtp_connection accept_all "mx.example.com" [] []).2 = [].
Proof.
  apply (verify_smtp_connection_one_connect accept_all "mx.example.com" [] []).
  reflexivity.
Defined.

Lemma verify_smtp_connection_result_witness :
  (false = true /\ "no_connect" = "valid_smtp" /\
   smtp_connect connect_times_out
     [EvSMTP 0 (VStr DEFAULT_LOCAL_HOSTNAME) (VInt DEFAULT_TIMEOUT) (VInt 0)]
     0 "mx.example.com" = Ok 220%Z /\
   smtp_ehlo_or_helo_if_needed connect_times_out
     [EvConnect 0 "mx.example.com";
      EvSMTP 0 (VStr DEFAULT_LOCAL_HOSTNAME) (VInt DEFAULT_TIMEOUT) (VInt 0)] 0
     = Ok tt /\
   smtp_mail connect_times_out
     [EvEhlo 0; EvConnect 0 "mx.example.com";
      EvSMTP 0 (VStr DEFAULT_LOCAL_HOSTNAME) (VInt DEFAULT_TIMEOUT) (VInt 0)] 0
     (VStr DEFAULT_EMAIL_FROM) = Ok 250%Z) \/
  (false = false /\ session_reason "no_connect").
Proof.
  apply (verify_smtp_connection_result connect_times_out "mx.example.com" [] []
           false "no_connect").
  - apply stub_env_smtplib; [| done].
    by intros tr h x e [= <-] r.
  - vm_compute. reflexivity.
Defined.

Lemma start_failure_reported_witness :
  (verify_take connect_times_out 2
     (verify_smtp_recipients "mx.example.com"
        ["alice@example.com"; "bob@example.com"] []) []).1.1
    = [("alice@example.com", false, "no_connect");
       ("bob@example.com", false, "no_connect")] /\
  (verify_take connect_times_out 2
     (verify_smtp_recipients "mx.example.com"
        ["alice@example.com"; "bob@example.com"] []) []).2
    = [EvConnect 0 "mx.example.com";
       EvSMTP 0 (VStr DEFAULT_LOCAL_HOSTNAME) (VInt DEFAULT_TIMEOUT) (VInt 0)].
Proof.
  apply (start_failure_reported connect_times_out "mx.example.com"
           ["alice@example.com"; "bob@example.com"] [] [] "no_connect"
           (with_smtp (Some 0) (SMTPSession_init "mx.example.com" []))).
  - reflexivity.
  - vm_compute. reflexivity.
Defined.

Lemma ordinary_replies_in_order_witness :
  let run := verify_take one_per_session 2
               (verify_smtp_recipients "mx.example.com"
                  ["alice@example.com"; "bob@example.com"] []) [] in
  run.1.1 = [("alice@example.com", true, "accepted_email");
             ("bob@example.com", false, "rejected_email")] /\
  run.2 = [EvRcpt 0 "bob@example.com"; EvRcpt 0 "alice@example.com";
           EvMail 0 (VStr DEFAULT_EMAIL_FROM); EvEhlo 0;
           EvConnect 0 "mx.example.com";
           EvSMTP 0 (VStr DEFAULT_LOCAL_HOSTNAME) (VInt DEFAULT_TIMEOUT) (VInt 0)].
Proof.
  apply (ordinary_replies_in_order one_per_session "mx.example.com"
           "alice@example.com" ["bob@example.com"] [] [] 0
           (with_smtp (Some 0) (SMTPSession_init "mx.example.com" []))
           [EvMail 0 (VStr DEFAULT_EMAIL_FROM); EvEhlo 0;
            EvConnect 0 "mx.example.com";
            EvSMTP 0 (VStr DEFAULT_LOCAL_HOSTNAME) (VInt DEFAULT_TIMEOUT) (VInt 0)]
           [250; 452]%Z).
  - reflexivity.
  - vm_compute. reflexivity.
  - repeat split.
Defined.

Lemma lost_connection_rest_rejected_witness :
  let run := verify_take drop_on_alice 3
               (verify_smtp_recipients "mx.example.com"
                  ["alice@example.com"; "bob@example.com"; "carol@example.com"]
                  []) [] in
  run.1.1 = [("bob@example.com", false, "rejected_email");
             ("carol@example.com", false, "rejected_email")] /\
  run.2 = [EvQuit 0; EvRcpt 0 "alice@example.com";
           EvMail 0 (VStr DEFAULT_EMAIL_FROM); EvEhlo 0;
           EvConnect 0 "mx.example.com";
           EvSMTP 0 (VStr DEFAULT_LOCAL_HOSTNAME) (VInt DEFAULT_TIMEOUT) (VInt 0)].
Proof.
  apply (lost_connection_rest_rejected drop_on_alice "mx.example.com"
           "alice@example.com" ["bob@example.com"; "carol@example.com"] [] [] 0
           (with_smtp (Some 0) (SMTPSession_init "mx.example.com" []))
           [EvMail 0 (VStr DEFAULT_EMAIL_FROM); EvEhlo 0;
            EvConnect 0 "mx.example.com";
            EvSMTP 0 (VStr DEFAULT_LOCAL_HOSTNAME) (VInt DEFAULT_TIMEOUT) (VInt 0)]
           SMTPServerDisconnected).
  - reflexivity.
  - vm_compute. reflexivity.
  - vm_compute. reflexivity.
  - by right.
  - by left.
Defined.

Lemma probe_results_classified_witness :
  Forall (fun p : probe_result =>
            (p.1.2 = true /\ p.2 = "accepted_email") \/
            (p.1.2 = false /\ (p.2 = "rejected_email" \/ session_reason p.2)))
         (verify_take accept_alice 2
            (verify_smtp_recipients "mx.example.com"
               ["alice@example.com"; "bob@example.com"] []) []).1.1.
Proof.
  apply (probe_results_classified accept_alice "mx.example.com"
           ["alice@example.com"; "bob@example.com"] [] [] 2).
  exact accept_alice_smtplib.
Defined.

Lemma status_is_decided_witness :
  let run := inspect_list accept_alice ["alice@example.com"; "bob@example.com"]
               [] [] in
  let addresses := match run.1 with Ok l => l | Raise _ => [] end in
  let bob := default (EmailAddress_init "") (addresses !! 1%nat) in
  status bob <> UNKNOWN.
Proof.
  intros run addresses bob.
  refine (proj1 (status_is_decided accept_alice
            ["alice@example.com"; "bob@example.com"] [] [] addresses run.2 bob
            _ _)).
  - vm_compute. reflexivity.
  - apply list_elem_of_lookup. exists 1%nat. vm_compute. reflexivity.
Defined.

Lemma invalid_address_record_witness :
  let run := inspect_list accept_alice ["not-an-email"; "alice@example.com"]
               [] [] in
  let addresses := match run.1 with Ok l => l | Raise _ => [] end in
  exists addr,
    addresses !! 0%nat = Some addr /\ query addr = "not-an-email" /\
    valid addr = Some false /\
    status addr = UNDELIVERABLE /\ reason addr = Some "invalid_email" /\
    email addr = None /\ all_exchanges addr = None /\ exchange addr = None /\
    catch_all addr = false.
Proof.
  intros run addresses.
  refine (invalid_address_record accept_alice
            ["not-an-email"; "alice@example.com"] [] [] addresses run.2 0%nat
            "not-an-email" _ _ _).
  - vm_compute. reflexivity.
  - reflexivity.
  - vm_compute. reflexivity.
Defined.

Lemma no_exchange_record_witness :
  let run := inspect_list no_mx ["alice@example.com"] [] [] in
  let addresses := match run.1 with Ok l => l | Raise _ => [] end in
  let alice := default (EmailAddress_init "") (addresses !! 0%nat) in
  valid alice = Some true /\ status alice = UNDELIVERABLE /\
  reason alice = Some "invalid_domain" /\ exchange alice = None /\
  catch_all alice = false.
Proof.
  intros run addresses alice.
  refine (no_exchange_record no_mx ["alice@example.com"] [] [] addresses run.2
            alice _ _ _).
  - vm_compute. reflexivity.
  - apply list_elem_of_lookup. exists 0%nat. vm_compute. reflexivity.
  - vm_compute. reflexivity.
Defined.

Lemma deliverable_and_risky_are_accepted_witness :
  let run := inspect_list accept_alice ["alice@example.com"; "bob@example.com"]
               [] [] in
  let addresses := match run.1 with Ok l => l | Raise _ => [] end in
  let alice := default (EmailAddress_init "") (addresses !! 0%nat) in
  reason alice = Some "accepted_email" /\ catch_all alice = false /\
  truthy (disposable alice) = false /\ has_exchanges alice = true.
Proof.
  intros run addresses alice.
  refine (proj1 (deliverable_and_risky_are_accepted accept_alice
            ["alice@example.com"; "bob@example.com"] [] [] addresses run.2 alice
            _ _) _).
  - vm_compute. reflexivity.
  - apply list_elem_of_lookup. exists 0%nat. vm_compute. reflexivity.
  - vm_compute. reflexivity.
Defined.

Lemma reason_is_a_known_code_witness :
  let run := inspect_list accept_alice ["alice@example.com"; "bob@example.com"]
               [] [] in
  let addresses := match run.1 with Ok l => l | Raise _ => [] end in
  let bob := default (EmailAddress_init "") (addresses !! 1%nat) in
  final_reason (reason bob).
Proof.
  intros run addresses bob.
  refine (reason_is_a_known_code accept_alice
            ["alice@example.com"; "bob@example.com"] [] [] addresses run.2 bob
            accept_alice_smtplib _ _).
  - vm_compute. reflexivity.
  - apply list_elem_of_lookup. exists 1%nat. vm_compute. reflexivity.
Defined.

Lemma invalid_addresses_make_no_call_witness :
  inspect_list accept_all ["not-an-email"; ""] [] [] =
  (Ok ((fun q => set_invalid (EmailAddress_init q)) <$> ["not-an-email"; ""]),
   []).
Proof.
  apply (invalid_addresses_make_no_call accept_all ["not-an-email"; ""] [] []).
  - reflexivity.
  - repeat constructor.
Defined.

Lemma unreachable_hosts_are_no_connect_witness :
  exists addresses tr,
    inspect_list connect_times_out ["alice@example.com"; "not-an-email"] [] []
      = (Ok addresses, tr) /\
    rcpts tr = rcpts [] /\
    Forall (fun a => has_exchanges a = true ->
                     reason a = Some "no_connect" /\ status a = UNDELIVERABLE /\
                     exchange a = None /\ catch_all a = false) addresses.
Proof.
  apply (unreachable_hosts_are_no_connect connect_times_out
           ["alice@example.com"; "not-an-email"] [] []).
  - by apply stub_env_dns.
  - exact connect_times_out_unreachable.
  - reflexivity.
Defined.

Lemma accepting_servers_are_catch_all_witness :
  exists addresses tr,
    inspect_list accept_all ["alice@example.com"; "bob@example.org"] [] []
      = (Ok addresses, tr) /\
    Forall (fun a => has_exchanges a = true ->
                     reason a = Some "accepted_email" /\ catch_all a = true /\
                     is_Some (exchange a) /\ status a = RISKY) addresses.
Proof.
  apply (accepting_servers_are_catch_all accept_all
           ["alice@example.com"; "bob@example.org"] [] []).
  - by apply stub_env_dns.
  - exact accept_all_accepts.
  - reflexivity.
Defined.

Lemma resolved_hosts_have_no_final_dot_witness :
  let exchanges :=
    match (resolve_mx_records first_mx_broken "alice@example.com" false []).1
    with Ok l => l | Raise _ => [] end in
  Forall (fun ex => forall t, ex_exchange ex <> t +:+ ".") exchanges.
Proof.
  intros exchanges.
  refine (proj1 (resolved_hosts_have_no_final_dot first_mx_broken
                   "alice@example.com" false [] exchanges _)).
  vm_compute. reflexivity.
Defined.

(** ** [SMTPSessionError] stays inside smtp.py *)

Lemma verify_handle_library e l tr e' g tr' :
  verify_handle e l tr = (Raise e', g, tr') -> from_library e'.
Proof.
  destruct e; simpl; try (intros [= <- _ _]; by intros r).
  destruct l; simpl; discriminate.
Qed.

Lemma verify_in_session_library E s l g tr e g' tr' :
  verify_in_session E s l g tr = (Raise e, g', tr') -> from_library e.
Proof.
  unfold verify_in_session.
  destruct (recipients_next E g s tr) as [[[[[[who a]|] g1]|x] s1] tr1].
  - discriminate.
  - destruct (quit E s1 tr1) as [[[[]|y] s2] tr2]; [discriminate |].
    apply verify_handle_library.
  - destruct (quit E s1 tr1) as [[[[]|y] s2] tr2]; apply verify_handle_library.
Qed.

Lemma verify_next_library E g tr e g' tr' :
  verify_next E g tr = (Raise e, g', tr') -> from_library e.
Proof.
  destruct g as [h l opts|s l g|r0 rest|]; simpl.
  - destruct (unexpected_keywords opts); [| intros [= <- _ _]; by intros r].
    destruct (start E _ tr) as [[[a|x] s'] tr1].
    + apply verify_in_session_library.
    + apply verify_handle_library.
  - apply verify_in_session_library.
  - destruct rest; simpl; discriminate.
  - discriminate.
Qed.

Lemma verify_smtp_recipient_library E host' email' opts tr e tr' :
  verify_smtp_recipient E host' email' opts tr = (Raise e, tr') -> from_library e.
Proof.
  unfold verify_smtp_recipient.
  destruct (verify_next E _ tr) as [[[[p|]|x] g] tr1] eqn:Hn.
  - discriminate.
  - intros [= <- _]. by intros r.
  - intros [= <- _]. by eapply verify_next_library.
Qed.

Lemma verify_smtp_connection_library E host' opts tr e tr' :
  verify_smtp_connection E host' opts tr = (Raise e, tr') -> from_library e.
Proof.
  unfold verify_smtp_connection.
  destruct (unexpected_keywords opts); [| intros [= <- _]; by intros r].
  destruct (SMTPSession_enter E _ tr) as [[[a|x] s] tr1].
  - destruct (SMTPSession_exit E s tr1) as [[[a'|x] s'] tr2]; [discriminate |].
    destruct x; try discriminate; intros [= <- _]; by intros r.
  - destruct x; try discriminate; intros [= <- _]; by intros r.
Qed.

(** X16. No [SMTPSessionError] escapes [verify_smtp_recipients] (at any
    [next()]), [verify_smtp_recipient] or [verify_smtp_connection],
    whatever the library does: it is turned into results there. *)
Theorem session_error_never_escapes E g host' email' opts tr e :
  (verify_next E g tr).1.1 = Raise e \/
  (verify_smtp_recipient E host' email' opts tr).1 = Raise e \/
  (verify_smtp_connection E host' opts tr).1 = Raise e ->
  forall r, e <> SMTPSessionError r.
Proof.
  intros [H | [H | H]].
  - destruct (verify_next E g tr) as [[res g'] tr'] eqn:Hn. simpl in H. subst res.
    by eapply verify_next_library.
  - destruct (verify_smtp_recipient E host' email' opts tr) as [res tr'] eqn:Hn.
    simpl in H. subst res. by eapply verify_smtp_recipient_library.
  - destruct (verify_smtp_connection E host' opts tr) as [res tr'] eqn:Hn.
    simpl in H. subst res. by eapply verify_smtp_connection_library.
Qed.

Lemma session_error_never_escapes_witness :
  StopIteration <> SMTPSessionError "no_connect".
Proof.
  refine (session_error_never_escapes drop_on_rcpt V_done "mx.example.com"
            "bob@example.com" [] [] StopIteration _ "no_connect").
  right. left. vm_compute. reflexivity.
Defined.

(** ** Which exceptions [inspect_list] lets through *)

Section InspectRaises.

Variable E : Env.
Hypothesis HR : resolver_env E.

Lemma resolve_mx_records_library q b tr e tr' :
  resolve_mx_records E q b tr = (Raise e, tr') -> from_library e.
Proof.
  unfold resolve_mx_records. destruct (dns E); simpl.
  - destruct (dns_resolver_query E _ _) as [a|x] eqn:Hq; [discriminate |].
    pose proof (HR _ _ _ Hq) as Hx.
    destruct x; try (intros [= <- _]; exact Hx).
    destruct b; [| discriminate]. intros [= <- _]. exact Hx.
  - intros [= <- _]. by intros r.
Qed.

Lemma inspect_addresses_library l mx tr e tr' :
  inspect_addresses E l mx tr = (Raise e, tr') -> from_library e.
Proof.
  revert mx tr. induction l as [|a l IH]; intros mx tr; simpl; [discriminate |].
  unfold inspect_address, cached_exchanges.
  destruct (is_valid_address E (query a)); simpl.
  - destruct (mx !! _) as [exs|].
    + destruct (inspect_addresses E l mx tr) as [[[l' mx']|x] tr1] eqn:H1;
        [discriminate |].
      intros [= -> ->]. by eapply IH.
    + destruct (resolve_mx_records E _ false tr) as [[exs|x] tr1] eqn:Hr.
      * destruct (inspect_addresses E l _ tr1) as [[[l' mx']|x] tr2] eqn:H1;
          [discriminate |].
        intros [= -> ->]. by eapply IH.
      * intros [= <- _]. by eapply resolve_mx_records_library.
  - destruct (inspect_addresses E l mx tr) as [[[l' mx']|x] tr1] eqn:H1;
      [discriminate |].
    intros [= -> ->]. by eapply IH.
Qed.

Lemma izip_probe_library x c group it l tr e it' tr' :
  izip_probe E x c group it l tr = (Raise e, it', tr') -> from_library e.
Proof.
  revert it l tr. induction group as [|i group IH]; intros it l tr; simpl;
    [discriminate |].
  destruct (verify_next E it tr) as [[[[[[who a] r]|]|y] it1] tr1] eqn:Hn.
  - apply IH.
  - discriminate.
  - intros [= <- _ _]. by eapply verify_next_library.
Qed.

Lemma probe_exchanges_library exs cae group emails opts l it tr e tr' :
  probe_exchanges E exs cae group emails opts l it tr = (Raise e, tr') ->
  from_library e.
Proof.
  revert tr. induction exs as [|ex exs IH]; intros tr; simpl; [discriminate |].
  destruct (verify_smtp_recipient E _ cae opts tr) as [[[[who c] r]|y] tr1] eqn:Hv.
  - destruct (String.eqb r "no_connect"); [apply IH |].
    destruct c; [discriminate |].
    destruct (izip_probe E _ _ group _ l _) as [[[l'|y] it1] tr2] eqn:Hz;
      [discriminate |].
    intros [= <- _]. by eapply izip_probe_library.
  - intros [= <- _]. by eapply verify_smtp_recipient_library.
Qed.

Lemma inspect_groups_library opts groups l it tr e tr' :
  inspect_groups E opts groups l it tr = (Raise e, tr') -> from_library e.
Proof.
  revert l it tr. induction groups as [|[d group] groups IH]; intros l it tr;
    simpl; [discriminate |].
  destruct (inspect_group E opts d group l it tr) as [[[l1 it1]|y] tr1] eqn:Hg.
  - apply IH.
  - intros [= <- _]. unfold inspect_group in Hg.
    destruct group as [|first group]; [injection Hg as <- _; by intros r |].
    by eapply probe_exchanges_library.
Qed.

End InspectRaises.

(** X17. If the resolver does not raise it, no [SMTPSessionError] escapes
    [inspect_list] or [inspect]: a failure of a session ends up as the
    reason of a record, never as that exception. *)
Theorem inspect_never_raises_session_error E email_addresses smtp_opts tr0 e :
  resolver_env E ->
  (inspect_list E email_addresses smtp_opts tr0).1 = Raise e \/
  (exists q, email_addresses = [q] /\
             (inspect E q smtp_opts tr0).1 = Raise e) ->
  forall r, e <> SMTPSessionError r.
Proof.
  intros HR.
  assert (forall l, (inspect_list E l smtp_opts tr0).1 = Raise e ->
                    from_library e) as Hlist.
  { intros l. unfold inspect_list.
    destruct (extra_opts smtp_opts); [| intros [= <-]; by intros r].
    destruct (inspect_addresses E _ ∅ tr0) as [[[l1 mx]|x] tr1] eqn:H1.
    - destruct (inspect_groups E _ _ l1 None tr1) as [[[l2 it]|x] tr2] eqn:H2;
        [discriminate |].
      intros [= <-]. by eapply inspect_groups_library.
    - intros [= <-]. by eapply inspect_addresses_library. }
  intros [H | (q & -> & H)]; [exact (Hlist _ H) |].
  unfold inspect in H.
  destruct (inspect_list E [q] smtp_opts tr0) as [[l|x] tr1] eqn:Hl.
  - destruct (l !! 0%nat); [discriminate |].
    injection H as <-. by intros r.
  - simpl in H. injection H as ->. refine (Hlist [q] _). by rewrite Hl.
Qed.

Lemma inspect_never_raises_session_error_witness :
  StopIteration <> SMTPSessionError "no_connect".
Proof.
  refine (inspect_never_raises_session_error drop_on_rcpt ["bob@example.com"]
            [] [] StopIteration _ _ "no_connect").
  - by intros tr q e.
  - left. vm_compute. reflexivity.
Defined.

(** ** A reconnect that fails *)

(** X18. When the reconnect after a 552 or 554 reply, to a recipient
    anywhere in the list, fails with a [SMTPSessionError], and the QUIT of
    [__exit__] returns, the [except] clause of [verify_smtp_recipients]
    goes through all the recipients of the call, those reported before
    included: after the [rejected_email] of the recipient that got the
    reply, every recipient of the call is yielded as not accepted with
    the reason of the failure, and nothing else is yielded. *)
Theorem failed_reconnect_reports_again E g tr s tr0 all e rest h c r
    s1 tr1 s2 tr2 :
  at_rcpt E g tr s tr0 all e rest ->
  _smtp s = Some h ->
  smtp_rcpt E tr0 h e = Ok c ->
  (c = 552 \/ c = 554)%Z ->
  restart E s (EvRcpt h e :: tr0) = (Raise (SMTPSessionError r), s1, tr1) ->
  quit E s1 tr1 = (Ok tt, s2, tr2) ->
  let run := verify_take E (2 + length all) g tr in
  run.1.1 = (e, false, "rejected_email")
              :: ((fun e' => (e', false, r)) <$> all) /\
  run.2 = tr2.
Proof.
  intros Hat Hsmtp Hrcpt Hc Hrestart Hquit run. subst run.
  assert (verify_next E (V_in_session s all (R_yield_probed c rest))
            (EvRcpt h e :: tr0)
          = verify_except_loop r all tr2) as H2.
  { cbn [verify_next]. unfold verify_in_session. cbn [recipients_next].
    replace (code_in c [552; 554]%Z) with true by (by destruct Hc as [-> | ->]).
    unfold sm_bind at 1. unfold try_except at 1. unfold sm_bind at 1.
    rewrite Hrestart. cbn [lost_connection]. by rewrite Hquit. }
  change (2 + length all) with (S (S (length all))).
  rewrite verify_take_S.
  rewrite (verify_next_at_rcpt E g tr s tr0 all e rest h c Hat Hsmtp Hrcpt).
  replace (result_of e c) with (e, false, "rejected_email")
    by (unfold result_of; by destruct Hc as [-> | ->]).
  rewrite verify_take_S, H2.
  destruct all as [|a all]; [done |]. cbn [verify_except_loop].
  destruct (verify_take_in_except E (length (a :: all)) r all tr2) as [Ha Hb].
  destruct (verify_take E (length (a :: all)) (V_in_except r all) tr2)
    as [[rs g'] tr3].
  simpl in Ha, Hb. subst rs tr3.
  rewrite take_ge by lia. by rewrite fmap_cons.
Qed.

Lemma failed_reconnect_reports_again_witness :
  let s := with_smtp (Some 0) (SMTPSession_init "mx.example.com" []) in
  let tr0 := [EvRcpt 0 "alice@example.com"; EvMail 0 (VStr DEFAULT_EMAIL_FROM);
              EvEhlo 0; EvConnect 0 "mx.example.com";
              EvSMTP 0 (VStr DEFAULT_LOCAL_HOSTNAME) (VInt DEFAULT_TIMEOUT)
                (VInt 0)] in
  let all := ["alice@example.com"; "bob@example.com"; "carol@example.com"] in
  let g := V_in_session s all
             (R_yield_probed 250 ["bob@example.com"; "carol@example.com"]) in
  (verify_take busy_for_bob_then_gone 5 g tr0).1.1
  = [("bob@example.com", false, "rejected_email");
     ("alice@example.com", false, "no_connect");
     ("bob@example.com", false, "no_connect");
     ("carol@example.com", false, "no_connect")].
Proof.
  intros s tr0 all g.
  refine (proj1 (failed_reconnect_reports_again busy_for_bob_then_gone g tr0 s
                   tr0 all "bob@example.com" ["carol@example.com"] 0 554%Z
                   "no_connect" _ _ _ _ _ eq_refl eq_refl (or_intror eq_refl)
                   _ _)).
  - repeat split.
  - vm_compute. reflexivity.
  - vm_compute. reflexivity.
Defined.

(** ** Options *)

(** X19. A keyword option other than [mail_from], [timeout],
    [local_hostname] and [debuglevel] makes [inspect_list] and [inspect]
    raise [ValueError] naming it, before any address is looked at: no DNS
    or SMTP call is made. *)
Theorem unknown_option_is_refused E email_addresses smtp_opts tr k v :
  (k, v) ∈ smtp_opts ->
  k ∉ valid_opts ->
  exists extra,
    k ∈ extra /\
    inspect_list E email_addresses smtp_opts tr = (Raise (ValueError extra), tr) /\
    forall q, inspect E q smtp_opts tr = (Raise (ValueError extra), tr).
Proof.
  intros Hin Hk. exists (extra_opts smtp_opts).
  assert (k ∈ extra_opts smtp_opts) as Hex.
  { unfold extra_opts. apply list_elem_of_filter. split.
    - intros H. apply Hk. by apply list_elem_of_In.
    - apply list_elem_of_In, in_map_iff. exists (k, v). split; [done |].
      by apply list_elem_of_In. }
  split; [done |].
  assert (forall l, inspect_list E l smtp_opts tr
                    = (Raise (ValueError (extra_opts smtp_opts)), tr)) as Hl.
  { intros l. unfold inspect_list.
    destruct (extra_opts smtp_opts) as [|x extra]; [| done].
    by apply elem_of_nil in Hex. }
  split; [apply Hl |]. intros q. unfold inspect. by rewrite Hl.
Qed.

Lemma unknown_option_is_refused_witness :
  exists extra,
    "helo" ∈ extra /\
    inspect_list accept_all ["alice@example.com"]
      [("timeout", VInt 5); ("helo", VStr "example.com")] []
      = (Raise (ValueError extra), []) /\
    forall q, inspect accept_all q
                [("timeout", VInt 5); ("helo", VStr "example.com")] []
              = (Raise (ValueError extra), []).
Proof.
  apply (unknown_option_is_refused accept_all ["alice@example.com"]
           [("timeout", VInt 5); ("helo", VStr "example.com")] []
           "helo" (VStr "example.com")).
  - apply list_elem_of_further, list_elem_of_here.
  - unfold valid_opts. rewrite !elem_of_cons, elem_of_nil.
    intros [H | [H | [H | [H | []]]]]; discriminate H.
Defined.

(** * utils.py *)

(** ** [split_email] *)


(** What [split_email] returns. *)
Lemma split_email_spec L email user' domain' :
  utils.split_email L email = (user', domain') ->
  str_find "@" user' = (-1)%Z /\
  (forall t, domain' <> t +:+ ".") /\
  (email = "" -> user' = "" /\ domain' = "") /\
  (email <> "" ->
   let addr := snd (parseaddr L (lower L (strip L email))) in
   (str_find "@" addr = (-1)%Z -> user' = addr /\ domain' = "") /\
   (str_find "@" addr <> (-1)%Z ->
    exists d, addr = user' +:+ "@" +:+ d /\ domain' = rstrip "." d)).
Proof.
  unfold utils.split_email.
  destruct (String.eqb_spec email "") as [->|Hne].
  - intros [= <- <-]. repeat split; try done. intros t H.
    symmetry in H. by apply append_not_empty in H.
  - destruct (partition_at _) as [u d] eqn:Hp.
    destruct (partition_at_spec _ _ _ Hp) as (H1 & H2 & H3).
    intros [= <- <-]. split; [done |]. split; [apply rstrip_no_suffix |].
    split; [done |]. intros _. cbv zeta. split.
    + intros Ha. destruct (H2 Ha) as [-> ->]. by split.
    + intros Ha. exists d. split; [by apply H3 | done].
Qed.

(** X20. [split_email] returns a user part without [@] and a domain
    without a final dot; an empty input gives two empty strings; for the
    address [parseaddr] finds in the stripped, lower-cased input, an
    address without [@] is the user part as a whole with an empty domain,
    and otherwise the address is the user part, [@] and the domain with
    the final dots it lost. *)
Theorem split_email_parts L email user' domain' :
  utils.split_email L email = (user', domain') ->
  str_find "@" user' = (-1)%Z /\
  (forall t, domain' <> t +:+ ".") /\
  (email = "" -> user' = "" /\ domain' = "") /\
  (email <> "" ->
   let addr := snd (parseaddr L (lower L (strip L email))) in
   (str_find "@" addr = (-1)%Z -> user' = addr /\ domain' = "") /\
   (str_find "@" addr <> (-1)%Z ->
    exists d, addr = user' +:+ "@" +:+ d /\ domain' = rstrip "." d)).
Proof. apply split_email_spec. Qed.

Lemma split_email_parts_witness :
  utils.split_email (plain_lib (fun _ _ => false)) "alice@example.com.."
    = ("alice", "example.com") /\
  str_find "@" "alice" = (-1)%Z.
Proof.
  split; [reflexivity |].
  refine (proj1 (split_email_parts (plain_lib (fun _ _ => false))
                   "alice@example.com.." "alice" "example.com" _)).
  reflexivity.
Defined.

(** ** [DomainCheck] and [UserCheck] *)

(** X21. [DomainCheck.prepare_value] gives the domain of an address when
    [split_email] finds one and the user part otherwise, so a bare name is
    looked at as a whole; for an empty input the value is empty.
    [UserCheck.prepare_value] gives a value without [@]. *)
Theorem prepare_value_of_subclasses L ps esc n email :
  let d := utils.prepare_value L (utils.Checker_init utils.DomainCheck ps esc n)
             email in
  let u := utils.prepare_value L (utils.Checker_init utils.UserCheck ps esc n)
             email in
  str_find "@" u = (-1)%Z /\
  (email = "" -> d = "" /\ u = "") /\
  (email <> "" ->
   let addr := snd (parseaddr L (lower L (strip L email))) in
   (str_find "@" addr = (-1)%Z -> d = addr /\ u = addr) /\
   (forall x y, addr = x +:+ "@" +:+ y -> str_find "@" x = (-1)%Z ->
                u = x /\ d = if String.eqb (rstrip "." y) "" then x
                             else rstrip "." y)).
Proof.
  intros d u. subst d u. unfold utils.prepare_value.
  cbn [utils.cls utils.Checker_init].
  destruct (utils.split_email L email) as [user' domain'] eqn:Hs.
  destruct (split_email_spec _ _ _ _ Hs) as (H1 & H2 & H3 & H4).
  cbn [fst]. split; [done |]. split.
  - intros He. destruct (H3 He) as [-> ->]. by split.
  - intros He. specialize (H4 He). cbv zeta in H4. destruct H4 as [H4 H5].
    cbv zeta. split.
    + intros Ha. destruct (H4 Ha) as [-> ->]. by split.
    + intros x y Hxy Hx.
      assert (partition_at (x +:+ "@" +:+ y) = (x, y)) as Hp.
      { clear -Hx. induction x as [|a x IH]; [done |]. simpl in *.
        destruct (Ascii.eqb a "@"); [done |].
        pose proof (str_find_lower "@" x).
        destruct (Z.ltb_spec (str_find "@" x) 0); [| lia].
        rewrite IH; [done | lia]. }
      unfold utils.split_email in Hs.
      destruct (String.eqb_spec email ""); [done |].
      rewrite Hxy, Hp in Hs. by injection Hs as <- <-.
Qed.

(** ** [Checker.prepare_pattern] *)

Lemma str_endswith_app c s : str_endswith c (s +:+ String c "") = true.
Proof.
  induction s as [|a s IH]; simpl; [apply Ascii.eqb_refl |].
  destruct (s +:+ String c "") eqn:Hs; [| done].
  by apply append_not_empty in Hs.
Qed.

Lemma prefix_caret_cons s : String.prefix "^" (String "^" s) = true.
Proof.
  cbn [String.prefix]. destruct (ascii_dec "^" "^"); [| done]. by destruct s.
Qed.

Lemma prefix_caret_app s t :
  String.prefix "^" s = true -> String.prefix "^" (s +:+ t) = true.
Proof.
  destruct s as [|a s]; [done |]. cbn [String.prefix].
  destruct (ascii_dec "^" a) as [<-|]; [| done]. intros _.
  apply (prefix_caret_cons (s +:+ t)).
Qed.

(** X22. A prepared pattern starts with [^] and ends with [$]; without
    escaping, a pattern that is anchored already is left as it is, and
    preparing twice is preparing once. *)
Theorem prepare_pattern_anchors L self pttrn :
  let q := utils.prepare_pattern L self pttrn in
  String.prefix "^" q = true /\ str_endswith "$" q = true /\
  (utils.escape self = false ->
   utils.prepare_pattern L self q = q /\
   (String.prefix "^" pttrn = true -> str_endswith "$" pttrn = true ->
    q = pttrn)).
Proof.
  intros q. subst q. unfold utils.prepare_pattern.
  set (p1 := if utils.escape self then re_escape L pttrn else pttrn).
  set (p2 := if String.prefix "^" p1 then p1 else "^" +:+ p1).
  assert (String.prefix "^" p2 = true) as H2.
  { subst p2. destruct (String.prefix "^" p1) eqn:Hp; [done |].
    apply (prefix_caret_cons p1). }
  set (q := if str_endswith "$" p2 then p2 else p2 +:+ "$").
  assert (String.prefix "^" q = true) as Hq1.
  { subst q. destruct (str_endswith "$" p2); [done |]. by apply prefix_caret_app. }
  assert (str_endswith "$" q = true) as Hq2.
  { subst q. destruct (str_endswith "$" p2) eqn:He; [done |].
    apply str_endswith_app. }
  split; [done |]. split; [done |]. intros Hesc. split.
  - rewrite Hesc, Hq1. by rewrite Hq2.
  - intros Ha Hb. subst q p2 p1. rewrite Hesc. rewrite Ha. by rewrite Hb.
Qed.

Lemma prepare_pattern_anchors_witness :
  utils.prepare_pattern (plain_lib (fun _ _ => false))
    (utils.Checker_init utils.DomainCheck [] false 20)
    (utils.prepare_pattern (plain_lib (fun _ _ => false))
       (utils.Checker_init utils.DomainCheck [] false 20) "gmail\.com")
  = utils.prepare_pattern (plain_lib (fun _ _ => false))
      (utils.Checker_init utils.DomainCheck [] false 20) "gmail\.com".
Proof.
  refine (proj1 (proj2 (proj2 (prepare_pattern_anchors
            (plain_lib (fun _ _ => false))
            (utils.Checker_init utils.DomainCheck [] false 20)
            "gmail\.com")) eq_refl)).
Defined.

Lemma prepare_value_of_subclasses_witness :
  utils.prepare_value (plain_lib (fun _ _ => false))
    (utils.Checker_init utils.DomainCheck [] true 20) "gmail.com" = "gmail.com" /\
  utils.prepare_value (plain_lib (fun _ _ => false))
    (utils.Checker_init utils.UserCheck [] true 20) "gmail.com" = "gmail.com".
Proof.
  refine (proj1 (proj2 (proj2 (prepare_value_of_subclasses
            (plain_lib (fun _ _ => false)) [] true 20 "gmail.com")) _) _).
  - discriminate.
  - reflexivity.
Defined.

(** ** [Checker.compile_patterns] and [Checker.check] *)

Lemma range_from_chunks (l : list string) n fuel i :
  (0 < n)%Z -> (0 <= i)%Z ->
  (Z.of_nat (length l) - i <= Z.of_nat fuel)%Z ->
  let cs := map (fun i => utils.slice i (i + n) l)
                (utils.range_from fuel i (Z.of_nat (length l)) n) in
  concat cs = drop (Z.to_nat i) l /\
  Forall (fun c => 0 < length c <= Z.to_nat n) cs.
Proof.
  intros Hn. revert i. induction fuel as [|fuel IH]; intros i Hi Hf; simpl.
  - split; [| constructor]. rewrite drop_ge; [done | lia].
  - destruct (Z.ltb_spec i (Z.of_nat (length l))) as [Hlt|Hge]; simpl.
    + destruct (IH (i + n)%Z ltac:(lia) ltac:(lia)) as [IH1 IH2].
      unfold utils.slice at 1 3.
      replace (i + n - i)%Z with n by lia.
      split.
      * rewrite IH1. replace (Z.to_nat (i + n)) with (Z.to_nat i + Z.to_nat n)
          by lia.
        rewrite <- drop_drop. apply take_drop.
      * constructor; [| exact IH2].
        rewrite length_take, length_drop. lia.
    + split; [| constructor]. rewrite drop_ge; [done | lia].
Qed.

(** X23. With a positive chunk size the chunks of [compile_patterns] are
    the patterns cut into consecutive pieces: put together they are the
    list of patterns, no piece is empty and none is longer than the chunk
    size; one compiled pattern is made for each piece. *)
Theorem chunks_partition_patterns L self :
  (0 < utils.chunk_size self)%Z ->
  exists cs,
    utils.chunks (utils.patterns self) (utils.chunk_size self) = Some cs /\
    concat cs = utils.patterns self /\
    Forall (fun c => 0 < length c <= Z.to_nat (utils.chunk_size self)) cs /\
    forall compiled, utils.compile_patterns L self = utils.Return compiled ->
                     length compiled = length cs.
Proof.
  intros Hn. unfold utils.compile_patterns, utils.chunks, utils.range0.
  destruct (Z.eqb_spec (utils.chunk_size self) 0) as [|_]; [lia |].
  destruct (Z.ltb_spec (utils.chunk_size self) 0) as [|_]; [lia |].
  eexists. split; [reflexivity |].
  destruct (range_from_chunks (utils.patterns self) (utils.chunk_size self)
              (Z.to_nat (Z.of_nat (length (utils.patterns self)))) 0 Hn
              ltac:(lia) ltac:(lia)) as [H1 H2].
  split; [exact H1 |]. split; [exact H2 |].
  generalize (map (fun i => utils.slice i (i + utils.chunk_size self)
                              (utils.patterns self))
                (utils.range_from
                   (Z.to_nat (Z.of_nat (length (utils.patterns self)))) 0
                   (Z.of_nat (length (utils.patterns self)))
                   (utils.chunk_size self))).
  intros cs. induction cs as [|c cs IH]; intros compiled; simpl.
  - by intros [= <-].
  - destruct (re_compiles L _); [| done].
    destruct (utils.compile_chunks L self cs) as [res|e]; [| done].
    intros [= <-]. simpl. f_equal. by apply IH.
Qed.

Lemma chunks_partition_patterns_witness :
  exists cs,
    utils.chunks ["a"; "b"; "c"; "d"; "e"] 2 = Some cs /\
    concat cs = ["a"; "b"; "c"; "d"; "e"] /\
    Forall (fun c => 0 < length c <= Z.to_nat 2) cs /\
    forall compiled,
      utils.compile_patterns (plain_lib (fun _ _ => false))
        (utils.Checker_init utils.Checker_class ["a"; "b"; "c"; "d"; "e"] true 2)
      = utils.Return compiled ->
      length compiled = length cs.
Proof.
  apply (chunks_partition_patterns (plain_lib (fun _ _ => false))
           (utils.Checker_init utils.Checker_class ["a"; "b"; "c"; "d"; "e"]
              true 2)).
  reflexivity.
Defined.

(** X24. A chunk size of zero makes every [check] with a value raise the
    [ValueError] of [range]; with a negative chunk size, or without
    patterns, [check] compiles nothing, answers [False] for every value,
    and leaves an empty cache, so the next call compiles again. *)
Theorem check_without_chunks L c ps esc n v vs :
  ((n = 0)%Z ->
   utils.check L (utils.Checker_init c ps esc n) (v :: vs)
   = (utils.Raised utils.ValueError_range_step, utils.Checker_init c ps esc n)) /\
  ((n < 0)%Z \/ ((n <> 0)%Z /\ ps = []) ->
   utils.check L (utils.Checker_init c ps esc n) (v :: vs)
   = (utils.Return false,
      utils.with_compiled [] (utils.Checker_init c ps esc n)) /\
   forall w ws,
     utils.check L (utils.with_compiled [] (utils.Checker_init c ps esc n))
       (w :: ws)
     = (utils.Return false,
        utils.with_compiled [] (utils.Checker_init c ps esc n))).
Proof.
  assert (forall self args, utils.any_match L self [] args = false) as Hany.
  { intros self args. unfold utils.any_match. by induction args. }
  split.
  - intros ->. reflexivity.
  - intros Hn.
    assert (forall self, utils.patterns self = ps -> utils.chunk_size self = n ->
              utils.compile_patterns L self = utils.Return []) as Hc.
    { intros self Hps Hcs.
      unfold utils.compile_patterns, utils.chunks, utils.range0.
      rewrite Hps, Hcs.
      destruct Hn as [Hn | [Hn ->]].
      - destruct (Z.eqb_spec n 0) as [|_]; [lia |].
        by destruct (Z.ltb_spec n 0) as [_|]; [| lia].
      - destruct (Z.eqb_spec n 0) as [|_]; [done |].
        by destruct (n <? 0)%Z. }
    split.
    + unfold utils.check. cbn [utils._compiled_patterns utils.Checker_init].
      rewrite Hc by done. by rewrite Hany.
    + intros w ws. unfold utils.check.
      cbn [utils._compiled_patterns utils.with_compiled].
      rewrite Hc by done. by rewrite Hany.
Qed.

Lemma check_without_chunks_witness :
  utils.check (plain_lib (fun _ _ => true))
    (utils.Checker_init utils.DomainCheck ["gmail\.com"] false (-1))
    ["gmail.com"]
  = (utils.Return false,
     utils.with_compiled []
       (utils.Checker_init utils.DomainCheck ["gmail\.com"] false (-1))).
Proof.
  refine (proj1 (proj2 (check_without_chunks (plain_lib (fun _ _ => true))
            utils.DomainCheck ["gmail\.com"] false (-1) "gmail.com" [])
            (or_introl _))).
  reflexivity.
Defined.

(** X25. The cache of compiled patterns does not change an answer: after
    a [check] that returned, a further [check] answers what a new checker
    with the same patterns answers, and leaves the object as it is. *)
Theorem check_cache_is_transparent L c ps esc n args b self' args' :
  utils.check L (utils.Checker_init c ps esc n) args = (utils.Return b, self') ->
  args' <> [] ->
  fst (utils.check L self' args')
    = fst (utils.check L (utils.Checker_init c ps esc n) args') /\
  snd (utils.check L self' args') = self'.
Proof.
  intros Hcheck Hargs'. destruct args' as [|w ws]; [done |]. clear Hargs'.
  unfold utils.check in Hcheck. destruct args as [|v vs]; [done |].
  cbn [utils._compiled_patterns utils.Checker_init] in Hcheck.
  destruct (utils.compile_patterns L (utils.Checker_init c ps esc n))
    as [compiled|e] eqn:Hc; [| done].
  injection Hcheck as _ <-.
  assert (utils.compile_patterns L
            (utils.with_compiled compiled (utils.Checker_init c ps esc n))
          = utils.Return compiled) as Hc'.
  { rewrite <- Hc. unfold utils.compile_patterns. simpl.
    destruct (utils.chunks ps n) as [cs|]; [| done].
    clear. induction cs as [|x cs IH]; [done |]. simpl.
    unfold utils.prepare_pattern at 1 3. simpl. by rewrite IH. }
  unfold utils.check.
  cbn [utils._compiled_patterns utils.with_compiled utils.Checker_init].
  rewrite Hc. destruct compiled as [|p compiled].
  - rewrite Hc'. split; [| done].
    unfold utils.any_match, utils.prepare_value. reflexivity.
  - split; [| done]. cbn [fst].
    unfold utils.any_match, utils.prepare_value. reflexivity.
Qed.

Lemma check_cache_is_transparent_witness :
  fst (utils.check (plain_lib (fun p v => String.eqb v "gmail.com"))
         (utils.with_compiled ["(^gmail\.com$)"]
            (utils.Checker_init utils.DomainCheck ["gmail\.com"] false 20))
         ["bob@gmail.com"])
  = fst (utils.check (plain_lib (fun p v => String.eqb v "gmail.com"))
           (utils.Checker_init utils.DomainCheck ["gmail\.com"] false 20)
           ["bob@gmail.com"]).
Proof.
  refine (proj1 (check_cache_is_transparent
            (plain_lib (fun p v => String.eqb v "gmail.com"))
            utils.DomainCheck ["gmail\.com"] false 20 ["alice@example.com"] false
            _ ["bob@gmail.com"] _ _)).
  - reflexivity.
  - discriminate.
Defined.

(** * base.py *)

(** ** Splitting and joining *)

Lemma str_split_cons c a s :
  str_split c (String a s) =
  if Ascii.eqb a c then EmptyString :: str_split c s
  else String a (before c s) :: tail (str_split c s).
Proof.
  unfold before. simpl. destruct (Ascii.eqb a c); [done |].
  by destruct (str_split c s).
Qed.

Lemma str_split_not_nil c s : str_split c s <> [].
Proof.
  destruct s as [|a s]; [done |]. rewrite str_split_cons.
  by destruct (Ascii.eqb a c).
Qed.

Lemma before_cons c a s :
  before c (String a s) = if Ascii.eqb a c then EmptyString
                          else String a (before c s).
Proof.
  unfold before at 1. rewrite str_split_cons. by destruct (Ascii.eqb a c).
Qed.

Lemma str_find_cons_none c a s :
  str_find c (String a s) = (-1)%Z <->
  Ascii.eqb a c = false /\ str_find c s = (-1)%Z.
Proof.
  simpl. pose proof (str_find_lower c s).
  destruct (Ascii.eqb a c); [split; [done | by intros []] |].
  destruct (Z.ltb_spec (str_find c s) 0); split; try intros [_ ?]; try lia;
    intros; split; try done; lia.
Qed.

Lemma before_no_sep c s : str_find c (before c s) = (-1)%Z.
Proof.
  induction s as [|a s IH]; [done |]. rewrite before_cons.
  destruct (Ascii.eqb a c) eqn:Ha; [done |].
  by apply str_find_cons_none.
Qed.


Lemma before_id c s : str_find c s = (-1)%Z -> before c s = s.
Proof.
  induction s as [|a s IH]; [done |]. rewrite before_cons.
  intros [Ha Hs]%str_find_cons_none. rewrite Ha. by rewrite IH.
Qed.

Lemma before_app c x y :
  str_find c x = (-1)%Z -> before c (x +:+ String c y) = x.
Proof.
  induction x as [|a x IH].
  - intros _. change (before c (String c y) = ""). rewrite before_cons.
    by rewrite Ascii.eqb_refl.
  - intros [Ha Hx]%str_find_cons_none.
    change (before c (String a (x +:+ String c y)) = String a x).
    rewrite before_cons, Ha. by rewrite IH.
Qed.




Lemma str_split_app c x y :
  str_find c x = (-1)%Z ->
  str_split c (x +:+ String c y) = x :: str_split c y.
Proof.
  induction x as [|a x IH].
  - intros _. change (str_split c (String c y) = "" :: str_split c y).
    rewrite str_split_cons. by rewrite Ascii.eqb_refl.
  - intros [Ha Hx]%str_find_cons_none.
    change (str_split c (String a (x +:+ String c y))
            = String a x :: str_split c y).
    rewrite str_split_cons, Ha, before_app, IH by done. done.
Qed.

Lemma str_split_length c s :
  str_find c s <> (-1)%Z -> 2 <= length (str_split c s).
Proof.
  induction s as [|a s IH]; [done |]. rewrite str_split_cons.
  destruct (Ascii.eqb a c) eqn:Ha.
  - intros _. simpl. pose proof (str_split_not_nil c s).
    destruct (str_split c s); [done | simpl; lia].
  - intros Hs.
    assert (str_find c s <> (-1)%Z) as Hs'.
    { intros H. apply Hs. by apply str_find_cons_none. }
    specialize (IH Hs'). destruct (str_split c s); simpl in *; lia.
Qed.

Lemma str_split_single c s :
  str_find c s = (-1)%Z -> str_split c s = [s].
Proof.
  induction s as [|a s IH]; [done |].
  intros [Ha Hs]%str_find_cons_none.
  rewrite str_split_cons, Ha, IH by done. by rewrite before_id.
Qed.

Lemma str_join_cons sep x y l :
  str_join sep (x :: y :: l) = x +:+ sep +:+ str_join sep (y :: l).
Proof. reflexivity. Qed.

Lemma str_join_split c s : str_join (String c "") (str_split c s) = s.
Proof.
  induction s as [|a s IH]; [done |]. rewrite str_split_cons.
  pose proof (str_split_not_nil c s) as Hne.
  destruct (Ascii.eqb_spec a c) as [->|Hac].
  - destruct (str_split c s) as [|p ps] eqn:Hs; [done |].
    rewrite str_join_cons, IH. done.
  - unfold before. destruct (str_split c s) as [|p ps] eqn:Hs; [done |].
    cbn [head default tail]. destruct ps as [|p' ps].
    + simpl in *. by rewrite IH.
    + rewrite str_join_cons. rewrite str_join_cons in IH.
      rewrite <- IH. done.
Qed.

(** ** [normalize] *)

Lemma address_eq user' domain' :
  base.address user' domain' = user' +:+ "@" +:+ domain'.
Proof. reflexivity. Qed.



(** X27. For an address of Microsoft, whatever the other checks say,
    [normalize] cuts the user at its first [+] and changes nothing else:
    dots stay, and a user without [+] is kept as it is. *)
Theorem normalize_microsoft L email_address exchanges user' domain' :
  utils.split_email L email_address = (user', domain') ->
  let xs := domain' :: match exchanges with
                       | Some ((_ :: _) as l) => l
                       | _ => []
                       end in
  base.called L base.is_microsoft xs = utils.Return true ->
  exists local,
    base.normalize L email_address exchanges
      = utils.Return (local +:+ "@" +:+ domain') /\
    str_find "+" local = (-1)%Z /\
    (str_find "+" user' = (-1)%Z -> local = user') /\
    (forall name tag, user' = name +:+ "+" +:+ tag ->
                      str_find "+" name = (-1)%Z -> local = name).
Proof.
  intros Hs xs Hm. exists (before "+" user').
  split; [| split; [| split]].
  - unfold base.normalize. rewrite Hs. fold xs. by rewrite Hm.
  - apply before_no_sep.
  - apply before_id.
  - intros name tag -> Hn. by apply before_app.
Qed.

Lemma normalize_microsoft_witness :
  base.normalize provider_lib "first.last+news@hotmail.com" None
    = utils.Return ("first.last" +:+ "@" +:+ "hotmail.com").
Proof.
  destruct (normalize_microsoft provider_lib "first.last+news@hotmail.com" None
              "first.last+news" "hotmail.com" eq_refl eq_refl)
    as (local & H1 & _ & _ & H2).
  rewrite H1. by rewrite (H2 "first.last" "news" eq_refl eq_refl).
Defined.

(** X28. For an address of FastMail (and of none of the other three), a
    domain of three or more labels gives its first label as the user and
    the rest as the domain, whatever the user was; a domain of at most
    two labels keeps the domain and cuts the user at its first [+]. *)
Theorem normalize_fastmail L email_address exchanges user' domain' :
  utils.split_email L email_address = (user', domain') ->
  let xs := domain' :: match exchanges with
                       | Some ((_ :: _) as l) => l
                       | _ => []
                       end in
  base.called L base.is_microsoft xs = utils.Return false ->
  base.called L base.is_google xs = utils.Return false ->
  base.called L base.is_yahoo xs = utils.Return false ->
  base.called L base.is_fastmail xs = utils.Return true ->
  (forall label rest,
     domain' = label +:+ "." +:+ rest ->
     str_find "." label = (-1)%Z -> str_find "." rest <> (-1)%Z ->
     base.normalize L email_address exchanges
       = utils.Return (label +:+ "@" +:+ rest)) /\
  (length (str_split "." domain') <= 2 ->
   base.normalize L email_address exchanges
     = utils.Return (before "+" user' +:+ "@" +:+ domain')).
Proof.
  intros Hs xs Hm Hg Hy Hf. split.
  - intros label rest Hd Hl Hr.
    unfold base.normalize. rewrite Hs. fold xs. rewrite Hm, Hg, Hy, Hf.
    rewrite Hd. change (label +:+ "." +:+ rest) with (label +:+ String "." rest).
    rewrite str_split_app by done. cbn [length head tail default].
    pose proof (str_split_length "." rest Hr) as Hlen.
    destruct (Nat.ltb_spec 2 (S (length (str_split "." rest)))); [| lia].
    by rewrite str_join_split.
  - intros Hlen. unfold base.normalize. rewrite Hs. fold xs.
    rewrite Hm, Hg, Hy, Hf.
    by destruct (Nat.ltb_spec 2 (length (str_split "." domain'))); [lia |].
Qed.

Lemma normalize_fastmail_witness :
  base.normalize provider_lib "alice+news@bob.fastmail.com" None
    = utils.Return ("bob" +:+ "@" +:+ "fastmail.com").
Proof.
  refine (proj1 (normalize_fastmail provider_lib "alice+news@bob.fastmail.com"
                   None "alice+news" "bob.fastmail.com" eq_refl eq_refl eq_refl
                   eq_refl eq_refl)
            "bob" "fastmail.com" eq_refl eq_refl _).
  discriminate.
Defined.

(** ** [guess_emails] *)

Lemma append_empty s : s +:+ "" = s.
Proof.
  induction s as [|a s IH]; [done |].
  change (String a (s +:+ "") = String a s). by f_equal.
Qed.

Lemma guess_loop_formatted L get tmpl rest s :
  format get tmpl = Formatted s ->
  base.guess_loop L get (tmpl :: rest) =
  match base.guess_loop L get rest with
  | Some possible_emails => Some (lower L s :: possible_emails)
  | None => None
  end.
Proof. intros H. cbn [base.guess_loop]. by rewrite H. Qed.

Lemma guess_loop_key_error L get tmpl rest :
  format get tmpl = KeyError ->
  base.guess_loop L get (tmpl :: rest) = base.guess_loop L get rest.
Proof. intros H. cbn [base.guess_loop]. by rewrite H. Qed.

Section Guess.
Variable L : Lib.
Variable get : string -> option string.
Variables first' last' domain' : string.
Hypothesis get_first : get "first" = Some first'.
Hypothesis get_domain : get "domain" = Some domain'.

Lemma guess_loop_both :
  get "last" = Some last' ->
  let d := domain' +:+ "" in
  base.guess_loop L get base.DEFAULT_EMAIL_TEMPLATES =
  Some (lower L <$>
    [ first' +:+ "@" +:+ d;
      last' +:+ "@" +:+ d;
      first' +:+ last' +:+ "@" +:+ d;
      first' +:+ "." +:+ last' +:+ "@" +:+ d;
      last' +:+ first' +:+ "@" +:+ d;
      last' +:+ "." +:+ first' +:+ "@" +:+ d;
      str_take 1 first' +:+ last' +:+ "@" +:+ d;
      str_take 1 first' +:+ "." +:+ last' +:+ "@" +:+ d;
      str_take 1 first' +:+ "_" +:+ last' +:+ "@" +:+ d;
      first' +:+ str_take 1 last' +:+ "@" +:+ d;
      first' +:+ "." +:+ str_take 1 last' +:+ "@" +:+ d;
      first' +:+ "_" +:+ str_take 1 last' +:+ "@" +:+ d;
      last' +:+ str_take 1 first' +:+ "@" +:+ d;
      last' +:+ "." +:+ str_take 1 first' +:+ "@" +:+ d;
      last' +:+ "_" +:+ str_take 1 first' +:+ "@" +:+ d;
      first' +:+ "_" +:+ last' +:+ "@" +:+ d;
      last' +:+ "_" +:+ first' +:+ "@" +:+ d;
      str_take 1 first' +:+ str_take 1 last' +:+ "@" +:+ d;
      str_take 1 last' +:+ str_take 1 first' +:+ "@" +:+ d;
      str_take 1 last' +:+ first' +:+ "@" +:+ d;
      str_take 1 last' +:+ "." +:+ first' +:+ "@" +:+ d;
      str_take 1 last' +:+ "_" +:+ first' +:+ "@" +:+ d;
      str_take 1 first' +:+ "@" +:+ d ]).
Proof.
  intros get_last d. unfold base.DEFAULT_EMAIL_TEMPLATES.
  repeat (erewrite guess_loop_formatted;
          [| unfold format; vm_compute;
             rewrite ?get_first, ?get_last, ?get_domain; reflexivity]).
  reflexivity.
Qed.

Lemma guess_loop_first_only :
  get "last" = None ->
  let d := domain' +:+ "" in
  base.guess_loop L get base.DEFAULT_EMAIL_TEMPLATES =
  Some (lower L <$> [ first' +:+ "@" +:+ d; str_take 1 first' +:+ "@" +:+ d ]).
Proof.
  intros get_last d. unfold base.DEFAULT_EMAIL_TEMPLATES.
  repeat first
    [ erewrite guess_loop_formatted;
      [| unfold format; vm_compute;
         rewrite ?get_first, ?get_last, ?get_domain; reflexivity]
    | rewrite guess_loop_key_error;
      [| unfold format; vm_compute;
         rewrite ?get_first, ?get_last, ?get_domain; reflexivity] ].
  reflexivity.
Qed.
End Guess.

(** X29. With a first and a last name in [data], [guess_emails] with the
    default templates gives 23 addresses, one for each template in the
    order of the list, each lower-cased, with the domain that was passed:
    a [domain] entry of [data] is not used. *)
Theorem guess_emails_with_both_names L domain' data first' last' :
  data !! "first" = Some first' ->
  data !! "last" = Some last' ->
  base.guess_emails L domain' data base.DEFAULT_EMAIL_TEMPLATES =
  Some (lower L <$>
    [ first' +:+ "@" +:+ domain';
      last' +:+ "@" +:+ domain';
      first' +:+ last' +:+ "@" +:+ domain';
      first' +:+ "." +:+ last' +:+ "@" +:+ domain';
      last' +:+ first' +:+ "@" +:+ domain';
      last' +:+ "." +:+ first' +:+ "@" +:+ domain';
      str_take 1 first' +:+ last' +:+ "@" +:+ domain';
      str_take 1 first' +:+ "." +:+ last' +:+ "@" +:+ domain';
      str_take 1 first' +:+ "_" +:+ last' +:+ "@" +:+ domain';
      first' +:+ str_take 1 last' +:+ "@" +:+ domain';
      first' +:+ "." +:+ str_take 1 last' +:+ "@" +:+ domain';
      first' +:+ "_" +:+ str_take 1 last' +:+ "@" +:+ domain';
      last' +:+ str_take 1 first' +:+ "@" +:+ domain';
      last' +:+ "." +:+ str_take 1 first' +:+ "@" +:+ domain';
      last' +:+ "_" +:+ str_take 1 first' +:+ "@" +:+ domain';
      first' +:+ "_" +:+ last' +:+ "@" +:+ domain';
      last' +:+ "_" +:+ first' +:+ "@" +:+ domain';
      str_take 1 first' +:+ str_take 1 last' +:+ "@" +:+ domain';
      str_take 1 last' +:+ str_take 1 first' +:+ "@" +:+ domain';
      str_take 1 last' +:+ first' +:+ "@" +:+ domain';
      str_take 1 last' +:+ "." +:+ first' +:+ "@" +:+ domain';
      str_take 1 last' +:+ "_" +:+ first' +:+ "@" +:+ domain';
      str_take 1 first' +:+ "@" +:+ domain' ]).
Proof.
  intros Hf Hl. unfold base.guess_emails.
  pose proof (guess_loop_both L (fun key => <["domain" := domain']> data !! key)
                first' last' domain') as H.
  cbv zeta in H. rewrite !append_empty in H. apply H.
  - by rewrite lookup_insert_ne.
  - by rewrite lookup_insert_eq.
  - by rewrite lookup_insert_ne.
Qed.

Lemma guess_emails_with_both_names_witness :
  base.guess_emails (plain_lib (fun _ _ => false)) "example.com"
    (<["first" := "ann"]> (<["last" := "lee"]> (<["domain" := "other.org"]> ∅)))
    ["{first:.1}{last}@{domain}"]
  = Some ["alee@example.com"] /\
  exists l,
    base.guess_emails (plain_lib (fun _ _ => false)) "example.com"
      (<["first" := "ann"]> (<["last" := "lee"]> (<["domain" := "other.org"]> ∅)))
      base.DEFAULT_EMAIL_TEMPLATES = Some l /\ length l = 23.
Proof.
  split; [vm_compute; reflexivity |].
  eexists. split.
  - apply (guess_emails_with_both_names (plain_lib (fun _ _ => false))
             "example.com" _ "ann" "lee"); vm_compute; reflexivity.
  - reflexivity.
Defined.

(** X30. With a first name and no last name in [data], the templates
    that use the last name are passed over: [guess_emails] with the
    default templates gives the two addresses made of the first name and
    of its first character. *)
Theorem guess_emails_with_first_name L domain' data first' :
  data !! "first" = Some first' ->
  data !! "last" = None ->
  base.guess_emails L domain' data base.DEFAULT_EMAIL_TEMPLATES =
  Some (lower L <$>
    [ first' +:+ "@" +:+ domain'; str_take 1 first' +:+ "@" +:+ domain' ]).
Proof.
  intros Hf Hl. unfold base.guess_emails.
  pose proof (guess_loop_first_only L
                (fun key => <["domain" := domain']> data !! key)
                first' domain') as H.
  cbv zeta in H. rewrite !append_empty in H. apply H.
  - by rewrite lookup_insert_ne.
  - by rewrite lookup_insert_eq.
  - by rewrite lookup_insert_ne.
Qed.

Lemma guess_emails_with_first_name_witness :
  base.guess_emails (plain_lib (fun _ _ => false)) "example.com"
    (<["first" := "ann"]> ∅) base.DEFAULT_EMAIL_TEMPLATES
  = Some ["ann@example.com"; "a@example.com"].
Proof.
  apply (guess_emails_with_first_name (plain_lib (fun _ _ => false))
           "example.com" (<["first" := "ann"]> ∅) "ann");
    vm_compute; reflexivity.
Defined.
